(** * Melide: client-side scripts of the site (validate.js, booking.js, main.js, lightbox.js)

    A shallow embedding of the scripts and the properties of their
    validation engine, booking-widget loader, page utilities and image
    lightbox.

    Conventions.
    - A field value typed by the visitor is a JavaScript string: the sequence
      of its UTF-16 code units, here [list N].  Identifiers, rule names, rule
      parameters and messages are constants of the scripts, here [string].
    - The document is a store of nodes addressed by their position; an
      element reference of the scripts is such a position.
    - Callbacks run by the browser (script load and error, timers, image load
      and error, key presses) are events; a handler is a function from state
      to state, and a session is a list of events folded over the state.  The
      reactions of a promise run within the event that settles it.
    - The numbers the scripts count with (attempts, indices, lengths) are
      integers. *)

From Stdlib Require Import ZArith NArith QArith Lia Bool Ascii String DecimalString.
From stdpp Require Import base option gmap sets list strings.

Local Open Scope string_scope.
Local Open Scope list_scope.
#[local] Set Warnings "-clear-no-such-hyp".

(** ** JavaScript primitives used by the scripts *)
Module JS.

(** A string value: its UTF-16 code units. *)
Definition jsstring := list N.

(** The code units of a script constant written in ASCII. *)
Definition of_string (s : string) : jsstring :=
  (fun a => N_of_ascii a) <$> list_ascii_of_string s.

(** WhiteSpace and LineTerminator of ECMAScript: what [String.prototype.trim]
    strips and what the class [\s] of a regular expression matches. *)
Definition isWhiteSpace (c : N) : bool :=
  (bool_decide (c ∈ [0x09; 0x0A; 0x0B; 0x0C; 0x0D; 0x20; 0xA0; 0x1680;
                     0x2028; 0x2029; 0x202F; 0x205F; 0x3000; 0xFEFF]%N)
   || ((0x2000 <=? c) && (c <=? 0x200A)))%N.

Fixpoint trimStart (s : jsstring) : jsstring :=
  match s with
  | c :: s' => if isWhiteSpace c then trimStart s' else s
  | [] => []
  end.

Definition trimEnd (s : jsstring) : jsstring := rev (trimStart (rev s)).

(** [value.trim()] *)
Definition trim (s : jsstring) : jsstring := trimEnd (trimStart s).

(** [value.trim().length] *)
Definition trimmed_length (s : jsstring) : N := N.of_nat (length (trim s)).

(** [!value] for a string: only the empty string is falsy. *)
Definition is_empty (s : jsstring) : bool :=
  match s with [] => true | _ => false end.

(** [value.replace(/\s/g, '')] *)
Definition remove_whitespace (s : jsstring) : jsstring :=
  List.filter (fun c => negb (isWhiteSpace c)) s.

(** *** Regular expressions

    The two patterns of validate.js are anchored at both ends and use
    classes, concatenation, [?], [+] and [{10,}] only, so [test] is
    membership in a regular language; it is decided by derivatives. *)
Inductive regex :=
| Never
| Epsilon
| Class (p : N -> bool)
| Seq (r1 r2 : regex)
| Alt (r1 r2 : regex)
| Star (r : regex).

Fixpoint nullable (r : regex) : bool :=
  match r with
  | Never => false
  | Epsilon => true
  | Class _ => false
  | Seq r1 r2 => nullable r1 && nullable r2
  | Alt r1 r2 => nullable r1 || nullable r2
  | Star _ => true
  end.

Fixpoint deriv (c : N) (r : regex) : regex :=
  match r with
  | Never => Never
  | Epsilon => Never
  | Class p => if p c then Epsilon else Never
  | Seq r1 r2 =>
      if nullable r1 then Alt (Seq (deriv c r1) r2) (deriv c r2)
      else Seq (deriv c r1) r2
  | Alt r1 r2 => Alt (deriv c r1) (deriv c r2)
  | Star r1 => Seq (deriv c r1) (Star r1)
  end.

(** [/^r$/.test(s)] *)
Fixpoint regex_test (r : regex) (s : jsstring) : bool :=
  match s with
  | [] => nullable r
  | c :: s' => regex_test (deriv c r) s'
  end.

Definition Opt (r : regex) : regex := Alt Epsilon r.
Definition Plus (r : regex) : regex := Seq r (Star r).
Fixpoint AtLeast (n : nat) (r : regex) : regex :=
  match n with
  | O => Star r
  | S n' => Seq r (AtLeast n' r)
  end.
Definition Chr (a : ascii) : regex := Class (fun c => (c =? N_of_ascii a)%N).

(** [\d] *)
Definition isDigit (c : N) : bool := ((48 <=? c) && (c <=? 57))%N.

(** *** Numbers

    A rule parameter reaches a comparison as a string and is converted by
    ToNumber.  A string of decimal digits denotes its value, the empty string
    denotes 0; the other numeric literals (signs, fractions, exponents,
    hexadecimal, Infinity, surrounding white space) and the strings that
    convert to NaN are left to the runtime.  The numbers compared with a
    parameter are lengths, which are below 2^53: for them the comparison
    with the double nearest to a string of digits and the comparison with
    the integer the digits denote agree. *)
Inductive number :=
| NaN
| Finite (q : Q)
| PosInfinity
| NegInfinity.

Fixpoint decimal_digits (acc : N) (s : string) : option N :=
  match s with
  | EmptyString => Some acc
  | String a s' =>
      let c := N_of_ascii a in
      if isDigit c then decimal_digits (10 * acc + (c - 48))%N s' else None
  end.

(** The runtime: what the scripts take from the browser and the clock. *)
Record Runtime := {
  (** ToNumber on the strings that are not all decimal digits *)
  StringToNumber_other : string -> number;
  (** [new Date(value) >= today] with today at local midnight *)
  date_from_today : jsstring -> bool
}.

Definition ToNumber (rt : Runtime) (s : string) : number :=
  match decimal_digits 0 s with
  | Some n => Finite (inject_Z (Z.of_N n))
  | None => StringToNumber_other rt s
  end.

(** [len >= y] and [len <= y] for a length [len] and a number [y];
    a comparison with NaN is false. *)
Definition ge_number (len : N) (y : number) : bool :=
  match y with
  | NaN => false
  | Finite q => Qle_bool q (inject_Z (Z.of_N len))
  | PosInfinity => false
  | NegInfinity => true
  end.

Definition le_number (len : N) (y : number) : bool :=
  match y with
  | NaN => false
  | Finite q => Qle_bool (inject_Z (Z.of_N len)) q
  | PosInfinity => true
  | NegInfinity => false
  end.

(** The property names every object literal inherits from
    [Object.prototype]: a lookup [obj[name]] of one of them on an object that
    has no own property of that name yields the inherited member, which is
    truthy. *)
Definition Object_prototype_names : list string :=
  ["constructor"; "hasOwnProperty"; "isPrototypeOf"; "propertyIsEnumerable";
   "toLocaleString"; "toString"; "valueOf"; "__proto__";
   "__defineGetter__"; "__defineSetter__"; "__lookupGetter__";
   "__lookupSetter__"].

(** [s.split(':')]: the pieces between the separators, never empty. *)
Fixpoint split_on (sep : ascii) (s : string) : string * list string :=
  match s with
  | EmptyString => (EmptyString, [])
  | String a s' =>
      let '(hd, tl) := split_on sep s' in
      if Ascii.eqb a sep then (EmptyString, hd :: tl)
      else (String a hd, tl)
  end.

(** The strings a pattern denotes: what [/^r$/] matches. *)
Inductive matches : regex -> jsstring -> Prop :=
| matches_epsilon : matches Epsilon []
| matches_class p c : p c = true -> matches (Class p) [c]
| matches_seq r1 r2 s1 s2 :
    matches r1 s1 -> matches r2 s2 -> matches (Seq r1 r2) (s1 ++ s2)
| matches_alt_l r1 r2 s : matches r1 s -> matches (Alt r1 r2) s
| matches_alt_r r1 r2 s : matches r2 s -> matches (Alt r1 r2) s
| matches_star_nil r : matches (Star r) []
| matches_star_app r s1 s2 :
    matches r s1 -> matches (Star r) s2 -> matches (Star r) (s1 ++ s2).

End JS.

(** ** validate.js *)
Module Validate.
Import JS.

(** *** The rule registry *)

(** The [message] of a rule: a string, or a function of the parameter (an
    arrow function with a template literal).  A function that reaches
    [textContent] unapplied is converted to a string, its source text. *)
Inductive Message :=
| Text (s : string)
| Template (f : string -> string) (source : string).

(** A rule: [test(value)] or [test(value, param)], read for its truthiness,
    and [message]. *)
Record RuleConfig := {
  test : jsstring -> option string -> bool;
  message : Message
}.

(** [/^[^\s@]+@[^\s@]+\.[^\s@]+$/] *)
Definition emailRegex : regex :=
  let other := Class (fun c => negb (isWhiteSpace c || (c =? 64)%N)) in
  Seq (Plus other) (Seq (Chr "@") (Seq (Plus other) (Seq (Chr ".") (Plus other)))).

(** [/^[\+]?[(]?[\d\s\-\(\)]{10,}$/] *)
Definition phoneRegex : regex :=
  let body := Class (fun c => isDigit c || isWhiteSpace c
                              || (c =? 45)%N || (c =? 40)%N || (c =? 41)%N) in
  Seq (Opt (Chr "+")) (Seq (Opt (Chr "(")) (AtLeast 10 body)).

Section Rules.
Variable rt : Runtime.

Definition required : RuleConfig := {|
  test := fun value _ => negb (is_empty value) && (0 <? trimmed_length value)%N;
  message := Text "This field is required"
|}.

Definition email : RuleConfig := {|
  test := fun value _ =>
    if is_empty value then true else regex_test emailRegex value;
  message := Text "Please enter a valid email address"
|}.

Definition phone : RuleConfig := {|
  test := fun value _ =>
    if is_empty value then true
    else regex_test phoneRegex (remove_whitespace value);
  message := Text "Please enter a valid phone number"
|}.

Definition minLength : RuleConfig := {|
  test := fun value min =>
    if is_empty value then true
    else ge_number (trimmed_length value)
           (match min with
            | Some p => ToNumber rt p
            | None => Finite 2
            end);
  message := Template (fun min => "Must be at least " +:+ min +:+ " characters long")
               "(min) => `Must be at least ${min} characters long`"
|}.

Definition maxLength : RuleConfig := {|
  test := fun value max =>
    if is_empty value then true
    else le_number (trimmed_length value)
           (match max with
            | Some p => ToNumber rt p
            | None => Finite 1000
            end);
  message := Template (fun max => "Must be no more than " +:+ max +:+ " characters long")
               "(max) => `Must be no more than ${max} characters long`"
|}.

Definition date : RuleConfig := {|
  test := fun value _ =>
    if is_empty value then true else date_from_today rt value;
  message := Text "Please select a date from today onwards"
|}.

(** The registry as the script creates it; [addValidationRule] can extend and
    overwrite it later, so the functions below take the registry of the
    moment as an argument. *)
Definition VALIDATION_RULES : gmap string RuleConfig :=
  list_to_map [("required", required); ("email", email); ("phone", phone);
               ("minLength", minLength); ("maxLength", maxLength);
               ("date", date)].

End Rules.

(** Form configurations: the entries of each object in key order. *)
Definition contact_form : list (string * list string) :=
  [("contact-name", ["required"; "minLength:2"; "maxLength:100"]);
   ("contact-email", ["required"; "email"]);
   ("contact-subject", ["maxLength:200"]);
   ("contact-message", ["required"; "minLength:10"; "maxLength:1000"])].

Definition booking_form : list (string * list string) :=
  [("booking-name", ["required"; "minLength:2"; "maxLength:100"]);
   ("booking-email", ["required"; "email"]);
   ("booking-phone", ["phone"]);
   ("booking-service", ["required"]);
   ("booking-date", ["required"; "date"]);
   ("booking-time", ["required"]);
   ("booking-notes", ["maxLength:500"])].

Definition FORM_CONFIGS : list (string * list (string * list string)) :=
  [("contact-form", contact_form); ("booking-form", booking_form)].

(** [VALIDATION_RULES[ruleName]]: an own property of the registry, else a
    member inherited from [Object.prototype], else [undefined]. *)
Inductive Property :=
| Undefined
| OwnRule (ruleConfig : RuleConfig)
| InheritedMember.

Definition get (reg : gmap string RuleConfig) (ruleName : string) : Property :=
  match reg !! ruleName with
  | Some ruleConfig => OwnRule ruleConfig
  | None =>
      if bool_decide (ruleName ∈ Object_prototype_names) then InheritedMember
      else Undefined
  end.

(** *** The rule loop of [validateField] *)

(** How the loop ends: every rule passed or was skipped; a rule failed with
    its [errorMessage]; or the call of [ruleConfig.test] raised a TypeError
    because [ruleConfig] is an inherited member, which has no [test]. *)
Inductive Verdict :=
| Valid
| Invalid (errorMessage : Message)
| TypeError.

(** The loop, with the lines it writes with [console.warn]. *)
Fixpoint run_rules (reg : gmap string RuleConfig) (value : jsstring)
    (rules : list string) : list string * Verdict :=
  match rules with
  | [] => ([], Valid)
  | rule :: rest =>
      let '(ruleName, params) := split_on ":" rule in
      match get reg ruleName with
      | Undefined =>
          let '(warnings, v) := run_rules reg value rest in
          (("Unknown validation rule: " +:+ ruleName) :: warnings, v)
      | InheritedMember => ([], TypeError)
      | OwnRule ruleConfig =>
          match params with
          | param :: _ =>
              if test ruleConfig value (Some param) then run_rules reg value rest
              else ([], Invalid match message ruleConfig with
                                | Template f _ => Text (f param)
                                | Text s => Text s
                                end)
          | [] =>
              if test ruleConfig value None then run_rules reg value rest
              else ([], Invalid (message ruleConfig))
          end
      end
  end.

(** The name and the parameter of a rule specification. *)
Definition rule_name (rule : string) : string := (split_on ":" rule).1.
Definition rule_param (rule : string) : option string := head (split_on ":" rule).2.

(** The predicate of the rule returns false on the value. *)
Definition rule_fails (reg : gmap string RuleConfig) (v : jsstring)
    (rule : string) : bool :=
  match get reg (rule_name rule) with
  | OwnRule ruleConfig => negb (test ruleConfig v (rule_param rule))
  | _ => false
  end.

(** The message of the rule, with its parameter filled in when the rule
    specification carries one. *)
Definition rule_message (reg : gmap string RuleConfig) (rule : string) : Message :=
  match get reg (rule_name rule) with
  | OwnRule ruleConfig =>
      match rule_param rule, message ruleConfig with
      | Some param, Template f _ => Text (f param)
      | _, m => m
      end
  | _ => Text ""
  end.

(** The name of the rule is not in the registry and the lookup is
    [undefined]. *)
Definition unknown (reg : gmap string RuleConfig) (rule : string) : bool :=
  match get reg (rule_name rule) with
  | Undefined => true
  | _ => false
  end.

(** The name of the rule does not hit a member of [Object.prototype]. *)
Definition resolves (reg : gmap string RuleConfig) (rule : string) : Prop :=
  get reg (rule_name rule) <> InheritedMember.

(** *** The document *)

(** An element: its [id] (empty when it has none), its [value] (of a form
    control), its text, its class list, its [aria-invalid] attribute, and
    the positions of its proper ancestors, nearest first.  The elements whose
    text the script assigns are the error elements, which hold text only. *)
Record Node := {
  id : string;
  value : jsstring;
  textContent : string;
  classList : gset string;
  aria_invalid : option string;
  ancestors : list nat
}.

Abbreviation Doc := (list Node).

(** [el.textContent = s] on an element that holds text only *)
Definition set_textContent (s : string) (nd : Node) : Node :=
  {| id := id nd; value := value nd; textContent := s;
     classList := classList nd; aria_invalid := aria_invalid nd;
     ancestors := ancestors nd |}.

Definition set_aria_invalid (s : string) (nd : Node) : Node :=
  {| id := id nd; value := value nd; textContent := textContent nd;
     classList := classList nd; aria_invalid := Some s;
     ancestors := ancestors nd |}.

Definition classList_add (c : string) (nd : Node) : Node :=
  {| id := id nd; value := value nd; textContent := textContent nd;
     classList := {[c]} ∪ classList nd; aria_invalid := aria_invalid nd;
     ancestors := ancestors nd |}.

Definition classList_remove (c : string) (nd : Node) : Node :=
  {| id := id nd; value := value nd; textContent := textContent nd;
     classList := classList nd ∖ {[c]}; aria_invalid := aria_invalid nd;
     ancestors := ancestors nd |}.

(** [document.getElementById(s)]: the first element with that id in document
    order; the empty id matches nothing. *)
Definition getElementById (d : Doc) (s : string) : option nat :=
  if decide (s = "") then None
  else fst <$> list_find (fun nd => id nd = s) d.

Definition field_id (d : Doc) (field : nat) : string :=
  from_option id "" (d !! field).

Definition field_value (d : Doc) (field : nat) : jsstring :=
  from_option value [] (d !! field).

Definition has_class (d : Doc) (c : string) (el : nat) : bool :=
  from_option (fun nd => bool_decide (c ∈ classList nd)) false (d !! el).

(** [el.closest('.' + c)]: the element itself or its nearest ancestor of
    class [c]. *)
Definition closest (d : Doc) (el : nat) (c : string) : option nat :=
  snd <$> list_find (fun a => has_class d c a = true)
            (el :: from_option ancestors [] (d !! el)).

(** The text a message shows as once assigned to [textContent]. *)
Definition to_text (m : Message) : string :=
  match m with
  | Text s => s
  | Template _ source => source
  end.

Definition clearFieldError (d : Doc) (field : nat) : Doc :=
  let errorElement := getElementById d (field_id d field +:+ "-error") in
  let d :=
    match errorElement with
    | Some e => alter (classList_remove "show") e (alter (set_textContent "") e d)
    | None => d
    end in
  let d := alter (set_aria_invalid "false") field d in
  let d := alter (classList_remove "error") field d in
  let formGroup := closest d field "form-group" in
  match formGroup with
  | Some g => alter (classList_remove "has-error") g d
  | None => d
  end.

Definition showFieldError (d : Doc) (field : nat) (msg : Message) : Doc :=
  let errorElement := getElementById d (field_id d field +:+ "-error") in
  let d :=
    match errorElement with
    | Some e => alter (classList_add "show") e (alter (set_textContent (to_text msg)) e d)
    | None => d
    end in
  let d := alter (set_aria_invalid "true") field d in
  let d := alter (classList_add "error") field d in
  let formGroup := closest d field "form-group" in
  match formGroup with
  | Some g => alter (classList_add "has-error") g d
  | None => d
  end.

(** How a call ends: it returns a boolean or propagates the TypeError. *)
Inductive Completion :=
| Return (b : bool)
| Throw.

(** [validateField(field, rules)]: the completion, the console warnings and
    the document it leaves. *)
Definition validateField (reg : gmap string RuleConfig) (d : Doc) (field : nat)
    (rules : list string) : Completion * list string * Doc :=
  let v := field_value d field in
  let d := clearFieldError d field in
  let '(warnings, verdict) := run_rules reg v rules in
  match verdict with
  | Valid => (Return true, warnings, d)
  | Invalid errorMessage => (Return false, warnings, showFieldError d field errorMessage)
  | TypeError => (Throw, warnings, d)
  end.

(** The [forEach] of [validateForm] over the entries of [config], with the
    [isValid] of the moment. *)
Fixpoint validateForm_loop (reg : gmap string RuleConfig) (isValid : bool)
    (d : Doc) (config : list (string * list string))
    : Completion * list string * Doc :=
  match config with
  | [] => (Return isValid, [], d)
  | (fieldId, rules) :: rest =>
      match getElementById d fieldId with
      | Some field =>
          let '(c, warnings, d') := validateField reg d field rules in
          match c with
          | Return fieldValid =>
              let '(c', warnings', d'') :=
                validateForm_loop reg (if fieldValid then isValid else false) d' rest in
              (c', (warnings ++ warnings')%list, d'')
          | Throw => (Throw, warnings, d')
          end
      | None => validateForm_loop reg isValid d rest
      end
  end.

(** [validateForm(form, config)]; the body does not use [form]. *)
Definition validateForm (reg : gmap string RuleConfig) (d : Doc)
    (config : list (string * list string)) : Completion * list string * Doc :=
  validateForm_loop reg true d config.

(** *** What the properties below speak of *)

(** The text of the error element of a field, when the page has one. *)
Definition error_text (d : Doc) (field : nat) : option string :=
  e ← getElementById d (field_id d field +:+ "-error"); textContent <$> d !! e.

(** The field passes its rules. *)
Definition field_passes (reg : gmap string RuleConfig) (d : Doc) (field : nat)
    (rules : list string) : Prop :=
  (run_rules reg (field_value d field) rules).2 = Valid.

(** The error display of a field: its [aria-invalid], whether it has the
    class [error], and the text and the class [show] of its error element. *)
Definition display_state (d : Doc) (field : nat)
    : option (option string) * bool * option string * option bool :=
  (aria_invalid <$> d !! field, has_class d "error" field, error_text d field,
   has_class d "show" <$> getElementById d (field_id d field +:+ "-error")).

(** What a verdict puts on display: the [aria-invalid] of the field, the
    text of the error element, and whether the error classes are set. *)
Definition aria_for (v : Verdict) : string :=
  match v with Invalid _ => "true" | _ => "false" end.

Definition text_for (v : Verdict) : string :=
  match v with Invalid msg => to_text msg | _ => "" end.

Definition is_invalid (v : Verdict) : bool :=
  match v with Invalid _ => true | _ => false end.

(** The error display [validateField] leaves for a verdict. *)
Definition display_for (d : Doc) (field : nat) (v : Verdict)
    : option (option string) * bool * option string * option bool :=
  let e := getElementById d (field_id d field +:+ "-error") in
  (Some (Some (aria_for v)), is_invalid v,
   (fun _ => text_for v) <$> e, (fun _ => is_invalid v) <$> e).

Definition is_valid (v : Verdict) : bool :=
  match v with Valid => true | _ => false end.

(** A configured field passes its rules, or is not in the document. *)
Definition entry_valid (reg : gmap string RuleConfig) (d : Doc)
    (entry : string * list string) : bool :=
  match getElementById d entry.1 with
  | Some field => is_valid (run_rules reg (field_value d field) entry.2).2
  | None => true
  end.

(** What the script never writes of a node: its id, its value, its place in
    the tree and whether it is a [.form-group]. *)
Definition same_frame (nd nd' : Node) : Prop :=
  id nd = id nd' /\ value nd = value nd' /\ ancestors nd = ancestors nd'
  /\ ("form-group" ∈ classList nd <-> "form-group" ∈ classList nd').

(** What [clearFieldError] and [showFieldError] do to the node at position
    [j], given the error element [e] and the form group [g] of the field. *)
Definition clear_node (e g : option nat) (field j : nat) (nd : Node) : Node :=
  let nd := if decide (e = Some j)
            then classList_remove "show" (set_textContent "" nd) else nd in
  let nd := if decide (field = j)
            then classList_remove "error" (set_aria_invalid "false" nd) else nd in
  if decide (g = Some j) then classList_remove "has-error" nd else nd.

Definition show_node (msg : string) (e g : option nat) (field j : nat)
    (nd : Node) : Node :=
  let nd := if decide (e = Some j)
            then classList_add "show" (set_textContent msg nd) else nd in
  let nd := if decide (field = j)
            then classList_add "error" (set_aria_invalid "true" nd) else nd in
  if decide (g = Some j) then classList_add "has-error" nd else nd.

(** What [validateField] does to the node at position [j]. *)
Definition validated_node (v : Verdict) (e g : option nat) (field j : nat)
    (nd : Node) : Node :=
  match v with
  | Invalid msg => show_node (to_text msg) e g field j (clear_node e g field j nd)
  | _ => clear_node e g field j nd
  end.

(** *** A page for the examples: the contact form, with its two required
    fields and their error elements in form groups. *)
Definition example_runtime : Runtime :=
  {| StringToNumber_other := fun _ => NaN; date_from_today := fun _ => true |}.

Definition example_node (i : string) (v : string) (cls : string)
    (anc : list nat) : Node :=
  {| id := i; value := of_string v; textContent := "";
     classList := {[cls]}; aria_invalid := None; ancestors := anc |}.

Definition example_document (name mail : string) : Doc :=
  [example_node "" "" "form-group" [];
   example_node "contact-name" name "form-input" [0];
   example_node "contact-name-error" "" "form-error" [0];
   example_node "" "" "form-group" [];
   example_node "contact-email" mail "form-input" [3];
   example_node "contact-email-error" "" "form-error" [3]]%nat.

(** A code unit an e-mail address is made of: no white space, no [@]. *)
Definition address_char (c : N) : Prop := isWhiteSpace c = false ∧ c ≠ 64%N.

(** A code unit of a phone number: a digit, [-], [(] or [)]. *)
Definition phone_char (c : N) : Prop :=
  isDigit c = true ∨ c = 45%N ∨ c = 40%N ∨ c = 41%N.

(** The string has no [:]. *)
Fixpoint no_colon (s : string) : bool :=
  match s with
  | EmptyString => true
  | String a s' => negb (Ascii.eqb a ":") && no_colon s'
  end.

(** *** The interface [window.FormValidator] *)

(** [obj[key]] on an object literal given by its entries, read for its
    truthiness: an own property (the values are arrays and objects, which
    are truthy), else a member inherited from [Object.prototype], else
    [undefined]. *)
Inductive Member (A : Type) :=
| NoMember
| Own (a : A)
| Inherited.
Arguments NoMember {A}.
Arguments Own {A} a.
Arguments Inherited {A}.

Definition member {A : Type} (obj : list (string * A)) (key : string) : Member A :=
  match list_find (λ entry, entry.1 = key) obj with
  | Some (_, entry) => Own entry.2
  | None =>
      if bool_decide (key ∈ Object_prototype_names) then Inherited else NoMember
  end.

(** The [forEach] of [validateSpecificField]: the configuration of the field
    is that of the last form that has one. *)
Definition field_config (fieldId : string) : Member (list string) :=
  foldl (λ fieldConfig form,
           match member form.2 fieldId with
           | NoMember => fieldConfig
           | found => found
           end) NoMember FORM_CONFIGS.

(** [validateSpecificField(fieldId)]; an inherited member is not iterable,
    and the rule loop of [validateField] raises a TypeError on it once the
    errors of the field are cleared. *)
Definition validateSpecificField (reg : gmap string RuleConfig) (d : Doc)
    (fieldId : string) : Completion * list string * Doc :=
  match getElementById d fieldId with
  | None => (Return false, [], d)
  | Some field =>
      match field_config fieldId with
      | NoMember =>
          (Return true, ["No validation config found for field: " +:+ fieldId], d)
      | Own rules => validateField reg d field rules
      | Inherited => (Throw, [], clearFieldError d field)
      end
  end.

(** [validateSpecificForm(formId)]; an inherited member has no enumerable
    key, and [validateForm] finds nothing to validate in it. *)
Definition validateSpecificForm (reg : gmap string RuleConfig) (d : Doc)
    (formId : string) : Completion * list string * Doc :=
  match getElementById d formId, member FORM_CONFIGS formId with
  | Some _, Own config => validateForm reg d config
  | Some _, Inherited => validateForm reg d []
  | _, _ => (Return false, ["Form or config not found: " +:+ formId], d)
  end.

(** [el.matches(selector)] for a selector of alternatives, each a list of
    classes the element has all of: [.a.b, .c.d]. *)
Definition matches_selector (selector : list (list string)) (nd : Node) : bool :=
  existsb (forallb (λ c, bool_decide (c ∈ classList nd))) selector.

(** [form.querySelectorAll(selector)]: the descendants of [form] that match,
    in document order. *)
Definition querySelectorAll (d : Doc) (form : nat)
    (selector : list (list string)) : list nat :=
  List.filter
    (λ j, from_option
            (λ nd, bool_decide (form ∈ ancestors nd) && matches_selector selector nd)
            false (d !! j))
    (seq 0 (length d)).

(** [resetFormValidation(formId)] *)
Definition resetFormValidation (d : Doc) (formId : string) : Doc :=
  match getElementById d formId with
  | None => d
  | Some form =>
      let errorElements := querySelectorAll d form [["form-error"; "show"]] in
      let d := foldl (λ d el, alter (classList_remove "show") el d) d errorElements in
      let errorFields :=
        querySelectorAll d form
          [["form-input"; "error"]; ["form-select"; "error"];
           ["form-textarea"; "error"]] in
      let d :=
        foldl (λ d field,
                 alter (set_aria_invalid "false") field
                   (alter (classList_remove "error") field d)) d errorFields in
      let errorGroups := querySelectorAll d form [["form-group"; "has-error"]] in
      foldl (λ d group, alter (classList_remove "has-error") group d) d errorGroups
  end.

(** What the three loops of [resetFormValidation] do to a node inside the
    form, and the three in a row. *)
Definition step_show (nd : Node) : Node :=
  if matches_selector [["form-error"; "show"]] nd
  then classList_remove "show" nd else nd.

Definition step_error (nd : Node) : Node :=
  if matches_selector [["form-input"; "error"]; ["form-select"; "error"];
                       ["form-textarea"; "error"]] nd
  then set_aria_invalid "false" (classList_remove "error" nd) else nd.

Definition step_group (nd : Node) : Node :=
  if matches_selector [["form-group"; "has-error"]] nd
  then classList_remove "has-error" nd else nd.

Definition reset_node (nd : Node) : Node := step_group (step_error (step_show nd)).

(** *** What validation writes of a node

    What a run of validation assigns to a node: its text, its
    [aria-invalid], and whether it has the classes [show], [error] and
    [has-error]; [None] where it assigns nothing. *)
Record Marks := {
  text_mark : option string;
  aria_mark : option string;
  show_mark : option bool;
  error_mark : option bool;
  group_mark : option bool
}.

Definition no_marks : Marks :=
  {| text_mark := None; aria_mark := None; show_mark := None;
     error_mark := None; group_mark := None |}.

(** The marks [m1], then [m2] on top of them. *)
Definition then_marks (m1 m2 : Marks) : Marks :=
  {| text_mark := text_mark m2 ∪ text_mark m1;
     aria_mark := aria_mark m2 ∪ aria_mark m1;
     show_mark := show_mark m2 ∪ show_mark m1;
     error_mark := error_mark m2 ∪ error_mark m1;
     group_mark := group_mark m2 ∪ group_mark m1 |}.

Definition set_class (c : string) (b : option bool) (cl : gset string) : gset string :=
  match b with
  | Some true => {[c]} ∪ cl
  | Some false => cl ∖ {[c]}
  | None => cl
  end.

Definition apply_marks (m : Marks) (nd : Node) : Node :=
  {| id := id nd; value := value nd;
     textContent := default (textContent nd) (text_mark m);
     classList := set_class "has-error" (group_mark m)
                    (set_class "error" (error_mark m)
                       (set_class "show" (show_mark m) (classList nd)));
     aria_invalid := match aria_mark m with
                     | Some a => Some a
                     | None => aria_invalid nd
                     end;
     ancestors := ancestors nd |}.

(** The marks [validateField] leaves on the node at position [j] for a
    verdict, given the error element [e] and the form group [g] of the
    field. *)
Definition field_marks (v : Verdict) (e g : option nat) (field j : nat) : Marks :=
  {| text_mark := if decide (e = Some j) then Some (text_for v) else None;
     aria_mark := if decide (field = j) then Some (aria_for v) else None;
     show_mark := if decide (e = Some j) then Some (is_invalid v) else None;
     error_mark := if decide (field = j) then Some (is_invalid v) else None;
     group_mark := if decide (g = Some j) then Some (is_invalid v) else None |}.

(** The marks the loop of [validateForm] leaves on the node at position
    [j], computed on the document the loop starts from. *)
Fixpoint form_marks (reg : gmap string RuleConfig) (d : Doc)
    (config : list (string * list string)) (j : nat) : Marks :=
  match config with
  | [] => no_marks
  | (fieldId, rules) :: rest =>
      match getElementById d fieldId with
      | Some field =>
          let v := (run_rules reg (field_value d field) rules).2 in
          let m := field_marks v (getElementById d (field_id d field +:+ "-error"))
                     (closest d field "form-group") field j in
          match v with
          | TypeError => m
          | _ => then_marks m (form_marks reg d rest j)
          end
      | None => form_marks reg d rest j
      end
  end.

(** *** A page for the examples: the contact form with its name field, in a
    form group with its error element. *)
Definition example_form (name : string) : Doc :=
  [example_node "contact-form" "" "contact" [];
   example_node "" "" "form-group" [0];
   example_node "contact-name" name "form-input" [1; 0];
   example_node "contact-name-error" "" "form-error" [1; 0]]%nat.

(** The error elements of the fields of [config] hold text only: no element
    of the page is inside one of them, so that assigning their [textContent]
    takes no element out of the page. *)
Definition holds_text_only (d : Doc) (config : list (string * list string)) : bool :=
  forallb (λ entry,
             match getElementById d (entry.1 +:+ "-error") with
             | Some e => forallb (λ nd, negb (bool_decide (e ∈ ancestors nd))) d
             | None => true
             end) config.

(** The fields of the forms whose rules are [required], [minLength:lo] and
    [maxLength:hi], with the two parameters. *)
Definition length_windows : list (string * (string * string)) :=
  [("contact-name", ("2", "100")); ("booking-name", ("2", "100"));
   ("contact-message", ("10", "1000"))].

End Validate.

(** ** booking.js *)
Module Booking.

(** [s.includes(sub)] *)
Fixpoint includes (sub s : string) : bool :=
  if String.prefix sub s then true
  else match s with
       | EmptyString => false
       | String _ s' => includes sub s'
       end.

Record Config := {
  provider : string;
  setmoreUrl : string;
  internalRoute : string;
  scriptTimeout : Z;
  retryAttempts : Z
}.

Definition BOOKING_CONFIG : Config := {|
  provider := "setmore";
  setmoreUrl := "https://daixmarededa.setmore.com/book";
  internalRoute := "/pages/booking.html";
  scriptTimeout := 10000;
  retryAttempts := 3
|}.

(** The argument of [updateConfig]: the properties it carries. *)
Record ConfigUpdate := {
  new_provider : option string;
  new_setmoreUrl : option string;
  new_internalRoute : option string;
  new_scriptTimeout : option Z;
  new_retryAttempts : option Z
}.

(** [Object.assign(BOOKING_CONFIG, newConfig)] *)
Definition assign (c : Config) (u : ConfigUpdate) : Config := {|
  provider := default (provider c) (new_provider u);
  setmoreUrl := default (setmoreUrl c) (new_setmoreUrl u);
  internalRoute := default (internalRoute c) (new_internalRoute u);
  scriptTimeout := default (scriptTimeout c) (new_scriptTimeout u);
  retryAttempts := default (retryAttempts c) (new_retryAttempts u)
|}.

(** How a promise of [loadSetmoreScript] is settled. *)
Inductive Outcome :=
| Resolved
| Rejected (error : string).

(** What is registered on the promise of an attempt: the [then]/[catch] of
    [loadSetmoreWidget], or the [then(resolve).catch(reject)] of the retry in
    attempt [outer], whose own promise carries [k]. *)
Inductive Reactions :=
| OnWidget
| OnOuter (outer : nat) (k : Reactions).

(** One call of [loadSetmoreScript]: its promise, what is registered on it,
    whether its timeout and its retry timer are pending, and whether its
    script element has fired [load] or [error] (an element fires one of them,
    once). *)
Record Attempt := {
  result : option Outcome;
  reactions : Reactions;
  timeoutId : bool;
  retryTimer : bool;
  fired : bool
}.

Definition set_result (o : Outcome) (a : Attempt) : Attempt :=
  {| result := Some o; reactions := reactions a; timeoutId := timeoutId a;
     retryTimer := retryTimer a; fired := fired a |}.

Definition set_timeoutId (b : bool) (a : Attempt) : Attempt :=
  {| result := result a; reactions := reactions a; timeoutId := b;
     retryTimer := retryTimer a; fired := fired a |}.

Definition set_retryTimer (b : bool) (a : Attempt) : Attempt :=
  {| result := result a; reactions := reactions a; timeoutId := timeoutId a;
     retryTimer := b; fired := fired a |}.

Definition set_fired (a : Attempt) : Attempt :=
  {| result := result a; reactions := reactions a; timeoutId := timeoutId a;
     retryTimer := retryTimer a; fired := true |}.

(** An element of the page, with what the script reads and writes of it:
    [style.display], [href], the [src] of an iframe appended to it, [min],
    the class [loading], [disabled], whether the script listens on it, and
    the keys of the elements inside it. *)
Record Element := {
  display : string;
  href : string;
  iframe : option string;
  min : string;
  loading : bool;
  disabled : bool;
  listening : bool;
  inside : list string
}.

Definition set_display (s : string) (e : Element) : Element :=
  {| display := s; href := href e; iframe := iframe e; min := min e;
     loading := loading e; disabled := disabled e; listening := listening e;
     inside := inside e |}.

Definition set_href (s : string) (e : Element) : Element :=
  {| display := display e; href := s; iframe := iframe e; min := min e;
     loading := loading e; disabled := disabled e; listening := listening e;
     inside := inside e |}.

(** [el.innerHTML = ''; el.appendChild(iframe)] on the element itself *)
Definition set_iframe (src : string) (e : Element) : Element :=
  {| display := display e; href := href e; iframe := Some src; min := min e;
     loading := loading e; disabled := disabled e; listening := listening e;
     inside := [] |}.

Definition set_min (s : string) (e : Element) : Element :=
  {| display := display e; href := href e; iframe := iframe e; min := s;
     loading := loading e; disabled := disabled e; listening := listening e;
     inside := inside e |}.

Definition set_loading (b : bool) (e : Element) : Element :=
  {| display := display e; href := href e; iframe := iframe e; min := min e;
     loading := b; disabled := b; listening := listening e;
     inside := inside e |}.

Definition set_listening (e : Element) : Element :=
  {| display := display e; href := href e; iframe := iframe e; min := min e;
     loading := loading e; disabled := disabled e; listening := true;
     inside := inside e |}.

(** What the script does to the window beyond the elements. *)
Inductive Effect :=
| ConsoleError (msg : string)
| ConsoleLog (msg : string)
| WindowOpen (url : string)
| Navigate (route : string)
| ScrollIntoView
| Toast (msg : string)
| FormReset.

(** The module state and the page.  [document] maps an id (or the selector
    [.booking-loading]) to the element it designates; [setmore_script] is the
    attempt whose script element is in the head under the id
    [setmore_script]. *)
Record State := {
  config : Config;
  isScriptLoaded : bool;
  scriptLoadAttempts : Z;
  attempts : list Attempt;
  pathname : string;
  today : string;
  MainApp : bool;
  document : gmap string Element;
  setmore_script : option nat;
  submissions : nat;
  effects : list Effect
}.

Definition set_config (c : Config) (st : State) : State :=
  {| config := c; isScriptLoaded := isScriptLoaded st;
     scriptLoadAttempts := scriptLoadAttempts st; attempts := attempts st;
     pathname := pathname st; today := today st; MainApp := MainApp st;
     document := document st; setmore_script := setmore_script st;
     submissions := submissions st; effects := effects st |}.

Definition set_isScriptLoaded (b : bool) (st : State) : State :=
  {| config := config st; isScriptLoaded := b;
     scriptLoadAttempts := scriptLoadAttempts st; attempts := attempts st;
     pathname := pathname st; today := today st; MainApp := MainApp st;
     document := document st; setmore_script := setmore_script st;
     submissions := submissions st; effects := effects st |}.

Definition set_scriptLoadAttempts (n : Z) (st : State) : State :=
  {| config := config st; isScriptLoaded := isScriptLoaded st;
     scriptLoadAttempts := n; attempts := attempts st;
     pathname := pathname st; today := today st; MainApp := MainApp st;
     document := document st; setmore_script := setmore_script st;
     submissions := submissions st; effects := effects st |}.

Definition set_attempts (l : list Attempt) (st : State) : State :=
  {| config := config st; isScriptLoaded := isScriptLoaded st;
     scriptLoadAttempts := scriptLoadAttempts st; attempts := l;
     pathname := pathname st; today := today st; MainApp := MainApp st;
     document := document st; setmore_script := setmore_script st;
     submissions := submissions st; effects := effects st |}.

Definition set_document (d : gmap string Element) (st : State) : State :=
  {| config := config st; isScriptLoaded := isScriptLoaded st;
     scriptLoadAttempts := scriptLoadAttempts st; attempts := attempts st;
     pathname := pathname st; today := today st; MainApp := MainApp st;
     document := d; setmore_script := setmore_script st;
     submissions := submissions st; effects := effects st |}.

Definition set_setmore_script (x : option nat) (st : State) : State :=
  {| config := config st; isScriptLoaded := isScriptLoaded st;
     scriptLoadAttempts := scriptLoadAttempts st; attempts := attempts st;
     pathname := pathname st; today := today st; MainApp := MainApp st;
     document := document st; setmore_script := x;
     submissions := submissions st; effects := effects st |}.

Definition set_submissions (n : nat) (st : State) : State :=
  {| config := config st; isScriptLoaded := isScriptLoaded st;
     scriptLoadAttempts := scriptLoadAttempts st; attempts := attempts st;
     pathname := pathname st; today := today st; MainApp := MainApp st;
     document := document st; setmore_script := setmore_script st;
     submissions := n; effects := effects st |}.

Definition set_today (s : string) (st : State) : State :=
  {| config := config st; isScriptLoaded := isScriptLoaded st;
     scriptLoadAttempts := scriptLoadAttempts st; attempts := attempts st;
     pathname := pathname st; today := s; MainApp := MainApp st;
     document := document st; setmore_script := setmore_script st;
     submissions := submissions st; effects := effects st |}.

Definition emit (e : Effect) (st : State) : State :=
  {| config := config st; isScriptLoaded := isScriptLoaded st;
     scriptLoadAttempts := scriptLoadAttempts st; attempts := attempts st;
     pathname := pathname st; today := today st; MainApp := MainApp st;
     document := document st; setmore_script := setmore_script st;
     submissions := submissions st; effects := (effects st ++ [e])%list |}.

(** [const el = ...; if (el) { el... = ... }] *)
Definition with_element (key : string) (f : Element -> Element) (st : State) : State :=
  set_document (alter f key (document st)) st.

Definition with_attempt (a : nat) (f : Attempt -> Attempt) (st : State) : State :=
  set_attempts (alter f a (attempts st)) st.

(** The state in which the script starts on a page. *)
Definition initial (path date : string) (mainApp : bool)
    (page : gmap string Element) : State :=
  {| config := BOOKING_CONFIG; isScriptLoaded := false;
     scriptLoadAttempts := 0; attempts := [];
     pathname := path; today := date; MainApp := mainApp;
     document := page; setmore_script := None;
     submissions := 0; effects := [] |}.

Definition isBookingPage (st : State) : bool := includes "booking" (pathname st).

Definition setupFloatingButtonHandler (st : State) : State :=
  with_element "floating-book-btn" set_listening st.

Definition showLoadingState (st : State) : State :=
  with_element ".booking-loading" (set_display "flex") st.

Definition hideLoadingState (st : State) : State :=
  with_element ".booking-loading" (set_display "none") st.

Definition setupSetmoreFallbackLink (st : State) : State :=
  with_element "setmore-fallback-link" (set_href (setmoreUrl (config st))) st.

Definition showSetmoreFallback (st : State) : State :=
  let st := with_element "setmore-booking-container" (set_display "none") st in
  match document st !! "booking-fallback" with
  | Some _ =>
      setupSetmoreFallbackLink
        (with_element "booking-fallback" (set_display "block") st)
  | None => st
  end.

(** [embedSetmoreWidget]: the iframe replaces what the container held; no
    statement of the [try] block raises, so the [catch] is not reached. *)
Definition embedSetmoreWidget (st : State) : State :=
  match document st !! "setmore-booking-container" with
  | None => st
  | Some c =>
      let d := foldr delete (document st) (inside c) in
      let d := alter (set_iframe (setmoreUrl (config st))) "setmore-booking-container" d in
      setupSetmoreFallbackLink (set_document d st)
  end.

(** The handlers [loadSetmoreWidget] registers on the promise. *)
Definition widget_reaction (o : Outcome) (st : State) : State :=
  match o with
  | Resolved => embedSetmoreWidget (hideLoadingState st)
  | Rejected error =>
      showSetmoreFallback
        (hideLoadingState
           (emit (ConsoleError ("Failed to load Setmore script: " +:+ error)) st))
  end.

Definition pending (st : State) (a : nat) : bool :=
  match attempts st !! a with
  | Some att => match result att with None => true | Some _ => false end
  | None => false
  end.

(** [resolve()] or [reject(error)] of attempt [a], on whose promise [k] is
    registered: a settled promise stays as it is; otherwise it is settled
    and its reactions run, which settle the outer promise in turn. *)
Fixpoint settle (a : nat) (k : Reactions) (o : Outcome) (st : State) : State :=
  if pending st a then
    let st := with_attempt a (set_result o) st in
    match k with
    | OnWidget => widget_reaction o st
    | OnOuter outer k' => settle outer k' o st
    end
  else st.

(** [script.remove()] for the script of attempt [a] *)
Definition script_remove (a : nat) (st : State) : State :=
  set_setmore_script
    (if decide (setmore_script st = Some a) then None else setmore_script st) st.

(** [loadSetmoreScript()], with what its caller registers on the returned
    promise: the script in the head under the id is removed, and a new
    attempt starts with its timeout pending and its script appended. *)
Definition loadSetmoreScript (k : Reactions) (st : State) : State :=
  let st := set_setmore_script None st in
  let a := length (attempts st) in
  let st :=
    set_attempts (attempts st ++ [{| result := None; reactions := k;
                                     timeoutId := true; retryTimer := false;
                                     fired := false |}])%list st in
  set_setmore_script (Some a) st.

(** The callback of [setTimeout(..., BOOKING_CONFIG.scriptTimeout)] *)
Definition on_timeout (a : nat) (st : State) : State :=
  match attempts st !! a with
  | Some att =>
      if timeoutId att then
        let st := with_attempt a (set_timeoutId false) st in
        let st := script_remove a st in
        settle a (reactions att) (Rejected "Script loading timeout") st
      else st
  | None => st
  end.

(** [script.onload] *)
Definition onload (a : nat) (st : State) : State :=
  match attempts st !! a with
  | Some att =>
      if fired att then st
      else
        let st := with_attempt a set_fired st in
        let st := with_attempt a (set_timeoutId false) st in
        let st := set_isScriptLoaded true st in
        settle a (reactions att) Resolved st
  | None => st
  end.

(** [script.onerror] *)
Definition onerror (a : nat) (st : State) : State :=
  match attempts st !! a with
  | Some att =>
      if fired att then st
      else
        let st := with_attempt a set_fired st in
        let st := with_attempt a (set_timeoutId false) st in
        let st := script_remove a st in
        let st := set_scriptLoadAttempts (scriptLoadAttempts st + 1) st in
        if (scriptLoadAttempts st <? retryAttempts (config st))%Z then
          with_attempt a (set_retryTimer true) st
        else
          settle a (reactions att)
            (Rejected "Failed to load Setmore script after multiple attempts") st
  | None => st
  end.

(** The callback of [setTimeout(..., 2000)] in [script.onerror]:
    [loadSetmoreScript().then(resolve).catch(reject)] *)
Definition on_retry (a : nat) (st : State) : State :=
  match attempts st !! a with
  | Some att =>
      if retryTimer att then
        let st := with_attempt a (set_retryTimer false) st in
        loadSetmoreScript (OnOuter a (reactions att)) st
      else st
  | None => st
  end.

Definition loadSetmoreWidget (st : State) : State :=
  match document st !! "setmore-booking-container" with
  | None => st
  | Some _ => loadSetmoreScript OnWidget (showLoadingState st)
  end.

Definition setupInternalBookingForm (st : State) : State :=
  match document st !! "booking-form" with
  | None => st
  | Some _ =>
      let st := with_element "booking-form" set_listening st in
      with_element "booking-date" (set_min (today st)) st
  end.

Definition showInternalBookingForm (st : State) : State :=
  let st := with_element "setmore-booking-container" (set_display "none") st in
  match document st !! "internal-booking-container" with
  | Some _ =>
      setupInternalBookingForm
        (with_element "internal-booking-container" (set_display "block") st)
  | None => st
  end.

Definition initializeBookingWidget (st : State) : State :=
  if String.eqb (provider (config st)) "setmore" then loadSetmoreWidget st
  else showInternalBookingForm st.

Definition init (st : State) : State :=
  let st := setupFloatingButtonHandler st in
  if isBookingPage st then initializeBookingWidget st else st.

Definition openInternalBooking (st : State) : State :=
  emit (Navigate (internalRoute (config st))) st.

Definition openSetmoreBooking (st : State) : State :=
  let otherwise :=
    if negb (String.eqb (setmoreUrl (config st)) "")
       && negb (String.eqb (setmoreUrl (config st))
                  "https://booking.setmore.com/scheduleappointment/services")
    then emit (WindowOpen (setmoreUrl (config st))) st
    else emit (Navigate (internalRoute (config st))) st in
  if isBookingPage st && isScriptLoaded st then
    match document st !! "setmore-booking-container" with
    | Some bookingWidget =>
        if negb (String.eqb (display bookingWidget) "none")
        then emit ScrollIntoView st
        else otherwise
    | None => otherwise
    end
  else otherwise.

(** [handleBookingClick(e)]; called with no event, [e.preventDefault()]
    raises and nothing else runs. *)
Definition handleBookingClick (with_event : bool) (st : State) : State :=
  if with_event then
    if String.eqb (provider (config st)) "setmore" then openSetmoreBooking st
    else openInternalBooking st
  else st.

Definition handleInternalBookingSubmit (st : State) : State :=
  let st := with_element "booking-submit" (set_loading true) st in
  set_submissions (S (submissions st)) st.

(** The callback of [setTimeout(..., 2000)] in [handleInternalBookingSubmit] *)
Definition on_submitted (st : State) : State :=
  match submissions st with
  | O => st
  | S n =>
      let st := set_submissions n st in
      let st := with_element "booking-submit" (set_loading false) st in
      let st :=
        if MainApp st then
          emit (Toast "Booking request submitted! We'll contact you soon to confirm your appointment.") st
        else st in
      emit FormReset (emit (ConsoleLog "Booking submitted:") st)
  end.

Definition updateConfig (newConfig : ConfigUpdate) (st : State) : State :=
  let st := set_config (assign (config st) newConfig) st in
  if isBookingPage st then initializeBookingWidget st else st.

(** The listener of the window for [error] events *)
Definition on_window_error (filename : string) (st : State) : State :=
  if negb (String.eqb filename "") && includes "setmore" filename then
    showSetmoreFallback (emit (ConsoleError "Setmore script error:") st)
  else st.

(** What can happen in a page session: the browser runs a callback of the
    script, or another script calls [window.BookingManager]. *)
Inductive Event :=
| DOMContentLoaded
| FloatingButtonClick
| ScriptLoad (a : nat)
| ScriptError (a : nat)
| ScriptTimeout (a : nat)
| RetryTimer (a : nat)
| WindowError (filename : string)
| BookingFormSubmit
| SubmitTimer
| ClockDate (date : string)
| OpenBooking (with_event : bool)
| UpdateConfig (newConfig : ConfigUpdate)
| OpenSetmoreBooking
| OpenInternalBooking.

Definition listens (key : string) (st : State) : bool :=
  match document st !! key with
  | Some e => listening e
  | None => false
  end.

Definition step (ev : Event) (st : State) : State :=
  match ev with
  | DOMContentLoaded => init st
  | FloatingButtonClick =>
      if listens "floating-book-btn" st then handleBookingClick true st else st
  | ScriptLoad a => onload a st
  | ScriptError a => onerror a st
  | ScriptTimeout a => on_timeout a st
  | RetryTimer a => on_retry a st
  | WindowError filename => on_window_error filename st
  | BookingFormSubmit =>
      if listens "booking-form" st then handleInternalBookingSubmit st else st
  | SubmitTimer => on_submitted st
  | ClockDate date => set_today date st
  | OpenBooking with_event => handleBookingClick with_event st
  | UpdateConfig newConfig => updateConfig newConfig st
  | OpenSetmoreBooking => openSetmoreBooking st
  | OpenInternalBooking => openInternalBooking st
  end.

Definition run (evs : list Event) (st : State) : State :=
  foldl (fun st ev => step ev st) st evs.

(** The events of [m] attempts in a row, numbered from [a], that each end in
    a load error followed by its retry. *)
Fixpoint failed_and_retried (a m : nat) : list Event :=
  match m with
  | O => []
  | S m' => ScriptError a :: RetryTimer a :: failed_and_retried (S a) m'
  end.

(** The events of a session in which every attempt ends in a load error, up
    to the [n]-th failure: each failure but the last is followed by its
    retry. *)
Definition load_failures (n : nat) : list Event :=
  match n with
  | O => []
  | S m => (failed_and_retried 0 m ++ [ScriptError m])%list
  end.

(** What is registered on the promise of attempt [a] when every earlier
    attempt was retried. *)
Fixpoint chain (a : nat) : Reactions :=
  match a with
  | O => OnWidget
  | S a' => OnOuter a' (chain a')
  end.

(** The promise [loadSetmoreWidget] waits on: that of the first attempt. *)
Definition loader_promise (st : State) : option Outcome :=
  attempts st !! 0%nat ≫= result.

(** *** What the properties below speak of *)

(** How [settle] changes an attempt: not at all, or its pending promise is
    settled. *)
Definition settled_as (o : Outcome) (x y : Attempt) : Prop :=
  y = x \/ (result x = None /\ y = set_result o x).

(** The state between the start of attempt [k] and its end, when the [k]
    attempts before it failed and were retried: the counter is [k], every
    promise is pending and chained to the one before, no retry is armed. *)
Definition in_flight (st0 : State) (k : nat) (st : State) : Prop :=
  config st = config st0 /\ document st = document st0 /\ effects st = effects st0
  /\ scriptLoadAttempts st = Z.of_nat k
  /\ length (attempts st) = S k
  /\ (forall i att, attempts st !! i = Some att ->
       result att = None /\ reactions att = chain i /\ retryTimer att = false)
  /\ (exists att, attempts st !! k = Some att /\ fired att = false /\ timeoutId att = true).

(** A timeout of attempt [a] takes the path of a load error: it counts
    toward the retry budget and, with budget left, arms the retry and leaves
    the promise pending. *)
Definition timeout_takes_failed_path (st : State) (a : nat) : Prop :=
  let st' := step (ScriptTimeout a) st in
  scriptLoadAttempts st' = (scriptLoadAttempts st + 1)%Z
  /\ ((scriptLoadAttempts st + 1 < retryAttempts (config st))%Z ->
      pending st' a = true /\ retryTimer <$> attempts st' !! a = Some true).

(** *** A page for the examples: the booking page with the container, the
    loading indicator inside it, the fallback and its link. *)
Definition example_element (shown : string) (within : list string) : Element :=
  {| display := shown; href := "#"; iframe := None; min := "";
     loading := false; disabled := false; listening := false; inside := within |}.

Definition example_page : gmap string Element :=
  list_to_map
    [("setmore-booking-container", example_element "" [".booking-loading"]);
     (".booking-loading", example_element "none" []);
     ("booking-fallback", example_element "none" []);
     ("setmore-fallback-link", example_element "" []);
     ("floating-book-btn", example_element "" [])].

Definition example_state : State :=
  initial "/pages/booking.html" "2026-01-01" true example_page.

(** The outcome of the promise of attempt [a], once it is settled. *)
Definition outcome (st : State) (a : nat) : option Outcome :=
  attempts st !! a ≫= result.

(** The number of retry timers that are armed. *)
Definition armed (l : list Attempt) : nat :=
  sum_list ((λ a, if retryTimer a then 1 else 0)%nat <$> l).

(** The events that call [initializeBookingWidget]. *)
Definition starts_loader (ev : Event) : bool :=
  match ev with
  | DOMContentLoaded | UpdateConfig _ => true
  | _ => false
  end.

(** The second list has the outcomes of the first. *)
Definition final (l l' : list Attempt) : Prop :=
  ∀ a o, l !! a ≫= result = Some o → l' !! a ≫= result = Some o.

(** The attempts and the armed retries are within what the load errors
    counted so far allow, and within the budget. *)
Definition within_budget (c : Config) (st : State) : Prop :=
  config st = c
  ∧ (Z.of_nat (length (attempts st) + armed (attempts st))
     ≤ scriptLoadAttempts st + 1)%Z
  ∧ (Z.of_nat (length (attempts st) + armed (attempts st))
     ≤ Z.max 1 (retryAttempts c))%Z.

(** The element under [key], when the second document still has it, is
    displayed there as in the first document or as [shown]. *)
Definition displayed_or (key shown : string) (d d' : gmap string Element) : Prop :=
  ∀ e', d' !! key = Some e' →
        ∃ e, d !! key = Some e ∧ (display e' = display e ∨ display e' = shown).

(** What the script does with the display of the container and of the
    fallback: it hides the one and shows the other, never the reverse. *)
Definition falls_back (d d' : gmap string Element) : Prop :=
  displayed_or "setmore-booking-container" "none" d d'
  ∧ displayed_or "booking-fallback" "block" d d'.

End Booking.

(** ** lightbox.js *)
Module Lightbox.

(** [`${n}`] for an integer *)
Definition number_string (n : Z) : string :=
  NilZero.string_of_int (Z.to_int n).

(** What can hold the focus. *)
Inductive Target :=
| Body
| GalleryItem (i : nat)
| Close
| Prev
| Next
| Elsewhere (name : string).

Global Instance Target_eq_dec : EqDecision Target.
Proof. solve_decision. Defined.

(** A [.gallery-item]: its [img] and its [.gallery-overlay], with the text
    of the [.gallery-title] and [.gallery-description] inside. *)
Record Img := {
  data_full : option string;
  img_src : string;
  img_alt : string
}.

Record Overlay := {
  gallery_title : option string;
  gallery_description : option string
}.

Record Item := {
  img : option Img;
  overlay : option Overlay
}.

(** An element of the page, with what the script writes of it. *)
Record Element := {
  textContent : string;
  display : string;
  src : string;
  alt : string;
  opacity : string;
  aria_hidden : string;
  overflow : string
}.

Definition set_textContent (s : string) (e : Element) : Element :=
  {| textContent := s; display := display e; src := src e; alt := alt e;
     opacity := opacity e; aria_hidden := aria_hidden e; overflow := overflow e |}.

Definition set_display (s : string) (e : Element) : Element :=
  {| textContent := textContent e; display := s; src := src e; alt := alt e;
     opacity := opacity e; aria_hidden := aria_hidden e; overflow := overflow e |}.

Definition set_src (s : string) (e : Element) : Element :=
  {| textContent := textContent e; display := display e; src := s; alt := alt e;
     opacity := opacity e; aria_hidden := aria_hidden e; overflow := overflow e |}.

Definition set_alt (s : string) (e : Element) : Element :=
  {| textContent := textContent e; display := display e; src := src e; alt := s;
     opacity := opacity e; aria_hidden := aria_hidden e; overflow := overflow e |}.

Definition set_opacity (s : string) (e : Element) : Element :=
  {| textContent := textContent e; display := display e; src := src e; alt := alt e;
     opacity := s; aria_hidden := aria_hidden e; overflow := overflow e |}.

Definition set_aria_hidden (s : string) (e : Element) : Element :=
  {| textContent := textContent e; display := display e; src := src e; alt := alt e;
     opacity := opacity e; aria_hidden := s; overflow := overflow e |}.

Definition set_overflow (s : string) (e : Element) : Element :=
  {| textContent := textContent e; display := display e; src := src e; alt := alt e;
     opacity := opacity e; aria_hidden := aria_hidden e; overflow := s |}.

(** A preload started by [loadCurrentImage]: what the [onload] and [onerror]
    of its [new Image()] captured, and whether one of them has run. *)
Record Preload := {
  fullSrc : string;
  captured_alt : string;
  captured_overlay : option Overlay;
  finished : bool
}.

Definition set_finished (p : Preload) : Preload :=
  {| fullSrc := fullSrc p; captured_alt := captured_alt p;
     captured_overlay := captured_overlay p; finished := true |}.

(** The module state and the page.  [document] maps the ids the script
    looks up, [.lightbox-overlay] and [body] to their elements; [focusables] is what
    [lightbox.querySelectorAll] finds for the focus trap; [gallery_grid] is
    the [.gallery-grid] of the page with its items; [activeElement] is
    [document.activeElement] (the body when nothing else has the focus),
    and [focus()] moves it to its element when that is displayed. *)
Record State := {
  currentIndex : Z;
  galleryItems : list Item;
  isOpen : bool;
  focusedElementBeforeModal : option Target;
  activeElement : Target;
  preloads : list Preload;
  openTimers : nat;
  announcements : list string;
  toasts : list string;
  MainApp : bool;
  gallery_grid : option (list Item);
  focusables : list Target;
  document : gmap string Element
}.

Definition set_currentIndex (i : Z) (st : State) : State :=
  {| currentIndex := i; galleryItems := galleryItems st; isOpen := isOpen st;
     focusedElementBeforeModal := focusedElementBeforeModal st;
     activeElement := activeElement st; preloads := preloads st;
     openTimers := openTimers st; announcements := announcements st;
     toasts := toasts st; MainApp := MainApp st;
     gallery_grid := gallery_grid st; focusables := focusables st;
     document := document st |}.

Definition set_galleryItems (l : list Item) (st : State) : State :=
  {| currentIndex := currentIndex st; galleryItems := l; isOpen := isOpen st;
     focusedElementBeforeModal := focusedElementBeforeModal st;
     activeElement := activeElement st; preloads := preloads st;
     openTimers := openTimers st; announcements := announcements st;
     toasts := toasts st; MainApp := MainApp st;
     gallery_grid := gallery_grid st; focusables := focusables st;
     document := document st |}.

Definition set_isOpen (b : bool) (st : State) : State :=
  {| currentIndex := currentIndex st; galleryItems := galleryItems st; isOpen := b;
     focusedElementBeforeModal := focusedElementBeforeModal st;
     activeElement := activeElement st; preloads := preloads st;
     openTimers := openTimers st; announcements := announcements st;
     toasts := toasts st; MainApp := MainApp st;
     gallery_grid := gallery_grid st; focusables := focusables st;
     document := document st |}.

Definition set_focusedElementBeforeModal (t : option Target) (st : State) : State :=
  {| currentIndex := currentIndex st; galleryItems := galleryItems st;
     isOpen := isOpen st; focusedElementBeforeModal := t;
     activeElement := activeElement st; preloads := preloads st;
     openTimers := openTimers st; announcements := announcements st;
     toasts := toasts st; MainApp := MainApp st;
     gallery_grid := gallery_grid st; focusables := focusables st;
     document := document st |}.

Definition set_activeElement (t : Target) (st : State) : State :=
  {| currentIndex := currentIndex st; galleryItems := galleryItems st;
     isOpen := isOpen st;
     focusedElementBeforeModal := focusedElementBeforeModal st;
     activeElement := t; preloads := preloads st;
     openTimers := openTimers st; announcements := announcements st;
     toasts := toasts st; MainApp := MainApp st;
     gallery_grid := gallery_grid st; focusables := focusables st;
     document := document st |}.

Definition set_preloads (l : list Preload) (st : State) : State :=
  {| currentIndex := currentIndex st; galleryItems := galleryItems st;
     isOpen := isOpen st;
     focusedElementBeforeModal := focusedElementBeforeModal st;
     activeElement := activeElement st; preloads := l;
     openTimers := openTimers st; announcements := announcements st;
     toasts := toasts st; MainApp := MainApp st;
     gallery_grid := gallery_grid st; focusables := focusables st;
     document := document st |}.

Definition set_openTimers (n : nat) (st : State) : State :=
  {| currentIndex := currentIndex st; galleryItems := galleryItems st;
     isOpen := isOpen st;
     focusedElementBeforeModal := focusedElementBeforeModal st;
     activeElement := activeElement st; preloads := preloads st;
     openTimers := n; announcements := announcements st;
     toasts := toasts st; MainApp := MainApp st;
     gallery_grid := gallery_grid st; focusables := focusables st;
     document := document st |}.

Definition set_announcements (l : list string) (st : State) : State :=
  {| currentIndex := currentIndex st; galleryItems := galleryItems st;
     isOpen := isOpen st;
     focusedElementBeforeModal := focusedElementBeforeModal st;
     activeElement := activeElement st; preloads := preloads st;
     openTimers := openTimers st; announcements := l;
     toasts := toasts st; MainApp := MainApp st;
     gallery_grid := gallery_grid st; focusables := focusables st;
     document := document st |}.

Definition set_toasts (l : list string) (st : State) : State :=
  {| currentIndex := currentIndex st; galleryItems := galleryItems st;
     isOpen := isOpen st;
     focusedElementBeforeModal := focusedElementBeforeModal st;
     activeElement := activeElement st; preloads := preloads st;
     openTimers := openTimers st; announcements := announcements st;
     toasts := l; MainApp := MainApp st;
     gallery_grid := gallery_grid st; focusables := focusables st;
     document := document st |}.

Definition set_gallery_grid (g : option (list Item)) (st : State) : State :=
  {| currentIndex := currentIndex st; galleryItems := galleryItems st;
     isOpen := isOpen st;
     focusedElementBeforeModal := focusedElementBeforeModal st;
     activeElement := activeElement st; preloads := preloads st;
     openTimers := openTimers st; announcements := announcements st;
     toasts := toasts st; MainApp := MainApp st;
     gallery_grid := g; focusables := focusables st;
     document := document st |}.

Definition set_document (d : gmap string Element) (st : State) : State :=
  {| currentIndex := currentIndex st; galleryItems := galleryItems st;
     isOpen := isOpen st;
     focusedElementBeforeModal := focusedElementBeforeModal st;
     activeElement := activeElement st; preloads := preloads st;
     openTimers := openTimers st; announcements := announcements st;
     toasts := toasts st; MainApp := MainApp st;
     gallery_grid := gallery_grid st; focusables := focusables st;
     document := d |}.

(** The element a variable of [setupLightbox] refers to: the variables stay
    [null] when the page has no [lightbox]. *)
Definition element (key : string) (st : State) : option Element :=
  match document st !! "lightbox" with
  | Some _ => document st !! key
  | None => None
  end.

(** [if (el) { el... = ... }] for such a variable *)
Definition with_element (key : string) (f : Element -> Element) (st : State) : State :=
  match element key st with
  | Some _ => set_document (alter f key (document st)) st
  | None => st
  end.

Definition has (key : string) (st : State) : bool :=
  match element key st with Some _ => true | None => false end.

(** What is inside the lightbox: its controls and what
    [lightbox.querySelectorAll] finds in it. *)
Definition in_lightbox (t : Target) (st : State) : bool :=
  match t with
  | Close | Prev | Next => true
  | _ => bool_decide (t ∈ focusables st)
  end.

(** The [display] of the element is not [none]. *)
Definition displayed (key : string) (st : State) : bool :=
  match element key st with
  | Some e => negb (String.eqb (display e) "none")
  | None => false
  end.

(** The element is displayed, and so can take the focus.  The lightbox is
    displayed while its [display] is [flex], which [openLightbox] sets: the
    style sheet hides it until then and [closeLightbox] hides it again; what
    is inside it is displayed with it, a button unless its own [display] is
    [none].  The rest of the page is taken as displayed. *)
Definition rendered (t : Target) (st : State) : bool :=
  if in_lightbox t st then
    match element "lightbox" st with
    | Some lb => String.eqb (display lb) "flex"
    | None => false
    end
    && match t with
       | Close => has "lightbox-close" st
       | Prev => displayed "lightbox-prev" st
       | Next => displayed "lightbox-next" st
       | _ => true
       end
  else true.

(** [t.focus()]: nothing happens on an element that is not displayed. *)
Definition focus (t : Target) (st : State) : State :=
  if rendered t st then set_activeElement t st else st.

(** Once the script has hidden an element, the page is rendered without it,
    and when it held the focus the focus goes to the body. *)
Definition blur_hidden (st : State) : State :=
  if rendered (activeElement st) st then st else set_activeElement Body st.

(** [galleryItems[currentIndex]] *)
Definition item_at (st : State) (i : Z) : option Item :=
  if (i <? 0)%Z then None else galleryItems st !! Z.to_nat i.

Definition length_of (st : State) : Z := Z.of_nat (length (galleryItems st)).

(** The state in which the script is once [init] has run on a page. *)
Definition initial (page : gmap string Element) (grid : option (list Item))
    (focusable : list Target) (mainApp : bool) (focused : Target) : State :=
  {| currentIndex := 0; galleryItems := default [] grid; isOpen := false;
     focusedElementBeforeModal := None; activeElement := focused;
     preloads := []; openTimers := 0; announcements := []; toasts := [];
     MainApp := mainApp; gallery_grid := grid; focusables := focusable;
     document := page |}.

Definition announceToScreenReader (msg : string) (st : State) : State :=
  set_announcements (announcements st ++ [msg])%list st.

Definition showLoadingState (st : State) : State :=
  with_element "lightbox-image" (set_opacity "0.5") st.

Definition hideLoadingState (st : State) : State :=
  with_element "lightbox-image" (set_opacity "1") st.

Definition showToast (msg : string) (st : State) : State :=
  if MainApp st then set_toasts (toasts st ++ [msg])%list st else st.

Definition handleImageError (st : State) : State :=
  let st := with_element "lightbox-image" (set_alt "Failed to load image") st in
  let st := with_element "lightbox-title" (set_textContent "Image unavailable") st in
  let st := with_element "lightbox-description"
              (set_textContent "Sorry, this image could not be loaded.") st in
  let st := with_element "lightbox-description" (set_display "block") st in
  showToast "Failed to load image" st.

Definition updateImageInfo (ov : option Overlay) (st : State) : State :=
  let title := default "" (ov ≫= gallery_title) in
  let description := default "" (ov ≫= gallery_description) in
  let title :=
    match element "lightbox-image" st with
    | Some image =>
        if String.eqb title "" then
          if String.eqb (alt image) ""
          then "Image " +:+ number_string (currentIndex st + 1)
          else alt image
        else title
    | None => title
    end in
  let st := with_element "lightbox-title" (set_textContent title) st in
  let st := with_element "lightbox-description" (set_textContent description) st in
  with_element "lightbox-description"
    (set_display (if String.eqb description "" then "none" else "block")) st.

(** [img.getAttribute('data-full') || img.src] *)
Definition full_source (i : Img) : string :=
  match data_full i with
  | Some s => if String.eqb s "" then img_src i else s
  | None => img_src i
  end.

Definition loadCurrentImage (st : State) : State :=
  match element "lightbox-image" st, item_at st (currentIndex st) with
  | Some _, Some currentItem =>
      match img currentItem with
      | None => st
      | Some i =>
          let st := showLoadingState st in
          set_preloads (preloads st ++ [{| fullSrc := full_source i;
                                           captured_alt := img_alt i;
                                           captured_overlay := overlay currentItem;
                                           finished := false |}])%list st
      end
  | _, _ => st
  end.

(** [newImage.onload] of preload [k] *)
Definition on_preload_load (k : nat) (st : State) : State :=
  match preloads st !! k with
  | Some p =>
      if finished p then st
      else
        let st := set_preloads (alter set_finished k (preloads st)) st in
        let st := hideLoadingState st in
        let st := with_element "lightbox-image" (set_src (fullSrc p)) st in
        let st := with_element "lightbox-image" (set_alt (captured_alt p)) st in
        updateImageInfo (captured_overlay p) st
  | None => st
  end.

(** [newImage.onerror] of preload [k] *)
Definition on_preload_error (k : nat) (st : State) : State :=
  match preloads st !! k with
  | Some p =>
      if finished p then st
      else
        let st := set_preloads (alter set_finished k (preloads st)) st in
        handleImageError (hideLoadingState st)
  | None => st
  end.

Definition updateNavigation (st : State) : State :=
  let shown := if (length_of st <=? 1)%Z then "none" else "flex" in
  blur_hidden
    (with_element "lightbox-next" (set_display shown)
       (with_element "lightbox-prev" (set_display shown) st)).

Definition updateCounter (st : State) : State :=
  if (1 <? length_of st)%Z then
    with_element "lightbox-counter" (set_display "block")
      (with_element "lightbox-counter"
         (set_textContent (number_string (currentIndex st + 1) +:+ " of "
                           +:+ number_string (length_of st))) st)
  else with_element "lightbox-counter" (set_display "none") st.

(** [openLightbox(index)] for an integer [index], which is what the
    listeners of the gallery items pass. *)
Definition openLightbox (index : Z) (st : State) : State :=
  if negb (has "lightbox" st) || (length_of st =? 0)%Z
     || (index <? 0)%Z || (length_of st <=? index)%Z
  then st
  else
    let st := set_focusedElementBeforeModal (Some (activeElement st)) st in
    let st := set_currentIndex index st in
    let st := set_isOpen true st in
    let st := with_element "lightbox" (set_aria_hidden "false") st in
    let st := with_element "lightbox" (set_display "flex") st in
    let st := with_element "body" (set_overflow "hidden") st in
    let st := set_openTimers (S (openTimers st)) st in
    announceToScreenReader "Gallery image opened" st.

(** The callback of [setTimeout(..., 50)] in [openLightbox] *)
Definition on_open_timer (st : State) : State :=
  match openTimers st with
  | O => st
  | S n =>
      let st := set_openTimers n st in
      let st := updateCounter (updateNavigation (loadCurrentImage st)) in
      if has "lightbox-close" st then focus Close st else st
  end.

Definition closeLightbox (st : State) : State :=
  if negb (has "lightbox" st) || negb (isOpen st) then st
  else
    let st := set_isOpen false st in
    let st := with_element "lightbox" (set_aria_hidden "true") st in
    let st := with_element "lightbox" (set_display "none") st in
    let st := with_element "body" (set_overflow "") st in
    let st :=
      match focusedElementBeforeModal st with
      | Some t => set_focusedElementBeforeModal None (focus t st)
      | None => st
      end in
    let st := with_element "lightbox-image" (set_src "") st in
    let st := with_element "lightbox-image" (set_alt "") st in
    blur_hidden (announceToScreenReader "Gallery image closed" st).

Definition showPreviousImage (st : State) : State :=
  if negb (isOpen st) || (length_of st <=? 1)%Z then st
  else
    let st :=
      set_currentIndex (if (0 <? currentIndex st)%Z then currentIndex st - 1
                        else length_of st - 1) st in
    let st := updateCounter (updateNavigation (loadCurrentImage st)) in
    announceToScreenReader
      ("Previous image: " +:+ number_string (currentIndex st + 1) +:+ " of "
       +:+ number_string (length_of st)) st.

Definition showNextImage (st : State) : State :=
  if negb (isOpen st) || (length_of st <=? 1)%Z then st
  else
    let st :=
      set_currentIndex (if (currentIndex st <? length_of st - 1)%Z
                        then currentIndex st + 1 else 0) st in
    let st := updateCounter (updateNavigation (loadCurrentImage st)) in
    announceToScreenReader
      ("Next image: " +:+ number_string (currentIndex st + 1) +:+ " of "
       +:+ number_string (length_of st)) st.

Definition handleFocusTrap (shiftKey : bool) (st : State) : State :=
  match head (focusables st), last (focusables st) with
  | Some firstFocusable, Some lastFocusable =>
      if shiftKey then
        if decide (activeElement st = firstFocusable) then focus lastFocusable st
        else st
      else
        if decide (activeElement st = lastFocusable) then focus firstFocusable st
        else st
  | _, _ => st
  end.

Definition handleKeydown (key : string) (shiftKey : bool) (st : State) : State :=
  if negb (isOpen st) then st
  else if String.eqb key "Escape" then closeLightbox st
  else if String.eqb key "ArrowLeft" then showPreviousImage st
  else if String.eqb key "ArrowRight" then showNextImage st
  else if String.eqb key "Home" then
    if (1 <? length_of st)%Z then
      updateCounter (updateNavigation (loadCurrentImage (set_currentIndex 0 st)))
    else st
  else if String.eqb key "End" then
    if (1 <? length_of st)%Z then
      updateCounter (updateNavigation
        (loadCurrentImage (set_currentIndex (length_of st - 1) st)))
    else st
  else if String.eqb key "Tab" then handleFocusTrap shiftKey st
  else st.

(** [setupGalleryItems], as [refresh] runs it again.  Every item gets one
    listener more, so that an activation of an item afterwards is as many
    [ItemActivate] events. *)
Definition refresh (st : State) : State :=
  match gallery_grid st with
  | Some items => set_galleryItems items st
  | None => st
  end.

(** What can happen in a page session: the browser runs a listener or a
    callback of the script, the visitor or the browser moves the focus, the
    page changes its gallery, or another script calls
    [window.LightboxManager]: [refresh], [closeLightbox], or [openLightbox]
    with an integer.  A call of [openLightbox] with a value that is not an
    integer is not among these events. *)
Inductive Event :=
| ItemActivate (index : nat)
| CloseClick
| OverlayClick
| PrevClick
| NextClick
| Keydown (key : string) (shiftKey : bool)
| OpenTimer
| PreloadLoad (k : nat)
| PreloadError (k : nat)
| ImageError
| AnnouncementTimer
| VisibilityHidden
| Resize
| FocusMoved (t : Target)
| GalleryChanged (grid : option (list Item))
| Refresh
| OpenLightbox (index : Z)
| CloseLightbox.

Definition step (ev : Event) (st : State) : State :=
  match ev with
  | ItemActivate index => openLightbox (Z.of_nat index) st
  | CloseClick => if has "lightbox-close" st then closeLightbox st else st
  | OverlayClick => if has "lightbox-overlay" st then closeLightbox st else st
  | PrevClick => if has "lightbox-prev" st then showPreviousImage st else st
  | NextClick => if has "lightbox-next" st then showNextImage st else st
  | Keydown key shiftKey =>
      if has "lightbox" st then handleKeydown key shiftKey st else st
  | OpenTimer => on_open_timer st
  | PreloadLoad k => on_preload_load k st
  | PreloadError k => on_preload_error k st
  | ImageError => if has "lightbox-image" st then handleImageError st else st
  | AnnouncementTimer => set_announcements (tail (announcements st)) st
  | VisibilityHidden => if isOpen st then closeLightbox st else st
  | Resize => if isOpen st then updateNavigation st else st
  | FocusMoved t => focus t st
  | GalleryChanged grid => set_gallery_grid grid st
  | Refresh => refresh st
  | OpenLightbox index => openLightbox index st
  | CloseLightbox => closeLightbox st
  end.

Definition run (evs : list Event) (st : State) : State :=
  foldl (fun st ev => step ev st) st evs.

(** The events that neither open nor close the lightbox: navigation, focus
    moves, timers, image loads and the rest. *)
Definition stays_open (ev : Event) : bool :=
  match ev with
  | ItemActivate _ | OpenLightbox _ => false
  | CloseClick | OverlayClick | CloseLightbox | VisibilityHidden => false
  | Keydown key _ => negb (String.eqb key "Escape")
  | _ => true
  end.

(** *** What the properties below speak of *)

(** The second state has the modal variables and the elements of the first. *)
Definition same_modal (st st' : State) : Prop :=
  isOpen st' = isOpen st
  /\ focusedElementBeforeModal st' = focusedElementBeforeModal st
  /\ forall key, has key st' = has key st.

(** The second state has the cursor and the gallery of the first. *)
Definition same_cursor (st st' : State) : Prop :=
  currentIndex st' = currentIndex st /\ galleryItems st' = galleryItems st.

(** The full-resolution source of the image at the current index. *)
Definition current_source (st : State) : option string :=
  full_source <$> (item_at st (currentIndex st) ≫= img).

(** The result of preload [k] is discarded when it is not for the image at
    the current index: its completion leaves the displayed image alone. *)
Definition stale_load_discarded (st : State) (k : nat) : Prop :=
  forall p, preloads st !! k = Some p ->
            current_source st <> Some (fullSrc p) ->
            src <$> element "lightbox-image" (step (PreloadLoad k) st)
            = src <$> element "lightbox-image" st.

(** *** A page for the examples: a gallery of two images and the lightbox
    with its image, title, counter and buttons; the first gallery item has
    the focus. *)
Definition example_element : Element :=
  {| textContent := ""; display := "none"; src := ""; alt := "";
     opacity := ""; aria_hidden := "true"; overflow := "" |}.

Definition example_page : gmap string Element :=
  list_to_map
    [("lightbox", example_element); ("lightbox-image", example_element);
     ("lightbox-title", example_element); ("lightbox-counter", example_element);
     ("lightbox-close", example_element); ("lightbox-prev", example_element);
     ("lightbox-next", example_element); ("body", example_element)].

Definition example_item (full : string) : Item :=
  {| img := Some {| data_full := Some full; img_src := "thumb.jpg"; img_alt := "" |};
     overlay := None |}.

Definition example_state : State :=
  initial example_page (Some [example_item "a.jpg"; example_item "b.jpg"])
    [Close; Prev; Next] true (GalleryItem 0).

(** While the lightbox is open, the current index designates a gallery
    item. *)
Definition in_range (st : State) : Prop :=
  isOpen st = true → (0 ≤ currentIndex st < length_of st)%Z.

Definition is_refresh (ev : Event) : bool :=
  match ev with Refresh => true | _ => false end.

(** [f] applied [n] times. *)
Fixpoint times (n : nat) (f : State → State) (st : State) : State :=
  match n with
  | O => st
  | S n' => times n' f (f st)
  end.

(** The second state has the element under [key] and the pending open
    timers of the first. *)
Definition same_at (key : string) (st st' : State) : Prop :=
  element key st' = element key st ∧ openTimers st' = openTimers st.

(** The page shows the lightbox as the script has it: [aria-hidden] says
    whether it is open, and while it is open it is displayed and the body
    does not scroll. *)
Definition shown_as_open (st : State) : Prop :=
  (∀ lb, element "lightbox" st = Some lb →
         aria_hidden lb = (if isOpen st then "false" else "true")
         ∧ (isOpen st = true → display lb = "flex"))
  ∧ (∀ body, element "body" st = Some body →
             isOpen st = true → overflow body = "hidden").

(** The counter shows the position of the current image. *)
Definition counter_is_current (st : State) : Prop :=
  isOpen st = true → openTimers st = 0%nat → (1 < length_of st)%Z →
  ∀ c, element "lightbox-counter" st = Some c →
       textContent c = number_string (currentIndex st + 1) +:+ " of "
                       +:+ number_string (length_of st)
       ∧ display c = "block".

End Lightbox.

(** ** main.js: sticky header, mobile menu, navigation, toasts and utilities

    The script stands after booking.js in the file of that script. *)
Module Main.

(** *** [debounce] and [throttle]

    A wrapped function is its closure: the variables it captured, the
    timers it set that the browser still holds, and the calls of [func] it
    made so far, oldest first.  [func] is any function that does not call
    the wrapper itself.  The browser either calls the wrapper or runs the
    callback of one of its timers. *)
Inductive Call (A : Type) :=
| Invoke (args : A)
| Expire (id : nat).
Arguments Invoke {A} args.
Arguments Expire {A} id.

(** The arguments the wrapper was called with, in order. *)
Definition invocations {A} (evs : list (Call A)) : list A :=
  omap (fun ev => match ev with Invoke args => Some args | Expire _ => None end) evs.

(** How many timer callbacks the browser was asked to run. *)
Definition expirations {A} (evs : list (Call A)) : nat :=
  length (omap (fun ev => match ev with Invoke _ => None | Expire id => Some id end) evs).

(** [timeout] is the variable of [debounce] ([None] while undefined);
    [timers] holds, for each timer set and not yet run or cleared, its id
    and the [args] its [later] closes over; [next_id] is the id the next
    [setTimeout] returns. *)
Record Debounced (A : Type) := {
  timeout : option nat;
  timers : list (nat * A);
  next_id : nat;
  calls : list A
}.
Arguments timeout {A} _.
Arguments timers {A} _.
Arguments next_id {A} _.
Arguments calls {A} _.

(** [debounce(func, wait)] *)
Definition debounce {A} (first_id : nat) : Debounced A :=
  {| timeout := None; timers := []; next_id := first_id; calls := [] |}.

(** [clearTimeout(id)]: nothing for [undefined] or an id that is not pending *)
Definition clearTimeout {A} (id : option nat) (ts : list (nat * A)) : list (nat * A) :=
  match id with
  | Some i => filter (fun t => t.1 ≠ i) ts
  | None => ts
  end.

Definition executedFunction {A} (args : A) (d : Debounced A) : Debounced A :=
  {| timeout := Some (next_id d);
     timers := clearTimeout (timeout d) (timers d) ++ [(next_id d, args)];
     next_id := S (next_id d);
     calls := calls d |}.

(** The browser runs timer [id], if it still holds it: [later()]. *)
Definition later {A} (id : nat) (d : Debounced A) : Debounced A :=
  match list_find (fun t => t.1 = id) (timers d) with
  | Some (_, (_, args)) =>
      {| timeout := timeout d;
         timers := clearTimeout (timeout d) (filter (fun t => t.1 ≠ id) (timers d));
         next_id := next_id d;
         calls := calls d ++ [args] |}
  | None => d
  end.

Definition debounce_step {A} (ev : Call A) (d : Debounced A) : Debounced A :=
  match ev with
  | Invoke args => executedFunction args d
  | Expire id => later id d
  end.

Definition debounce_run {A} (evs : list (Call A)) (d : Debounced A) : Debounced A :=
  foldl (fun d ev => debounce_step ev d) d evs.

(** [inThrottle] is the variable of [throttle] (false while undefined, as
    [!inThrottle] reads it); [limitTimers] counts the pending timers, which
    all do the same. *)
Record Throttled (A : Type) := {
  inThrottle : bool;
  limitTimers : nat;
  throttled_calls : list A
}.
Arguments inThrottle {A} _.
Arguments limitTimers {A} _.
Arguments throttled_calls {A} _.

(** [throttle(func, limit)] *)
Definition throttle {A} : Throttled A :=
  {| inThrottle := false; limitTimers := 0; throttled_calls := [] |}.

(** The function [throttle] returns *)
Definition throttled {A} (args : A) (t : Throttled A) : Throttled A :=
  if negb (inThrottle t) then
    {| inThrottle := true; limitTimers := S (limitTimers t);
       throttled_calls := throttled_calls t ++ [args] |}
  else t.

(** [() => inThrottle = false] *)
Definition on_limit {A} (t : Throttled A) : Throttled A :=
  match limitTimers t with
  | O => t
  | S n => {| inThrottle := false; limitTimers := n;
              throttled_calls := throttled_calls t |}
  end.

Definition throttle_step {A} (ev : Call A) (t : Throttled A) : Throttled A :=
  match ev with
  | Invoke args => throttled args t
  | Expire _ => on_limit t
  end.

Definition throttle_run {A} (evs : list (Call A)) (t : Throttled A) : Throttled A :=
  foldl (fun t ev => throttle_step ev t) t evs.

(** *** Sticky header

    [scrollY] is [window.scrollY], a number that need not be whole;
    [header] is the class list of [.header], if the page has one;
    [lastScrollY] and [ticking] are the variables of [setupStickyHeader];
    [frames] counts the animation frames requested and not yet run. *)
Record Header := {
  scrollY : Q;
  header : option (gset string);
  lastScrollY : Q;
  ticking : bool;
  frames : nat
}.

(** [y > n] *)
Definition greater (y : Q) (n : Z) : bool := negb (Qle_bool y (inject_Z n)).

Definition updateHeader (h : Header) : Header :=
  {| scrollY := scrollY h;
     header := (fun cl => if greater (scrollY h) 50 then {["scrolled"]} ∪ cl
                          else cl ∖ {["scrolled"]}) <$> header h;
     lastScrollY := scrollY h;
     ticking := false;
     frames := frames h |}.

Definition requestTick (h : Header) : Header :=
  if negb (ticking h) then
    {| scrollY := scrollY h; header := header h; lastScrollY := lastScrollY h;
       ticking := true; frames := S (frames h) |}
  else h.

(** The page as the script finds it, scrolled to [y]. *)
Definition page_header (y : Q) (cl : option (gset string)) : Header :=
  {| scrollY := y; header := cl; lastScrollY := 0; ticking := false; frames := 0 |}.

Definition setupStickyHeader (h : Header) : Header :=
  match header h with
  | None => h
  | Some _ =>
      updateHeader
        {| scrollY := scrollY h; header := header h; lastScrollY := scrollY h;
           ticking := false; frames := frames h |}
  end.

(** The page is scrolled to [y] and the scroll listener runs, or the
    browser runs a requested animation frame. *)
Inductive HeaderEvent :=
| Scroll (y : Q)
| AnimationFrame.

Definition header_step (ev : HeaderEvent) (h : Header) : Header :=
  match ev with
  | Scroll y =>
      let h := {| scrollY := y; header := header h; lastScrollY := lastScrollY h;
                  ticking := ticking h; frames := frames h |} in
      match header h with
      | Some _ => requestTick h
      | None => h
      end
  | AnimationFrame =>
      match frames h with
      | O => h
      | S n =>
          updateHeader
            {| scrollY := scrollY h; header := header h;
               lastScrollY := lastScrollY h; ticking := ticking h; frames := n |}
      end
  end.

Definition header_run (evs : list HeaderEvent) (h : Header) : Header :=
  foldl (fun h ev => header_step ev h) h evs.

(** *** Mobile menu *)

(** What can hold the focus: the menu button, a control inside the menu, or
    something else on the page. *)
Inductive Place :=
| Button
| InMenu (i : nat)
| Elsewhere (name : string).

Global Instance Place_eq_dec : EqDecision Place.
Proof. solve_decision. Defined.

(** Where a click lands. *)
Inductive ClickTarget :=
| OnButton
| OnMenuLink
| InsideMenu
| OutsideMenu.

(** [present]: the page has both [.mobile-menu-btn] and [.mobile-menu], so
    [setupMobileMenu] registered its listeners; [controls] is what
    [mobileMenu.querySelectorAll] finds for the focus trap, without the
    disabled and the hidden ones; [aria_expanded] is the attribute of the
    button, [aria_hidden] that of the menu, [overflow] the style of the
    body; [trapped]: the menu has the [keydown] listener [handleFocusTrap];
    [focusTimers] counts the pending timers of [openMobileMenu]. *)
Record Menu := {
  present : bool;
  isMenuOpen : bool;
  focusableElements : list Place;
  firstFocusableElement : option Place;
  lastFocusableElement : option Place;
  controls : list Place;
  aria_expanded : option string;
  aria_hidden : option string;
  overflow : string;
  activeElement : Place;
  trapped : bool;
  focusTimers : nat
}.

(** The page as the script finds it. *)
Definition page_menu (found : bool) (items : list Place) (expanded hidden : option string)
    (body_overflow : string) (focused : Place) : Menu :=
  {| present := found; isMenuOpen := false; focusableElements := [];
     firstFocusableElement := None; lastFocusableElement := None;
     controls := items; aria_expanded := expanded; aria_hidden := hidden;
     overflow := body_overflow; activeElement := focused; trapped := false;
     focusTimers := 0 |}.

(** [t.focus()] *)
Definition menu_focus (t : Place) (m : Menu) : Menu :=
  {| present := present m; isMenuOpen := isMenuOpen m;
     focusableElements := focusableElements m;
     firstFocusableElement := firstFocusableElement m;
     lastFocusableElement := lastFocusableElement m;
     controls := controls m; aria_expanded := aria_expanded m;
     aria_hidden := aria_hidden m; overflow := overflow m;
     activeElement := t; trapped := trapped m; focusTimers := focusTimers m |}.

Definition setupFocusTrap (m : Menu) : Menu :=
  {| present := present m; isMenuOpen := isMenuOpen m;
     focusableElements := controls m;
     firstFocusableElement := head (controls m);
     lastFocusableElement := last (controls m);
     controls := controls m; aria_expanded := aria_expanded m;
     aria_hidden := aria_hidden m; overflow := overflow m;
     activeElement := activeElement m; trapped := true;
     focusTimers := focusTimers m |}.

Definition openMobileMenu (m : Menu) : Menu :=
  let m := setupFocusTrap
             {| present := present m; isMenuOpen := true;
                focusableElements := focusableElements m;
                firstFocusableElement := firstFocusableElement m;
                lastFocusableElement := lastFocusableElement m;
                controls := controls m; aria_expanded := Some "true";
                aria_hidden := Some "false"; overflow := overflow m;
                activeElement := activeElement m; trapped := trapped m;
                focusTimers := focusTimers m |} in
  {| present := present m; isMenuOpen := isMenuOpen m;
     focusableElements := focusableElements m;
     firstFocusableElement := firstFocusableElement m;
     lastFocusableElement := lastFocusableElement m;
     controls := controls m; aria_expanded := aria_expanded m;
     aria_hidden := aria_hidden m; overflow := "hidden";
     activeElement := activeElement m; trapped := trapped m;
     focusTimers := S (focusTimers m) |}.

Definition closeMobileMenu (m : Menu) : Menu :=
  {| present := present m; isMenuOpen := false;
     focusableElements := focusableElements m;
     firstFocusableElement := firstFocusableElement m;
     lastFocusableElement := lastFocusableElement m;
     controls := controls m; aria_expanded := Some "false";
     aria_hidden := Some "true"; overflow := "";
     activeElement := activeElement m; trapped := trapped m;
     focusTimers := focusTimers m |}.

Definition toggleMobileMenu (m : Menu) : Menu :=
  if isMenuOpen m then closeMobileMenu m else openMobileMenu m.

(** The callback of [setTimeout(..., 100)] in [openMobileMenu] *)
Definition on_focus_timer (m : Menu) : Menu :=
  match focusTimers m with
  | O => m
  | S n =>
      let m := {| present := present m; isMenuOpen := isMenuOpen m;
                  focusableElements := focusableElements m;
                  firstFocusableElement := firstFocusableElement m;
                  lastFocusableElement := lastFocusableElement m;
                  controls := controls m; aria_expanded := aria_expanded m;
                  aria_hidden := aria_hidden m; overflow := overflow m;
                  activeElement := activeElement m; trapped := trapped m;
                  focusTimers := n |} in
      match firstFocusableElement m with
      | Some t => menu_focus t m
      | None => m
      end
  end.

(** [handleFocusTrap] of the menu.  When the focus is on the first element
    there is a last one as well. *)
Definition menu_handleFocusTrap (key : string) (shiftKey : bool) (m : Menu) : Menu :=
  if negb (String.eqb key "Tab") then m
  else if shiftKey then
    if decide (Some (activeElement m) = firstFocusableElement m) then
      match lastFocusableElement m with
      | Some t => menu_focus t m
      | None => m
      end
    else m
  else
    if decide (Some (activeElement m) = lastFocusableElement m) then
      match firstFocusableElement m with
      | Some t => menu_focus t m
      | None => m
      end
    else m.

(** What can happen to the menu: a click, a key pressed while the focus is
    where it is, the timer of [openMobileMenu], the page being hidden, the
    focus moving, the content of the menu changing. *)
Inductive MenuEvent :=
| Click (target : ClickTarget)
| Keydown (key : string) (shiftKey : bool)
| FocusTimer
| VisibilityHidden
| FocusMoved (t : Place)
| MenuChanged (items : list Place).

Definition in_menu (t : Place) : bool :=
  match t with
  | InMenu _ => true
  | _ => false
  end.

(** The listeners of an event run from the target outwards: those of the
    button, the links and the menu before those of the document. *)
Definition menu_step (ev : MenuEvent) (m : Menu) : Menu :=
  match ev with
  | Click target =>
      if negb (present m) then m
      else match target with
           | OnButton => toggleMobileMenu m
           | OnMenuLink => closeMobileMenu m
           | InsideMenu => m
           | OutsideMenu => if isMenuOpen m then closeMobileMenu m else m
           end
  | Keydown key shiftKey =>
      if negb (present m) then m
      else
        let m := if trapped m && in_menu (activeElement m)
                 then menu_handleFocusTrap key shiftKey m else m in
        if String.eqb key "Escape" && isMenuOpen m
        then menu_focus Button (closeMobileMenu m)
        else m
  | FocusTimer => on_focus_timer m
  | VisibilityHidden => if isMenuOpen m then closeMobileMenu m else m
  | FocusMoved t => menu_focus t m
  | MenuChanged items =>
      {| present := present m; isMenuOpen := isMenuOpen m;
         focusableElements := focusableElements m;
         firstFocusableElement := firstFocusableElement m;
         lastFocusableElement := lastFocusableElement m;
         controls := items; aria_expanded := aria_expanded m;
         aria_hidden := aria_hidden m; overflow := overflow m;
         activeElement := activeElement m; trapped := trapped m;
         focusTimers := focusTimers m |}
  end.

Definition menu_run (evs : list MenuEvent) (m : Menu) : Menu :=
  foldl (fun m ev => menu_step ev m) m evs.

(** The attributes and the body say what [isMenuOpen] says. *)
Definition menu_shown_as_open (m : Menu) : Prop :=
  aria_expanded m = Some (if isMenuOpen m then "true" else "false")
  ∧ aria_hidden m = Some (if isMenuOpen m then "false" else "true")
  ∧ overflow m = (if isMenuOpen m then "hidden" else "").

(** The script has not touched the menu of page [m0] yet. *)
Definition menu_untouched (m0 m : Menu) : Prop :=
  isMenuOpen m = false
  ∧ aria_expanded m = aria_expanded m0
  ∧ aria_hidden m = aria_hidden m0
  ∧ overflow m = overflow m0.

(** *** Toasts

    A toast [showToast] made: whether it is in the container, whether it
    has the class [show], and which of its timers are pending: the one that
    shows it, the one that closes it after five seconds, and those of
    [closeToast] that remove it. *)
Record Toast := {
  message : string;
  type : string;
  attached : bool;
  show : bool;
  showTimer : bool;
  closeTimer : bool;
  removeTimers : nat
}.

(** [container]: the page has [#toast-container]; [toasts] are the toasts
    made so far, oldest first. *)
Record Toasts := {
  container : bool;
  toasts : list Toast
}.

(** [showToast(message, type = 'success')], for a message whose markup
    leaves the [.toast-close] button of the toast in place *)
Definition showToast (msg : string) (ty : option string) (ts : Toasts) : Toasts :=
  if negb (container ts) then ts
  else
    {| container := container ts;
       toasts := toasts ts ++
         [{| message := msg; type := default "success" ty; attached := true;
             show := false; showTimer := true; closeTimer := true;
             removeTimers := 0 |}] |}.

Definition closeToast (t : Toast) : Toast :=
  {| message := message t; type := type t; attached := attached t;
     show := false; showTimer := showTimer t; closeTimer := closeTimer t;
     removeTimers := S (removeTimers t) |}.

(** The callback of [setTimeout(..., 100)] in [showToast] *)
Definition on_show_timer (t : Toast) : Toast :=
  if showTimer t then
    {| message := message t; type := type t; attached := attached t;
       show := true; showTimer := false; closeTimer := closeTimer t;
       removeTimers := removeTimers t |}
  else t.

(** The callback of [setTimeout(..., 5000)] in [showToast] *)
Definition on_close_timer (t : Toast) : Toast :=
  if closeTimer t then
    closeToast
      {| message := message t; type := type t; attached := attached t;
         show := show t; showTimer := showTimer t; closeTimer := false;
         removeTimers := removeTimers t |}
  else t.

(** The callback of [setTimeout(..., 300)] in [closeToast]: [toast.remove()] *)
Definition on_remove_timer (t : Toast) : Toast :=
  match removeTimers t with
  | O => t
  | S n =>
      {| message := message t; type := type t; attached := false;
         show := show t; showTimer := showTimer t; closeTimer := closeTimer t;
         removeTimers := n |}
  end.

Inductive ToastEvent :=
| ShowToast (msg : string) (ty : option string)
| ShowTimer (k : nat)
| CloseClick (k : nat)
| CloseTimer (k : nat)
| RemoveTimer (k : nat).

Definition with_toast (k : nat) (f : Toast -> Toast) (ts : Toasts) : Toasts :=
  {| container := container ts; toasts := alter f k (toasts ts) |}.

Definition toast_step (ev : ToastEvent) (ts : Toasts) : Toasts :=
  match ev with
  | ShowToast msg ty => showToast msg ty ts
  | ShowTimer k => with_toast k on_show_timer ts
  | CloseClick k => with_toast k closeToast ts
  | CloseTimer k => with_toast k on_close_timer ts
  | RemoveTimer k => with_toast k on_remove_timer ts
  end.

Definition toast_run (evs : list ToastEvent) (ts : Toasts) : Toasts :=
  foldl (fun ts ev => toast_step ev ts) ts evs.

(** The page as the script finds it. *)
Definition page_toasts (found : bool) : Toasts :=
  {| container := found; toasts := [] |}.

(** *** Navigation

    A [.nav-link] or [.mobile-nav-link]: the path of its [href], if
    [new URL(link.href)] accepts it, its class list and its [aria-current]. *)
Record Link := {
  pathname : option string;
  link_classes : gset string;
  aria_current : option string
}.

(** The condition under which [setupNavigation] marks a link *)
Definition is_current_page (currentPath linkPath : string) : bool :=
  bool_decide (linkPath = currentPath)
  || (bool_decide (currentPath = "/") && bool_decide (linkPath = "/"))
  || (negb (bool_decide (currentPath = "/")) && negb (bool_decide (linkPath = "/"))
      && Booking.includes linkPath currentPath).

Definition mark_link (currentPath linkPath : string) (link : Link) : Link :=
  let link := {| pathname := pathname link;
                 link_classes := link_classes link ∖ {["active"]};
                 aria_current := None |} in
  if is_current_page currentPath linkPath then
    {| pathname := pathname link;
       link_classes := {["active"]} ∪ link_classes link;
       aria_current := Some "page" |}
  else link.

(** [navLinks.forEach(...)]: the links as the loop leaves them, and whether
    it came to its end; [new URL] throws at a link whose [href] is no URL,
    and the links after it are not reached. *)
Fixpoint setupNavigation (currentPath : string) (navLinks : list Link) : list Link * bool :=
  match navLinks with
  | [] => ([], true)
  | link :: rest =>
      match pathname link with
      | None => (link :: rest, false)
      | Some linkPath =>
          let '(rest', completed) := setupNavigation currentPath rest in
          (mark_link currentPath linkPath link :: rest', completed)
      end
  end.

(** Two links of a page: the link to the home page, which carries the
    marks of the page it was copied from, and the link to the gallery. *)
Definition example_links : list Link :=
  [ {| pathname := Some "/"; link_classes := {["nav-link"; "active"]};
       aria_current := Some "page" |};
    {| pathname := Some "/pages/gallery.html"; link_classes := {["nav-link"]};
       aria_current := None |} ].

End Main.

(** ** Properties of validate.js *)
Module ValidateFacts.
Import JS Validate.

Lemma same_frame_refl nd : same_frame nd nd.
Proof. by repeat split. Qed.

Lemma same_frame_trans a b c : same_frame a b → same_frame b c → same_frame a c.
Proof. unfold same_frame. intros (?&?&?&?) (?&?&?&?). repeat split; try congruence; tauto. Qed.

Lemma same_frame_sym a b : same_frame a b → same_frame b a.
Proof. unfold same_frame. intros (?&?&?&?). repeat split; try congruence; tauto. Qed.

Lemma frame_refl (d : list Node) : Forall2 same_frame d d.
Proof. induction d; constructor; auto using same_frame_refl. Qed.

Lemma frame_trans (d1 d2 d3 : list Node) :
  Forall2 same_frame d1 d2 → Forall2 same_frame d2 d3 → Forall2 same_frame d1 d3.
Proof.
  intros H. revert d3. induction H; intros d3 H3; inversion H3; subst; constructor;
    eauto using same_frame_trans.
Qed.

Lemma frame_imap (f : nat → Node → Node) (d : list Node) :
  (∀ j nd, same_frame nd (f j nd)) → Forall2 same_frame d (imap f d).
Proof.
  intros Hf. apply Forall2_same_length_lookup. split.
  - by rewrite length_imap.
  - intros i x y Hx. rewrite list_lookup_imap, Hx. intros [= <-]. apply Hf.
Qed.

Lemma clear_node_frame e g field j nd : same_frame nd (clear_node e g field j nd).
Proof.
  unfold clear_node, same_frame. repeat case_decide; simpl; repeat split; auto; set_solver.
Qed.

Lemma show_node_frame m e g field j nd : same_frame nd (show_node m e g field j nd).
Proof.
  unfold show_node, same_frame. repeat case_decide; simpl; repeat split; auto; set_solver.
Qed.

Lemma list_find_frame (d d' : list Node) (s : string) :
  Forall2 same_frame d d' →
  fst <$> list_find (λ nd, id nd = s) d = fst <$> list_find (λ nd, id nd = s) d'.
Proof.
  induction 1 as [|x y l l' Hxy Hl IH]; [done|]. simpl.
  destruct Hxy as (Hid & _). rewrite <- Hid.
  case_decide; [done|].
  destruct (list_find _ l) as [[? ?]|], (list_find _ l') as [[? ?]|];
    simpl in *; congruence.
Qed.

Lemma getElementById_frame (d d' : list Node) s :
  Forall2 same_frame d d' → getElementById d s = getElementById d' s.
Proof. intros H. unfold getElementById. case_decide; [done|]. by apply list_find_frame. Qed.

Lemma lookup_frame (d d' : list Node) i :
  Forall2 same_frame d d' → option_Forall2 same_frame (d !! i) (d' !! i).
Proof. intros H. by apply Forall2_lookup. Qed.

Lemma field_id_frame (d d' : list Node) i :
  Forall2 same_frame d d' → field_id d i = field_id d' i.
Proof.
  intros H. unfold field_id. destruct (lookup_frame d d' i H) as [?? (?&?)|]; simpl; auto.
Qed.

Lemma field_value_frame (d d' : list Node) i :
  Forall2 same_frame d d' → field_value d i = field_value d' i.
Proof.
  intros H. unfold field_value. destruct (lookup_frame d d' i H) as [?? (?&?&?)|]; simpl; auto.
Qed.

Lemma has_class_frame (d d' : list Node) i :
  Forall2 same_frame d d' → has_class d "form-group" i = has_class d' "form-group" i.
Proof.
  intros H. unfold has_class.
  destruct (lookup_frame d d' i H) as [?? (?&?&?&Hc)|]; simpl; auto.
  apply bool_decide_ext, Hc.
Qed.

Lemma closest_frame (d d' : list Node) i :
  Forall2 same_frame d d' → closest d i "form-group" = closest d' i "form-group".
Proof.
  intros H. unfold closest.
  assert (from_option ancestors [] (d !! i) = from_option ancestors [] (d' !! i)) as ->.
  { destruct (lookup_frame d d' i H) as [?? (?&?&?&?)|]; simpl; auto. }
  f_equal. apply list_find_ext. intros a. by rewrite (has_class_frame d d' a H).
Qed.

Lemma clearFieldError_imap (d : list Node) field :
  clearFieldError d field =
  imap (clear_node (getElementById d (field_id d field +:+ "-error"))
          (closest d field "form-group") field) d.
Proof.
  unfold clearFieldError.
  set (e := getElementById d _).
  set (d1 := match e with Some e0 => _ | None => d end).
  set (d3 := alter (classList_remove "error") field _).
  assert (Hf : Forall2 same_frame d d3).
  { apply Forall2_same_length_lookup. split.
    - unfold d3, d1. destruct e; by rewrite ?length_alter.
    - intros i x y Hx. unfold d3, d1.
      destruct e; rewrite !list_lookup_alter; repeat case_decide; subst;
        rewrite ?list_lookup_alter; repeat case_decide; subst; rewrite ?Hx; simpl;
        intros [= <-]; unfold same_frame; simpl; repeat split; auto; set_solver. }
  rewrite <- (closest_frame d d3 field Hf).
  set (g := closest d field "form-group").
  apply list_eq. intros j. rewrite list_lookup_imap.
  unfold clear_node, d3, d1.
  destruct g as [g|], e as [e|]; rewrite ?list_lookup_alter;
    repeat (case_decide; simplify_eq; rewrite ?list_lookup_alter);
    destruct (d !! j); simpl; try done; try congruence.
Qed.

Lemma showFieldError_imap (d : list Node) field msg :
  showFieldError d field msg =
  imap (show_node (to_text msg) (getElementById d (field_id d field +:+ "-error"))
          (closest d field "form-group") field) d.
Proof.
  unfold showFieldError.
  set (e := getElementById d _).
  set (d1 := match e with Some e0 => _ | None => d end).
  set (d3 := alter (classList_add "error") field _).
  assert (Hf : Forall2 same_frame d d3).
  { apply Forall2_same_length_lookup. split.
    - unfold d3, d1. destruct e; by rewrite ?length_alter.
    - intros i x y Hx. unfold d3, d1.
      destruct e; rewrite !list_lookup_alter; repeat case_decide; subst;
        rewrite ?list_lookup_alter; repeat case_decide; subst; rewrite ?Hx; simpl;
        intros [= <-]; unfold same_frame; simpl; repeat split; auto; set_solver. }
  rewrite <- (closest_frame d d3 field Hf).
  set (g := closest d field "form-group").
  apply list_eq. intros j. rewrite list_lookup_imap.
  unfold show_node, d3, d1.
  destruct g as [g|], e as [e|]; rewrite ?list_lookup_alter;
    repeat (case_decide; simplify_eq; rewrite ?list_lookup_alter);
    destruct (d !! j); simpl; try done; try congruence.
Qed.

Lemma clearFieldError_frame (d : list Node) field :
  Forall2 same_frame d (clearFieldError d field).
Proof. rewrite clearFieldError_imap. apply frame_imap. intros. apply clear_node_frame. Qed.

Lemma showFieldError_frame (d : list Node) field msg :
  Forall2 same_frame d (showFieldError d field msg).
Proof. rewrite showFieldError_imap. apply frame_imap. intros. apply show_node_frame. Qed.

Lemma node_eq (a b : Node) :
  id a = id b → value a = value b → textContent a = textContent b →
  classList a = classList b → aria_invalid a = aria_invalid b →
  ancestors a = ancestors b → a = b.
Proof. destruct a, b; simpl; intros; congruence. Qed.

Lemma clear_clear_node e g field j nd :
  clear_node e g field j (clear_node e g field j nd) = clear_node e g field j nd.
Proof.
  unfold clear_node. repeat case_decide; apply node_eq; simpl; auto; set_solver.
Qed.

Lemma show_clear_show_clear_node m e g field j nd :
  show_node m e g field j (clear_node e g field j
    (show_node m e g field j (clear_node e g field j nd)))
  = show_node m e g field j (clear_node e g field j nd).
Proof.
  unfold clear_node, show_node. repeat case_decide; apply node_eq; simpl; auto; set_solver.
Qed.

Lemma clearFieldError_idem (d : list Node) field :
  clearFieldError (clearFieldError d field) field = clearFieldError d field.
Proof.
  pose proof (clearFieldError_frame d field) as Hf.
  rewrite (clearFieldError_imap (clearFieldError d field)).
  rewrite <- (field_id_frame _ _ field Hf), <- (getElementById_frame _ _ _ Hf),
    <- (closest_frame _ _ field Hf).
  rewrite clearFieldError_imap. apply list_eq. intros j.
  rewrite !list_lookup_imap. destruct (d !! j); simpl; [|done].
  by rewrite clear_clear_node.
Qed.

Lemma show_clear_idem (d : list Node) field msg :
  let d' := showFieldError (clearFieldError d field) field msg in
  showFieldError (clearFieldError d' field) field msg = d'.
Proof.
  intros d'.
  assert (Hf : Forall2 same_frame d d').
  { eapply frame_trans; [apply clearFieldError_frame|apply showFieldError_frame]. }
  assert (Hc : Forall2 same_frame d (clearFieldError d field)) by apply clearFieldError_frame.
  assert (Hc' : Forall2 same_frame d (clearFieldError d' field)).
  { eapply frame_trans; [exact Hf|apply clearFieldError_frame]. }
  rewrite (showFieldError_imap (clearFieldError d' field)).
  rewrite <- (field_id_frame _ _ field Hc'), <- (getElementById_frame _ _ _ Hc'),
    <- (closest_frame _ _ field Hc').
  rewrite (clearFieldError_imap d').
  rewrite <- (field_id_frame _ _ field Hf), <- (getElementById_frame _ _ _ Hf),
    <- (closest_frame _ _ field Hf).
  unfold d'. rewrite (showFieldError_imap (clearFieldError d field)).
  rewrite <- (field_id_frame _ _ field Hc), <- (getElementById_frame _ _ _ Hc),
    <- (closest_frame _ _ field Hc).
  rewrite clearFieldError_imap. apply list_eq. intros j.
  rewrite !list_lookup_imap. destruct (d !! j); simpl; [|done].
  by rewrite show_clear_show_clear_node.
Qed.

Lemma validateField_twice (reg : gmap string RuleConfig) (d : list Node)
    (field : nat) (rules : list string) :
  validateField reg (validateField reg d field rules).2 field rules
  = validateField reg d field rules.
Proof.
  unfold validateField at 2 3.
  destruct (run_rules reg (field_value d field) rules) as [w v] eqn:Hr.
  destruct v as [|m|]; simpl; unfold validateField.
  - rewrite <- (field_value_frame d _ field (clearFieldError_frame d field)), Hr.
    by rewrite clearFieldError_idem.
  - assert (Hf : Forall2 same_frame d (showFieldError (clearFieldError d field) field m)).
    { eapply frame_trans; [apply clearFieldError_frame|apply showFieldError_frame]. }
    rewrite <- (field_value_frame d _ field Hf), Hr.
    by rewrite (show_clear_idem d field m).
  - rewrite <- (field_value_frame d _ field (clearFieldError_frame d field)), Hr.
    by rewrite clearFieldError_idem.
Qed.

(** One turn of the loop, in terms of the name and parameter of the rule. *)
Lemma run_rules_cons (reg : gmap string RuleConfig) v rule rest :
  run_rules reg v (rule :: rest) =
  match get reg (rule_name rule) with
  | Undefined =>
      (("Unknown validation rule: " +:+ rule_name rule) :: (run_rules reg v rest).1,
       (run_rules reg v rest).2)
  | InheritedMember => ([], TypeError)
  | OwnRule ruleConfig =>
      if test ruleConfig v (rule_param rule) then run_rules reg v rest
      else ([], Invalid (rule_message reg rule))
  end.
Proof.
  unfold rule_message, rule_name, rule_param. simpl.
  destruct (split_on ":" rule) as [name params]. simpl.
  destruct (get reg name) as [|c|]; [|destruct params as [|param ?]; simpl|done].
  - by destruct (run_rules reg v rest).
  - done.
  - by destruct (test c v (Some param)), (message c).
Qed.

Lemma run_rules_passing (reg : gmap string RuleConfig) v pre rest :
  Forall (resolves reg) pre →
  Forall (λ r, rule_fails reg v r = false) pre →
  (run_rules reg v (pre ++ rest)).2 = (run_rules reg v rest).2.
Proof.
  induction pre as [|rule pre IH]; [done|].
  intros Hres Hpass. inversion Hres as [|?? Hr Hres']; inversion Hpass as [|?? Hp Hpass']; subst.
  change ((rule :: pre) ++ rest) with (rule :: (pre ++ rest)).
  rewrite run_rules_cons. unfold resolves, rule_fails in *.
  destruct (get reg (rule_name rule)) as [|c|]; simpl; [by apply IH| |done].
  apply negb_false_iff in Hp. rewrite Hp. by apply IH.
Qed.

Lemma run_rules_failing (reg : gmap string RuleConfig) v rule rest :
  rule_fails reg v rule = true →
  run_rules reg v (rule :: rest) = ([], Invalid (rule_message reg rule)).
Proof.
  intros Hf. rewrite run_rules_cons. unfold rule_fails in Hf.
  destruct (get reg (rule_name rule)) as [|c|]; try done.
  apply negb_true_iff in Hf. by rewrite Hf.
Qed.

Lemma run_rules_first_failure (reg : gmap string RuleConfig) v pre rule post :
  Forall (resolves reg) pre →
  Forall (λ r, rule_fails reg v r = false) pre →
  rule_fails reg v rule = true →
  (run_rules reg v (pre ++ rule :: post)).2 = Invalid (rule_message reg rule).
Proof.
  intros Hres Hpass Hf. rewrite run_rules_passing by done.
  by rewrite run_rules_failing.
Qed.

(** With resolving names the loop ends [Valid] when no rule fails, and at the
    first failing rule otherwise. *)
Lemma run_rules_verdict (reg : gmap string RuleConfig) v rules :
  Forall (resolves reg) rules →
  ((run_rules reg v rules).2 = Valid ∧ Forall (λ r, rule_fails reg v r = false) rules)
  ∨ (∃ pre rule post, rules = pre ++ rule :: post
       ∧ Forall (λ r, rule_fails reg v r = false) pre
       ∧ rule_fails reg v rule = true
       ∧ (run_rules reg v rules).2 = Invalid (rule_message reg rule)).
Proof.
  induction rules as [|rule rules IH]; intros Hres.
  - left. by split.
  - inversion Hres as [|?? Hr Hres']; subst.
    destruct (rule_fails reg v rule) eqn:Hf.
    + right. exists [], rule, rules. repeat split; auto.
      by rewrite run_rules_failing.
    + destruct (IH Hres') as [[Hv Hall]|(pre & r & post & -> & Hpre & Hfr & Hv)].
      * left. split; [|by constructor].
        rewrite <- Hv. apply (run_rules_passing reg v [rule] rules); by repeat constructor.
      * right. exists (rule :: pre), r, post. repeat split; auto.
        rewrite <- Hv. apply (run_rules_passing reg v [rule]); by repeat constructor.
Qed.

(** When the loop ends [Valid], no rule fails. *)
Lemma run_rules_valid (reg : gmap string RuleConfig) v rules :
  (run_rules reg v rules).2 = Valid →
  Forall (λ r, rule_fails reg v r = false) rules.
Proof.
  induction rules as [|rule rules IH]; [by constructor|].
  rewrite run_rules_cons. unfold rule_fails at 1.
  destruct (get reg (rule_name rule)) as [|c|] eqn:Hg; simpl.
  - intros H. constructor; [|by apply IH]. unfold rule_fails. by rewrite Hg.
  - destruct (test c v (rule_param rule)) eqn:Ht; [|done].
    intros H. constructor; [|by apply IH]. unfold rule_fails. by rewrite Hg, Ht.
  - done.
Qed.

(** When the loop ends [Invalid], it ends at the first failing rule, with
    the message of that rule. *)
Lemma run_rules_invalid (reg : gmap string RuleConfig) v rules msg :
  (run_rules reg v rules).2 = Invalid msg →
  ∃ pre rule post,
    rules = pre ++ rule :: post
    ∧ Forall (resolves reg) pre
    ∧ Forall (λ r, rule_fails reg v r = false) pre
    ∧ rule_fails reg v rule = true
    ∧ msg = rule_message reg rule.
Proof.
  induction rules as [|rule rules IH]; [done|].
  rewrite run_rules_cons.
  destruct (get reg (rule_name rule)) as [|c|] eqn:Hg; simpl.
  - intros H. destruct (IH H) as (pre & r & post & -> & Hres & Hpre & Hf & ->).
    exists (rule :: pre), r, post. split_and!; try done.
    + constructor; [|done]. unfold resolves. by rewrite Hg.
    + constructor; [|done]. unfold rule_fails. by rewrite Hg.
  - destruct (test c v (rule_param rule)) eqn:Ht.
    + intros H. destruct (IH H) as (pre & r & post & -> & Hres & Hpre & Hf & ->).
      exists (rule :: pre), r, post. split_and!; try done.
      * constructor; [|done]. unfold resolves. by rewrite Hg.
      * constructor; [|done]. unfold rule_fails. by rewrite Hg, Ht.
    + simpl. intros [= <-]. exists [], rule, rules. split_and!; try done.
      unfold rule_fails. by rewrite Hg, Ht.
  - done.
Qed.






Lemma getElementById_lt (d : list Node) s e :
  getElementById d s = Some e → ∃ nd, d !! e = Some nd ∧ id nd = s.
Proof.
  unfold getElementById. case_decide; [done|].
  destruct (list_find _ d) as [[i nd]|] eqn:Hfind; [|done].
  simpl. intros [= <-]. apply list_find_Some in Hfind as (? & ? & ?). eauto.
Qed.

Lemma length_append (s t : string) :
  String.length (s +:+ t) = String.length s + String.length t.
Proof. induction s; simpl; auto. Qed.

Lemma append_ne (s t : string) : t ≠ "" → s +:+ t ≠ s.
Proof.
  intros Ht H. apply (f_equal String.length) in H.
  rewrite length_append in H. destruct t; [done|]. simpl in H. lia.
Qed.

Lemma append_inj_l (s1 s2 t : string) : s1 +:+ t = s2 +:+ t → s1 = s2.
Proof.
  revert s2. induction s1 as [|a s1 IH]; intros [|b s2] H.
  - done.
  - apply (f_equal String.length) in H. rewrite !length_append in H. simpl in H. lia.
  - apply (f_equal String.length) in H. rewrite !length_append in H. simpl in H. lia.
  - injection H as -> H. f_equal. by apply IH.
Qed.

Lemma error_element_ne_field (d : list Node) field e :
  is_Some (d !! field) →
  getElementById d (field_id d field +:+ "-error") = Some e → e ≠ field.
Proof.
  intros [nd Hnd] He ->. apply getElementById_lt in He as (nd' & Hnd' & Hid).
  unfold field_id in Hid. rewrite Hnd in Hnd'. injection Hnd' as <-.
  rewrite Hnd in Hid. simpl in Hid. symmetry in Hid. by apply append_ne in Hid.
Qed.

Lemma showFieldError_text (d : list Node) field msg :
  is_Some (d !! field) →
  is_Some (getElementById d (field_id d field +:+ "-error")) →
  error_text (showFieldError d field msg) field = Some (to_text msg).
Proof.
  intros Hfield [e He]. unfold error_text.
  pose proof (showFieldError_frame d field msg) as Hf.
  rewrite <- (field_id_frame _ _ field Hf), <- (getElementById_frame _ _ _ Hf), He.
  simpl. rewrite showFieldError_imap, list_lookup_imap, He.
  pose proof (error_element_ne_field d field e Hfield He) as Hne.
  apply getElementById_lt in He as (nd & -> & _). simpl. f_equal.
  unfold show_node. by repeat (case_decide; simplify_eq).
Qed.

Lemma display_state_imap (f : nat → Node → Node) (d : list Node) field :
  (∀ j nd, same_frame nd (f j nd)) →
  display_state (imap f d) field =
  (aria_invalid <$> (f field <$> d !! field),
   from_option (λ nd, bool_decide ("error" ∈ classList (f field nd))) false (d !! field),
   e ← getElementById d (field_id d field +:+ "-error"); textContent <$> (f e <$> d !! e),
   (λ e, from_option (λ nd, bool_decide ("show" ∈ classList (f e nd))) false (d !! e))
     <$> getElementById d (field_id d field +:+ "-error")).
Proof.
  intros Hf. pose proof (frame_imap f d Hf) as Hfr.
  unfold display_state, error_text, has_class.
  rewrite <- (field_id_frame _ _ field Hfr), <- (getElementById_frame _ _ _ Hfr).
  rewrite !list_lookup_imap.
  destruct (getElementById d _) as [e|]; simpl; rewrite ?list_lookup_imap;
    destruct (d !! field); simpl; try done.
  - by destruct (d !! e).
  - by destruct (d !! e).
Qed.

Lemma validateField_doc (reg : gmap string RuleConfig) (d : list Node) field rules :
  (validateField reg d field rules).2 =
  match (run_rules reg (field_value d field) rules).2 with
  | Invalid msg => showFieldError (clearFieldError d field) field msg
  | _ => clearFieldError d field
  end.
Proof.
  unfold validateField. destruct (run_rules _ _ _) as [w [|m|]]; done.
Qed.

Lemma validateField_completion (reg : gmap string RuleConfig) (d : list Node) field rules :
  (validateField reg d field rules).1.1 =
  match (run_rules reg (field_value d field) rules).2 with
  | Valid => Return true
  | Invalid _ => Return false
  | TypeError => Throw
  end.
Proof.
  unfold validateField. destruct (run_rules _ _ _) as [w [|m|]]; done.
Qed.

Lemma validateField_frame (reg : gmap string RuleConfig) (d : list Node) field rules :
  Forall2 same_frame d (validateField reg d field rules).2.
Proof.
  rewrite validateField_doc. destruct (run_rules _ _ _).2.
  - apply clearFieldError_frame.
  - eapply frame_trans; [apply clearFieldError_frame|apply showFieldError_frame].
  - apply clearFieldError_frame.
Qed.

Lemma validated_node_frame v e g field j nd :
  same_frame nd (validated_node v e g field j nd).
Proof.
  destruct v; simpl.
  - apply clear_node_frame.
  - eapply same_frame_trans; [apply clear_node_frame|apply show_node_frame].
  - apply clear_node_frame.
Qed.

Lemma validated_node_aria v e g field j nd :
  aria_invalid (validated_node v e g field j nd)
  = if decide (field = j) then Some (aria_for v) else aria_invalid nd.
Proof. destruct v; unfold validated_node, show_node, clear_node; by repeat case_decide. Qed.

Lemma validated_node_text v e g field j nd :
  textContent (validated_node v e g field j nd)
  = if decide (e = Some j) then text_for v else textContent nd.
Proof. destruct v; unfold validated_node, show_node, clear_node; by repeat case_decide. Qed.

Lemma validated_node_error v e g field j nd :
  bool_decide ("error" ∈ classList (validated_node v e g field j nd))
  = if decide (field = j) then is_invalid v else bool_decide ("error" ∈ classList nd).
Proof.
  destruct v; unfold validated_node, show_node, clear_node;
    destruct (decide (e = Some j)), (decide (field = j)), (decide (g = Some j)); simpl;
    first [apply bool_decide_ext; set_solver
          |apply bool_decide_eq_true; set_solver
          |apply bool_decide_eq_false; set_solver].
Qed.

Lemma validated_node_show v e g field j nd :
  bool_decide ("show" ∈ classList (validated_node v e g field j nd))
  = if decide (e = Some j) then is_invalid v else bool_decide ("show" ∈ classList nd).
Proof.
  destruct v; unfold validated_node, show_node, clear_node;
    destruct (decide (e = Some j)), (decide (field = j)), (decide (g = Some j)); simpl;
    first [apply bool_decide_ext; set_solver
          |apply bool_decide_eq_true; set_solver
          |apply bool_decide_eq_false; set_solver].
Qed.

Lemma validateField_imap (reg : gmap string RuleConfig) (d : list Node) field rules :
  (validateField reg d field rules).2 =
  imap (validated_node (run_rules reg (field_value d field) rules).2
          (getElementById d (field_id d field +:+ "-error"))
          (closest d field "form-group") field) d.
Proof.
  rewrite validateField_doc.
  destruct (run_rules _ _ _).2 as [|m|]; simpl; try apply clearFieldError_imap.
  pose proof (clearFieldError_frame d field) as Hc.
  rewrite showFieldError_imap.
  rewrite <- (field_id_frame _ _ field Hc), <- (getElementById_frame _ _ _ Hc),
    <- (closest_frame _ _ field Hc).
  rewrite clearFieldError_imap. apply list_eq. intros j.
  rewrite !list_lookup_imap. by destruct (d !! j).
Qed.

Lemma validateField_display (reg : gmap string RuleConfig) (d : list Node) field rules :
  is_Some (d !! field) →
  display_state (validateField reg d field rules).2 field
  = display_for d field (run_rules reg (field_value d field) rules).2.
Proof.
  intros [nd Hnd]. rewrite validateField_imap.
  rewrite display_state_imap by (intros; apply validated_node_frame).
  unfold display_for. rewrite Hnd. cbn [fmap option_fmap option_map from_option].
  rewrite validated_node_aria, validated_node_error.
  destruct (decide (field = field)) as [_|]; [|done].
  destruct (getElementById d _) as [e|] eqn:He; [|done].
  apply getElementById_lt in He as (nde & Hnde & _).
  cbn. rewrite Hnde. cbn.
  rewrite validated_node_text, validated_node_show.
  by destruct (decide (Some e = Some e)).
Qed.

Lemma validateField_display_other (reg : gmap string RuleConfig) (d : list Node)
    field field' rules :
  is_Some (d !! field) → is_Some (d !! field') →
  field_id d field ≠ field_id d field' →
  display_state (validateField reg d field' rules).2 field = display_state d field.
Proof.
  intros [nd Hnd] [nd' Hnd'] Hid. rewrite validateField_imap.
  rewrite display_state_imap by (intros; apply validated_node_frame).
  unfold display_state, error_text, has_class. rewrite Hnd.
  cbn [fmap option_fmap option_map from_option].
  assert (field' ≠ field) as Hne by (intros ->; done).
  rewrite validated_node_aria, validated_node_error.
  destruct (decide (field' = field)) as [|_]; [done|].
  destruct (getElementById d (field_id d field +:+ "-error")) as [e|] eqn:He; [|done].
  assert (getElementById d (field_id d field' +:+ "-error") ≠ Some e) as Hee.
  { intros He'. apply getElementById_lt in He as (x & Hx & Hi).
    apply getElementById_lt in He' as (x' & Hx' & Hi').
    rewrite Hx in Hx'. injection Hx' as <-. rewrite Hi in Hi'.
    by apply append_inj_l in Hi'. }
  cbn. destruct (d !! e) as [nde|]; cbn; [|done].
  rewrite validated_node_text, validated_node_show.
  by destruct (decide (getElementById d (field_id d field' +:+ "-error") = Some e)).
Qed.

Lemma run_rules_no_throw (reg : gmap string RuleConfig) v rules :
  Forall (resolves reg) rules → (run_rules reg v rules).2 ≠ TypeError.
Proof.
  intros H. destruct (run_rules_verdict reg v rules H) as [[-> _]|(?&?&?&_&_&_&->)]; done.
Qed.

Lemma display_for_frame (d d' : list Node) field v :
  Forall2 same_frame d d' → display_for d field v = display_for d' field v.
Proof.
  intros H. unfold display_for.
  by rewrite (field_id_frame _ _ field H), (getElementById_frame _ _ _ H).
Qed.

Lemma field_id_found (d : list Node) fid field :
  getElementById d fid = Some field → is_Some (d !! field) ∧ field_id d field = fid.
Proof.
  intros H. apply getElementById_lt in H as (nd & Hnd & Hid).
  split; [by eexists|]. unfold field_id. by rewrite Hnd.
Qed.

(** [validateForm] returns true exactly when every configured field of the
    document is valid; a TypeError is not a return. *)
Lemma validateForm_loop_true (reg : gmap string RuleConfig) (d0 : list Node) :
  ∀ (config : list (string * list string)) (isValid : bool) (d : list Node),
    Forall2 same_frame d0 d →
    (validateForm_loop reg isValid d config).1.1 = Return true
    ↔ isValid = true ∧ forallb (entry_valid reg d0) config = true.
Proof.
  induction config as [|[fid0 rules0] config IH]; intros isValid d Hfr.
  - simpl. split; [intros [= ->]; done|intros [-> _]; done].
  - cbn [validateForm_loop forallb]. unfold entry_valid at 1. cbn [fst snd].
    rewrite <- (getElementById_frame d0 d fid0 Hfr).
    destruct (getElementById d0 fid0) as [field0|] eqn:Hfield0.
    + pose proof (validateField_completion reg d field0 rules0) as Hc.
      pose proof (validateField_frame reg d field0 rules0) as Hf1.
      rewrite <- (field_value_frame d0 d field0 Hfr) in Hc.
      destruct (validateField reg d field0 rules0) as [[c w1] d1]. simpl in Hc, Hf1.
      assert (Forall2 same_frame d0 d1) as Hfr1 by eauto using frame_trans.
      destruct (run_rules reg (field_value d0 field0) rules0).2; subst c; cbn [is_valid].
      * specialize (IH isValid d1 Hfr1).
        destruct (validateForm_loop reg isValid d1 config) as [[c' w'] d'].
        simpl in *. rewrite IH. tauto.
      * specialize (IH false d1 Hfr1).
        destruct (validateForm_loop reg false d1 config) as [[c' w'] d'].
        simpl in *. rewrite IH. split; [intros [? _]; done|intros [_ ?]; done].
      * simpl. split; [done|intros [_ ?]; done].
    + rewrite (IH isValid d Hfr). simpl. tauto.
Qed.

Lemma validateForm_loop_spec (reg : gmap string RuleConfig) (d0 : list Node) :
  ∀ (config : list (string * list string)) (isValid : bool) (d : list Node),
    Forall2 same_frame d0 d →
    NoDup config.*1 →
    Forall (λ entry, Forall (resolves reg) entry.2) config →
    ∃ w d',
      validateForm_loop reg isValid d config
      = (Return (isValid && forallb (entry_valid reg d0) config), w, d')
      ∧ Forall2 same_frame d0 d'
      ∧ (∀ fid field, getElementById d0 fid = Some field → fid ∉ config.*1 →
           display_state d' field = display_state d field)
      ∧ (∀ fid rules field, (fid, rules) ∈ config →
           getElementById d0 fid = Some field →
           display_state d' field
           = display_for d0 field (run_rules reg (field_value d0 field) rules).2).
Proof.
  induction config as [|[fid0 rules0] config IH]; intros isValid d Hfr Hnd Hres.
  - exists [], d. simpl. rewrite andb_true_r. repeat split; auto.
    intros ??? Hin. by apply elem_of_nil in Hin.
  - rewrite fmap_cons in Hnd. apply NoDup_cons in Hnd as [Hfresh Hnd].
    apply Forall_cons in Hres as [Hres0 Hres]. cbn [fst snd] in Hres0, Hfresh.
    cbn [validateForm_loop forallb]. unfold entry_valid at 1. cbn [fst snd].
    rewrite <- (getElementById_frame d0 d fid0 Hfr).
    destruct (getElementById d0 fid0) as [field0|] eqn:Hfield0.
    + pose proof (validateField_completion reg d field0 rules0) as Hc.
      pose proof (validateField_frame reg d field0 rules0) as Hf1.
      pose proof (validateField_display reg d field0 rules0) as Hd1.
      pose proof (λ field, validateField_display_other reg d field field0 rules0) as Ho1.
      rewrite <- (field_value_frame d0 d field0 Hfr) in Hc, Hd1.
      pose proof (run_rules_no_throw reg (field_value d0 field0) rules0 Hres0) as Hnt.
      destruct (validateField reg d field0 rules0) as [[c w1] d1]. simpl in Hc, Hf1, Hd1, Ho1.
      destruct (field_id_found d0 fid0 field0 Hfield0) as [Hsome0 Hid0].
      assert (is_Some (d !! field0)) as Hsome0d.
      { destruct Hsome0 as [x Hx].
        destruct (Forall2_lookup_l _ _ _ _ _ Hfr Hx) as (y & Hy & _). by eexists. }
      assert (Forall2 same_frame d0 d1) as Hfr1 by eauto using frame_trans.
      set (fv := is_valid (run_rules reg (field_value d0 field0) rules0).2).
      assert (c = Return fv) as ->.
      { rewrite Hc. unfold fv. by destruct (run_rules _ _ _).2. }
      destruct (IH (if fv then isValid else false) d1 Hfr1 Hnd Hres)
        as (w & d' & Heq & Hfr' & Hother & Hown).
      rewrite Heq. exists (w1 ++ w), d'. repeat split; auto.
      * f_equal. f_equal. f_equal. by destruct fv, isValid.
      * intros fid field Hfield Hnotin.
        rewrite fmap_cons in Hnotin. cbn [fst] in Hnotin.
        apply not_elem_of_cons in Hnotin as [Hne Hnotin].
        rewrite (Hother fid field Hfield Hnotin).
        destruct (field_id_found d0 fid field Hfield) as [[x Hx] Hid].
        destruct (Forall2_lookup_l _ _ _ _ _ Hfr Hx) as (y & Hy & _).
        apply Ho1; [by eexists|done|].
        rewrite <- (field_id_frame d0 d field Hfr), <- (field_id_frame d0 d field0 Hfr).
        rewrite Hid, Hid0. congruence.
      * intros fid rules field Hin Hfield.
        apply elem_of_cons in Hin as [[= -> ->]|Hin].
        -- rewrite Hfield0 in Hfield. injection Hfield as <-.
           rewrite (Hother fid0 field0 Hfield0 Hfresh).
           rewrite (Hd1 Hsome0d). symmetry. by apply display_for_frame.
        -- eauto.
    + destruct (IH isValid d Hfr Hnd Hres) as (w & d' & Heq & Hfr' & Hother & Hown).
      rewrite Heq. exists w, d'. repeat split; auto.
      * intros fid field Hfield Hnotin.
        rewrite fmap_cons in Hnotin. apply not_elem_of_cons in Hnotin as [Hne Hnotin]. eauto.
      * intros fid rules field Hin Hfield.
        apply elem_of_cons in Hin as [[= -> ->]|Hin]; [congruence|eauto].
Qed.


(** *** The properties of the validation engine *)

(** The names of the registry of the script resolve. *)
Lemma default_rules_resolve rt rule :
  rule_name rule ∈ ["required"; "email"; "phone"; "minLength"; "maxLength"; "date"] →
  resolves (VALIDATION_RULES rt) rule.
Proof.
  unfold resolves. intros Hin.
  repeat (apply elem_of_cons in Hin as [->|Hin]; [done|]).
  by apply elem_of_nil in Hin.
Qed.

Ltac default_rules :=
  repeat constructor; apply default_rules_resolve; vm_compute; repeat constructor.

Lemma example_short_name rt :
  run_rules (VALIDATION_RULES rt) (of_string "a") ["required"; "minLength:2"]
  = ([], Invalid (Text "Must be at least 2 characters long")).
Proof. reflexivity. Qed.

Lemma example_empty_name rt :
  run_rules (VALIDATION_RULES rt) (of_string "") ["required"; "minLength:2"]
  = ([], Invalid (Text "This field is required")).
Proof. reflexivity. Qed.

Lemma validateField_invalid (reg : gmap string RuleConfig) (d : list Node) field rules w msg :
  run_rules reg (field_value d field) rules = (w, Invalid msg) →
  is_Some (d !! field) →
  let r := validateField reg d field rules in
  r.1.1 = Return false
  ∧ r.2 = showFieldError (clearFieldError d field) field msg
  ∧ (is_Some (getElementById d (field_id d field +:+ "-error")) →
     error_text r.2 field = Some (to_text msg)).
Proof.
  intros Hr Hfield. cbv zeta. unfold validateField. rewrite Hr. cbn [fst snd].
  split_and!; [done..|]. intros He.
  pose proof (clearFieldError_frame d field) as Hf.
  apply showFieldError_text.
  - destruct Hfield as [x Hx].
    destruct (Forall2_lookup_l _ _ _ _ _ Hf Hx) as (y & Hy & _). by eexists.
  - by rewrite <- (field_id_frame _ _ field Hf), <- (getElementById_frame _ _ _ Hf).
Qed.

(** Every rule list the script configures names rules of its registry. *)
Lemma FORM_CONFIGS_resolve rt :
  Forall (λ form, Forall (λ entry, Forall (resolves (VALIDATION_RULES rt)) entry.2)
                    form.2) FORM_CONFIGS.
Proof. repeat constructor; apply default_rules_resolve; vm_compute; repeat constructor. Qed.

(** C3. For every list of rule specifications and every value of a field,
    whenever [validateField] returns, it returns false if and only if the
    predicate of at least one rule of the list returns false on the value;
    it does return when the names of the list are rules of the registry or
    unknown to it; and the message it shows in the error element of the
    field is that of the first failing rule in list order.  With the rules
    [required] and [minLength:2], the value ["a"] fails with "Must be at
    least 2 characters long" and the empty value with "This field is
    required". *)
Theorem validateField_first_failing_rule
    (reg : gmap string RuleConfig) (d : list Node) (field : nat) (rules : list string) :
  is_Some (d !! field) →
  let v := field_value d field in
  let r := validateField reg d field rules in
  (∀ b, r.1.1 = Return b →
        (b = false ↔ ∃ rule, rule ∈ rules ∧ rule_fails reg v rule = true))
  ∧ (Forall (resolves reg) rules → ∃ b, r.1.1 = Return b)
  ∧ (∀ pre rule post,
       rules = pre ++ rule :: post →
       Forall (resolves reg) pre →
       Forall (λ x, rule_fails reg v x = false) pre →
       rule_fails reg v rule = true →
       r.1.1 = Return false
       ∧ r.2 = showFieldError (clearFieldError d field) field (rule_message reg rule)
       ∧ (is_Some (getElementById d (field_id d field +:+ "-error")) →
          error_text r.2 field = Some (to_text (rule_message reg rule))))
  ∧ (∀ rt, v = of_string "a" →
       let r := validateField (VALIDATION_RULES rt) d field ["required"; "minLength:2"] in
       r.1.1 = Return false
       ∧ (is_Some (getElementById d (field_id d field +:+ "-error")) →
          error_text r.2 field = Some "Must be at least 2 characters long"))
  ∧ (∀ rt, v = of_string "" →
       let r := validateField (VALIDATION_RULES rt) d field ["required"; "minLength:2"] in
       r.1.1 = Return false
       ∧ (is_Some (getElementById d (field_id d field +:+ "-error")) →
          error_text r.2 field = Some "This field is required")).
Proof.
  intros Hfield v r. split_and!.
  - intros b. unfold r. rewrite validateField_completion. fold v.
    destruct (run_rules reg v rules).2 as [|msg|] eqn:Hv; [| |done].
    + intros [= <-]. split; [done|].
      intros (rule & Hin & Hf). apply run_rules_valid in Hv.
      rewrite Forall_forall in Hv. rewrite (Hv rule Hin) in Hf. done.
    + intros [= <-]. split; [|done]. intros _.
      apply run_rules_invalid in Hv as (pre & rule & post & -> & _ & _ & Hf & _).
      exists rule. split; [|done]. set_solver.
  - intros Hres. unfold r. rewrite validateField_completion. fold v.
    pose proof (run_rules_no_throw reg v rules Hres) as Hnt.
    destruct (run_rules reg v rules).2; [by eexists..|done].
  - intros pre rule post -> Hres Hpre Hf.
    pose proof (run_rules_first_failure reg v pre rule post Hres Hpre Hf) as Hv.
    destruct (run_rules reg v (pre ++ rule :: post)) as [w verdict] eqn:Hr.
    simpl in Hv. subst verdict.
    by apply (validateField_invalid reg d field _ w).
  - intros rt Hv. cbv zeta.
    pose proof (validateField_invalid (VALIDATION_RULES rt) d field
                  ["required"; "minLength:2"] [] _
                  (eq_trans (f_equal (λ x, run_rules _ x _) Hv) (example_short_name rt))
                  Hfield) as (H1 & _ & H3).
    by split.
  - intros rt Hv. cbv zeta.
    pose proof (validateField_invalid (VALIDATION_RULES rt) d field
                  ["required"; "minLength:2"] [] _
                  (eq_trans (f_equal (λ x, run_rules _ x _) Hv) (example_empty_name rt))
                  Hfield) as (H1 & _ & H3).
    by split.
Qed.

Lemma validateField_first_failing_rule_witness :
  (validateField (VALIDATION_RULES example_runtime) (example_document "a" "") 1
     ["required"; "minLength:2"]).1.1 = Return false
  ∧ error_text
      (validateField (VALIDATION_RULES example_runtime) (example_document "a" "") 1
         ["required"; "minLength:2"]).2 1
    = Some "Must be at least 2 characters long"
  ∧ error_text
      (validateField (VALIDATION_RULES example_runtime) (example_document "a" "") 4
         ["required"; "minLength:2"]).2 4
    = Some "This field is required"
  ∧ (validateField (VALIDATION_RULES example_runtime) (example_document "ab" "") 1
       ["nonsuch"; "required"; "minLength:2"]).1.1 = Return true.
Proof.
  destruct (validateField_first_failing_rule (VALIDATION_RULES example_runtime)
              (example_document "a" "") 1 ["required"; "minLength:2"]
              ltac:(eexists; reflexivity)) as (_ & _ & _ & Hshort & _).
  destruct (validateField_first_failing_rule (VALIDATION_RULES example_runtime)
              (example_document "a" "") 4 ["required"; "minLength:2"]
              ltac:(eexists; reflexivity)) as (_ & _ & _ & _ & Hempty).
  destruct (validateField_first_failing_rule (VALIDATION_RULES example_runtime)
              (example_document "ab" "") 1 ["nonsuch"; "required"; "minLength:2"]
              ltac:(eexists; reflexivity)) as (Hiff & Hreturns & _).
  destruct (Hshort example_runtime eq_refl) as [H1 H2].
  destruct (Hempty example_runtime eq_refl) as [_ H3].
  split_and!.
  - exact H1.
  - apply H2. eexists. vm_compute. reflexivity.
  - apply H3. eexists. vm_compute. reflexivity.
  - destruct Hreturns as [[|] Hb]; [..|exact Hb|].
    { constructor; [vm_compute; discriminate|default_rules]. }
    destruct (proj1 (Hiff false Hb) eq_refl) as (rule & Hin & Hfails).
    repeat (apply elem_of_cons in Hin as [->|Hin]; [vm_compute in Hfails; discriminate Hfails|]).
    by apply elem_of_nil in Hin.
Defined.

(** C4. For every form configuration, [validateForm] returns true if and
    only if every configured field of the document passes its rule list.
    It returns when the rule names resolve, and it validates every
    configured field then (the entries of the object have distinct field
    ids): after the call each of them, before or after the first failure,
    carries the error display of its own result. *)
Theorem validateForm_checks_every_field
    (reg : gmap string RuleConfig) (d : list Node) (config : list (string * list string)) :
  ((validateForm reg d config).1.1 = Return true ↔
   ∀ fieldId rules field,
     (fieldId, rules) ∈ config → getElementById d fieldId = Some field →
     field_passes reg d field rules)
  ∧ (NoDup config.*1 →
     Forall (λ entry, Forall (resolves reg) entry.2) config →
     ∃ b warnings d',
       validateForm reg d config = (Return b, warnings, d')
       ∧ ∀ fieldId rules field,
           (fieldId, rules) ∈ config → getElementById d fieldId = Some field →
           display_state d' field
           = display_for d field (run_rules reg (field_value d field) rules).2).
Proof.
  split.
  - unfold validateForm.
    rewrite (validateForm_loop_true reg d config true d (frame_refl d)).
    rewrite forallb_forall. split.
    + intros [_ Hall] fieldId rules field Hin Hfield.
      apply list_elem_of_In in Hin. specialize (Hall _ Hin).
      unfold entry_valid in Hall. cbn [fst snd] in Hall. rewrite Hfield in Hall.
      unfold field_passes. by destruct (run_rules _ _ _).2.
    + intros Hall. split; [done|]. intros [fieldId rules] Hin.
      apply list_elem_of_In in Hin. unfold entry_valid. cbn [fst snd].
      destruct (getElementById d fieldId) as [field|] eqn:Hfield; [|done].
      by rewrite (Hall fieldId rules field Hin Hfield).
  - intros Hnd Hres.
    destruct (validateForm_loop_spec reg d config true d (frame_refl d) Hnd Hres)
      as (w & d' & Heq & _ & _ & Hown).
    by exists (forallb (entry_valid reg d) config), w, d'.
Qed.

Lemma validateForm_checks_every_field_witness :
  ∃ warnings d',
    validateForm (VALIDATION_RULES example_runtime) (example_document "" "nobody")
      contact_form = (Return false, warnings, d')
    ∧ display_state d' 1 = (Some (Some "true"), true, Some "This field is required", Some true)
    ∧ display_state d' 4
      = (Some (Some "true"), true, Some "Please enter a valid email address", Some true).
Proof.
  destruct (validateForm_checks_every_field (VALIDATION_RULES example_runtime)
              (example_document "" "nobody") contact_form) as (Htrue & Hall).
  destruct Hall as (b & w & d' & Heq & Hd).
  - apply (bool_decide_unpack _). vm_compute. exact I.
  - default_rules.
  - exists w, d'. split_and!.
    + rewrite Heq. f_equal. f_equal. f_equal. destruct b; [|done].
      assert (field_passes (VALIDATION_RULES example_runtime)
                (example_document "" "nobody") 1
                ["required"; "minLength:2"; "maxLength:100"]) as Hp.
      { apply (proj1 Htrue (f_equal (λ x, x.1.1) Heq) "contact-name"); [|reflexivity].
        apply list_elem_of_In. simpl. auto 10. }
      vm_compute in Hp. discriminate Hp.
    + rewrite (Hd "contact-name" ["required"; "minLength:2"; "maxLength:100"] 1%nat);
        [reflexivity| |reflexivity].
      apply list_elem_of_In. simpl. auto 10.
    + rewrite (Hd "contact-email" ["required"; "email"] 4%nat);
        [reflexivity| |reflexivity].
      apply list_elem_of_In. simpl. auto 10.
Defined.

(** A name every object inherits, such as [constructor], is not unknown to
    the lookup: it yields the inherited member, which is truthy and has no
    [test], and the call raises a TypeError.  No rule list of the script has
    such a name. *)
Lemma validateField_inherited_name_throws rt (d : list Node) (field : nat) :
  unknown (VALIDATION_RULES rt) "constructor" = false
  ∧ VALIDATION_RULES rt !! "constructor" = None
  ∧ validateField (VALIDATION_RULES rt) d field ["constructor"]
    = (Throw, [], clearFieldError d field)
  ∧ validateField (VALIDATION_RULES rt) d field []
    = (Return true, [], clearFieldError d field).
Proof. by split_and!. Qed.



(** C9. [validateField] is idempotent: a second run on the field, with its
    value and the rule list unchanged, returns the same result, writes the
    same warnings and leaves the document, and with it the error display of
    the field, as the first run left it. *)
Theorem validateField_idempotent
    (reg : gmap string RuleConfig) (d : list Node) (field : nat) (rules : list string) :
  let first := validateField reg d field rules in
  let second := validateField reg first.2 field rules in
  field_value first.2 field = field_value d field
  ∧ second.1.1 = first.1.1
  ∧ second.2 = first.2
  ∧ display_state second.2 field = display_state first.2 field.
Proof.
  cbv zeta. rewrite validateField_twice. split_and!; try done.
  symmetry. apply field_value_frame, validateField_frame.
Qed.

(** *** Further properties of the validation engine *)

Lemma nullable_matches r : nullable r = true ↔ matches r [].
Proof.
  induction r as [| |p|r1 IH1 r2 IH2|r1 IH1 r2 IH2|r IH]; cbn.
  - split; [done|]. inversion 1.
  - split; [constructor|done].
  - split; [done|]. inversion 1.
  - rewrite andb_true_iff, IH1, IH2. split.
    + intros [H1 H2]. by apply (matches_seq r1 r2 [] []).
    + inversion 1 as [| |? ? s1 s2 H1 H2 Heq Heq'| | | |]; subst.
      apply app_eq_nil in Heq' as [-> ->]. done.
  - rewrite orb_true_iff, IH1, IH2. split.
    + intros [H|H]; [by apply matches_alt_l|by apply matches_alt_r].
    + inversion 1; subst; auto.
  - split; [constructor|done].
Qed.

Lemma matches_star_cons r c s :
  matches (Star r) (c :: s) →
  ∃ s1 s2, s = s1 ++ s2 ∧ matches r (c :: s1) ∧ matches (Star r) s2.
Proof.
  intros H. remember (Star r) as r' eqn:Hr. remember (c :: s) as s' eqn:Hs.
  revert Hr c s Hs.
  induction H as [| | | | | |r0 s1 s2 H1 _ H2 IH2]; try done.
  intros Hr c s Hs. injection Hr as ->. destruct s1 as [|c1 s1].
  - cbn in Hs. by apply IH2.
  - cbn in Hs. injection Hs as -> <-. by exists s1, s2.
Qed.

Lemma deriv_matches r : ∀ c s, matches (deriv c r) s ↔ matches r (c :: s).
Proof.
  induction r as [| |p|r1 IH1 r2 IH2|r1 IH1 r2 IH2|r IH]; intros c s; cbn.
  - split; inversion 1.
  - split; inversion 1.
  - destruct (p c) eqn:Hp; split.
    + inversion 1. by constructor.
    + inversion 1; subst. constructor.
    + inversion 1.
    + inversion 1; subst. congruence.
  - assert (matches (Seq (deriv c r1) r2) s ↔
            ∃ s1 s2, s = s1 ++ s2 ∧ matches r1 (c :: s1) ∧ matches r2 s2) as Hseq.
    { split.
      - inversion 1; subst. eexists _, _. split; [done|]. by rewrite <- IH1.
      - intros (s1 & s2 & -> & H1 & H2). constructor; [by apply IH1|done]. }
    destruct (nullable r1) eqn:Hn.
    + split.
      * inversion 1 as [| | |? ? ? Hl|? ? ? Hr| |]; subst.
        -- apply Hseq in Hl as (s1 & s2 & -> & H1 & H2).
           by apply (matches_seq r1 r2 (c :: s1) s2).
        -- apply IH2 in Hr. apply nullable_matches in Hn.
           by apply (matches_seq r1 r2 [] (c :: s)).
      * inversion 1 as [| |? ? s1 s2 H1 H2 Heq Heq'| | | |]; subst.
        destruct s1 as [|c1 s1]; cbn in *.
        -- subst. apply matches_alt_r. by apply IH2.
        -- injection Heq' as -> <-. apply matches_alt_l. apply Hseq. eauto.
    + rewrite Hseq. split.
      * intros (s1 & s2 & -> & H1 & H2). by apply (matches_seq r1 r2 (c :: s1) s2).
      * inversion 1 as [| |? ? s1 s2 H1 H2 Heq Heq'| | | |]; subst.
        destruct s1 as [|c1 s1]; cbn in *.
        -- apply nullable_matches in H1. congruence.
        -- injection Heq' as -> <-. eauto.
  - split.
    + inversion 1; subst; [apply matches_alt_l|apply matches_alt_r]; by
        (apply IH1 || apply IH2).
    + inversion 1; subst; [apply matches_alt_l|apply matches_alt_r]; by
        (apply IH1 || apply IH2).
  - split.
    + inversion 1; subst. apply (matches_star_app r (c :: s1) s2); [by apply IH|done].
    + intros H. apply matches_star_cons in H as (s1 & s2 & -> & H1 & H2).
      constructor; [by apply IH|done].
Qed.

Lemma regex_test_matches s : ∀ r, regex_test r s = true ↔ matches r s.
Proof.
  induction s as [|c s IH]; intros r; cbn.
  - apply nullable_matches.
  - rewrite IH. apply deriv_matches.
Qed.

Lemma matches_class_iff p s : matches (Class p) s ↔ ∃ c, s = [c] ∧ p c = true.
Proof.
  split.
  - inversion 1; subst. eauto.
  - intros (c & -> & Hp). by constructor.
Qed.

Lemma matches_seq_iff r1 r2 s :
  matches (Seq r1 r2) s ↔ ∃ s1 s2, s = s1 ++ s2 ∧ matches r1 s1 ∧ matches r2 s2.
Proof.
  split.
  - inversion 1; subst. eauto.
  - intros (s1 & s2 & -> & H1 & H2). by constructor.
Qed.

Lemma matches_alt_iff r1 r2 s : matches (Alt r1 r2) s ↔ matches r1 s ∨ matches r2 s.
Proof.
  split.
  - inversion 1; subst; auto.
  - intros [H|H]; [by apply matches_alt_l|by apply matches_alt_r].
Qed.

Lemma matches_epsilon_iff s : matches Epsilon s ↔ s = [].
Proof. split; [by inversion 1|intros ->; constructor]. Qed.

Lemma matches_star_class p s :
  matches (Star (Class p)) s ↔ Forall (λ c, p c = true) s.
Proof.
  split.
  - intros H. remember (Star (Class p)) as r eqn:Hr.
    induction H as [| | | | | |r0 s1 s2 H1 _ H2 IH2]; try done.
    injection Hr as ->. apply matches_class_iff in H1 as (c & -> & Hp).
    constructor; [done|by apply IH2].
  - induction 1 as [|c s Hp _ IH]; [constructor|].
    apply (matches_star_app (Class p) [c] s); [by constructor|done].
Qed.

Lemma matches_plus_class p s :
  matches (Plus (Class p)) s ↔ s ≠ [] ∧ Forall (λ c, p c = true) s.
Proof.
  unfold Plus. rewrite matches_seq_iff. split.
  - intros (s1 & s2 & -> & H1 & H2). apply matches_class_iff in H1 as (c & -> & Hp).
    apply matches_star_class in H2. split; [done|by constructor].
  - intros [Hne H]. destruct H as [|c s Hp H]; [done|].
    exists [c], s. split_and!; [done|by constructor|by apply matches_star_class].
Qed.

Lemma matches_atleast_class n p : ∀ s,
  matches (AtLeast n (Class p)) s ↔ (n ≤ List.length s)%nat ∧ Forall (λ c, p c = true) s.
Proof.
  induction n as [|n IH]; intros s; cbn [AtLeast].
  - rewrite matches_star_class. split; [intros H; split; [lia|done]|by intros [_ H]].
  - rewrite matches_seq_iff. split.
    + intros (s1 & s2 & -> & H1 & H2). apply matches_class_iff in H1 as (c & -> & Hp).
      apply IH in H2 as [Hn H2]. cbn. split; [lia|by constructor].
    + intros [Hn H]. destruct H as [|c s Hp H]; [cbn in Hn; lia|].
      exists [c], s. split_and!; [done|by constructor|]. apply IH. cbn in Hn.
      split; [lia|done].
Qed.

Lemma matches_chr a s : matches (Chr a) s ↔ s = [N_of_ascii a].
Proof.
  unfold Chr. rewrite matches_class_iff. split.
  - intros (c & -> & Hc). apply N.eqb_eq in Hc. by subst.
  - intros ->. eexists. split; [done|]. apply N.eqb_refl.
Qed.

Lemma matches_opt_chr a s : matches (Opt (Chr a)) s ↔ s = [] ∨ s = [N_of_ascii a].
Proof. unfold Opt. by rewrite matches_alt_iff, matches_epsilon_iff, matches_chr. Qed.

(** *** White space and [trim] *)

Lemma trimStart_nil s : trimStart s = [] ↔ Forall (λ c, isWhiteSpace c = true) s.
Proof.
  induction s as [|c s IH]; cbn; [split; [constructor|done]|].
  destruct (isWhiteSpace c) eqn:Hc.
  - rewrite IH. split; [by constructor|by inversion 1].
  - split; [done|]. inversion 1; congruence.
Qed.

Lemma trimStart_blank s :
  Forall (λ c, isWhiteSpace c = true) (trimStart s)
  ↔ Forall (λ c, isWhiteSpace c = true) s.
Proof.
  induction s as [|c s IH]; cbn; [done|].
  destruct (isWhiteSpace c) eqn:Hc; [|done].
  rewrite IH. split; [by constructor|by inversion 1].
Qed.

Lemma trim_nil s : trim s = [] ↔ Forall (λ c, isWhiteSpace c = true) s.
Proof.
  unfold trim, trimEnd. rewrite <- trimStart_blank.
  generalize (trimStart s). intros t. split.
  - intros H. apply (f_equal (@rev N)) in H. rewrite rev_involutive in H. cbn in H.
    apply trimStart_nil in H. apply Forall_rev in H. by rewrite rev_involutive in H.
  - intros H. apply Forall_rev in H. apply trimStart_nil in H. by rewrite H.
Qed.

Lemma trimmed_length_pos s :
  (0 <? trimmed_length s)%N = true ↔ Exists (λ c, isWhiteSpace c = false) s.
Proof.
  unfold trimmed_length. rewrite N.ltb_lt. split.
  - intros H. assert (trim s ≠ []) as Hne by (intros E; rewrite E in H; cbn in H; lia).
    rewrite trim_nil in Hne. apply not_Forall_Exists in Hne; [|intros c; apply _].
    eapply Exists_impl; [exact Hne|]. intros c Hc. cbn in Hc. by destruct (isWhiteSpace c).
  - intros H. destruct (trim s) eqn:E; [|cbn; lia].
    apply trim_nil in E. apply Exists_exists in H as (c & Hin & Hc).
    rewrite Forall_forall in E. specialize (E c Hin). congruence.
Qed.

Lemma address_char_class c :
  negb (isWhiteSpace c || (c =? 64)%N) = true ↔ address_char c.
Proof.
  unfold address_char. rewrite negb_true_iff, orb_false_iff, N.eqb_neq. done.
Qed.

Lemma Forall_address_char s :
  Forall (λ c, negb (isWhiteSpace c || (c =? 64)%N) = true) s ↔ Forall address_char s.
Proof. apply Forall_proper; [|done]. intros c. apply address_char_class. Qed.

Lemma is_empty_nil (v : jsstring) : is_empty v = true ↔ v = [].
Proof. by destruct v. Qed.

Lemma required_accepts_non_blank_aux (v : jsstring) (p : option string) :
  test required v p = true ↔ Exists (λ c, isWhiteSpace c = false) v.
Proof.
  cbn. rewrite andb_true_iff, trimmed_length_pos. split; [by intros [_ H]|].
  intros H. split; [|done]. by destruct H.
Qed.

(** X1. The rule [required] accepts a value exactly when it holds a code
    unit that is not white space: the empty value and the values of white
    space only are rejected. *)
Theorem required_accepts_non_blank (v : jsstring) (p : option string) :
  test required v p = true ↔ Exists (λ c, isWhiteSpace c = false) v.
Proof. apply required_accepts_non_blank_aux. Qed.

Lemma email_accepts_address_shape_aux (v : jsstring) (p : option string) :
  test email v p = true ↔
  v = [] ∨ ∃ a b c, v = a ++ [64%N] ++ b ++ [46%N] ++ c
                    ∧ a ≠ [] ∧ b ≠ [] ∧ c ≠ []
                    ∧ Forall address_char (a ++ b ++ c).
Proof.
  cbn. destruct (is_empty v) eqn:He.
  { apply is_empty_nil in He. by split; [left|]. }
  rewrite regex_test_matches. unfold emailRegex. cbv zeta.
  rewrite matches_seq_iff. split.
  - intros (a & s1 & -> & Ha & H1). right.
    apply matches_seq_iff in H1 as (x & s2 & -> & Hx & H2).
    apply matches_seq_iff in H2 as (b & s3 & -> & Hb & H3).
    apply matches_seq_iff in H3 as (y & c & -> & Hy & Hc).
    apply matches_chr in Hx as ->. apply matches_chr in Hy as ->.
    apply matches_plus_class in Ha as [Ha1 Ha2], Hb as [Hb1 Hb2], Hc as [Hc1 Hc2].
    exists a, b, c. split_and!; try done.
    rewrite !Forall_app. by rewrite !Forall_address_char in *.
  - intros [->|(a & b & c & -> & Ha & Hb & Hc & H)]; [done|].
    rewrite !Forall_app, <- !Forall_address_char in H. destruct H as (Ha' & Hb' & Hc').
    exists a, ([64%N] ++ b ++ [46%N] ++ c). split_and!; [done|by apply matches_plus_class|].
    apply matches_seq_iff. exists [64%N], (b ++ [46%N] ++ c).
    split_and!; [done|by apply matches_chr|].
    apply matches_seq_iff. exists b, ([46%N] ++ c).
    split_and!; [done|by apply matches_plus_class|].
    apply matches_seq_iff. exists [46%N], c.
    split_and!; [done|by apply matches_chr|by apply matches_plus_class].
Qed.

(** X2. The rule [email] accepts the empty value and, besides it, exactly
    the values [a@b.c] in which [a], [b] and [c] are not empty and hold
    neither white space nor [@]. *)
Theorem email_accepts_address_shape (v : jsstring) (p : option string) :
  test email v p = true ↔
  v = [] ∨ ∃ a b c, v = a ++ [64%N] ++ b ++ [46%N] ++ c
                    ∧ a ≠ [] ∧ b ≠ [] ∧ c ≠ []
                    ∧ Forall address_char (a ++ b ++ c).
Proof. apply email_accepts_address_shape_aux. Qed.

Lemma remove_whitespace_spec v c :
  c ∈ remove_whitespace v → isWhiteSpace c = false.
Proof.
  unfold remove_whitespace. rewrite list_elem_of_In, filter_In, negb_true_iff.
  by intros [_ H].
Qed.

Lemma phone_char_class v body pre :
  remove_whitespace v = pre ++ body →
  Forall (λ c, isDigit c || isWhiteSpace c || (c =? 45)%N || (c =? 40)%N
               || (c =? 41)%N = true) body
  ↔ Forall phone_char body.
Proof.
  intros Hv. rewrite !Forall_forall. split; intros H c Hc.
  - specialize (H c Hc). assert (isWhiteSpace c = false) as Hw.
    { apply (remove_whitespace_spec v). rewrite Hv. apply elem_of_app. by right. }
    rewrite Hw, orb_false_r in H. rewrite !orb_true_iff, !N.eqb_eq in H.
    unfold phone_char. tauto.
  - specialize (H c Hc). unfold phone_char in H.
    rewrite !orb_true_iff, !N.eqb_eq. tauto.
Qed.

(** X3. The rule [phone] accepts the empty value and, besides it, exactly
    the values that, once their white space is removed, are an optional [+],
    an optional [(] and then at least ten digits, hyphens and parentheses.
    A value of white space only is therefore rejected, though the empty
    value passes. *)
Theorem phone_accepts_ten_digits (v : jsstring) (p : option string) :
  (test phone v p = true ↔
   v = [] ∨ ∃ plus paren body,
              remove_whitespace v = plus ++ paren ++ body
              ∧ (plus = [] ∨ plus = [43%N]) ∧ (paren = [] ∨ paren = [40%N])
              ∧ (10 ≤ List.length body)%nat ∧ Forall phone_char body)
  ∧ (v ≠ [] → Forall (λ c, isWhiteSpace c = true) v → test phone v p = false).
Proof.
  assert (test phone v p = true ↔
   v = [] ∨ ∃ plus paren body,
              remove_whitespace v = plus ++ paren ++ body
              ∧ (plus = [] ∨ plus = [43%N]) ∧ (paren = [] ∨ paren = [40%N])
              ∧ (10 ≤ List.length body)%nat ∧ Forall phone_char body) as Hiff.
  { cbn. destruct (is_empty v) eqn:He.
    { apply is_empty_nil in He. by split; [left|]. }
    rewrite regex_test_matches. unfold phoneRegex. cbv zeta.
    rewrite matches_seq_iff. split.
    - intros (plus & s1 & Hv & Hplus & H1). right.
      apply matches_seq_iff in H1 as (paren & body & -> & Hparen & Hbody).
      apply matches_opt_chr in Hplus, Hparen.
      apply matches_atleast_class in Hbody as [Hn Hbody].
      exists plus, paren, body. split_and!; try done.
      apply (phone_char_class v body (plus ++ paren)); [by rewrite <- app_assoc|done].
    - intros [->|(plus & paren & body & Hv & Hplus & Hparen & Hn & Hbody)]; [done|].
      exists plus, (paren ++ body). split_and!; [done|by apply matches_opt_chr|].
      apply matches_seq_iff. exists paren, body.
      split_and!; [done|by apply matches_opt_chr|].
      apply matches_atleast_class. split; [done|].
      apply (phone_char_class v body (plus ++ paren)); [by rewrite <- app_assoc|done]. }
  split; [exact Hiff|]. intros Hne Hblank.
  apply not_true_is_false. intros Ht.
  apply Hiff in Ht as [->|(plus & paren & body & Hv & _ & _ & Hn & _)]; [done|].
  assert (remove_whitespace v = []) as Hnil.
  { unfold remove_whitespace. clear -Hblank.
    induction Hblank as [|c s Hc _ IH]; [done|]. cbn. by rewrite Hc. }
  rewrite Hnil in Hv. symmetry in Hv. apply app_eq_nil in Hv as [_ Hv].
  apply app_eq_nil in Hv as [_ ->]. cbn in Hn. lia.
Qed.

Lemma ge_number_digits (len n : N) :
  ge_number len (Finite (inject_Z (Z.of_N n))) = true ↔ (n ≤ len)%N.
Proof. cbn. rewrite Qle_bool_iff, <- Zle_Qle. lia. Qed.

Lemma le_number_digits (len n : N) :
  le_number len (Finite (inject_Z (Z.of_N n))) = true ↔ (len ≤ n)%N.
Proof. cbn. rewrite Qle_bool_iff, <- Zle_Qle. lia. Qed.

(** X4. With a parameter written in decimal digits, [minLength] accepts
    the empty value and the values whose trimmed length is at least the
    number the digits denote, and [maxLength] the empty value and the values
    whose trimmed length is at most that number; without a parameter the
    bounds are 2 and 1000. *)
Theorem length_rules_bound_trimmed_length (rt : Runtime) (v : jsstring)
    (p : string) (n : N) :
  decimal_digits 0 p = Some n →
  (test (minLength rt) v (Some p) = true ↔ v = [] ∨ (n ≤ trimmed_length v)%N)
  ∧ (test (maxLength rt) v (Some p) = true ↔ v = [] ∨ (trimmed_length v ≤ n)%N)
  ∧ (test (minLength rt) v None = true ↔ v = [] ∨ (2 ≤ trimmed_length v)%N)
  ∧ (test (maxLength rt) v None = true ↔ v = [] ∨ (trimmed_length v ≤ 1000)%N).
Proof.
  intros Hp. cbn. unfold ToNumber. rewrite Hp.
  destruct (is_empty v) eqn:He.
  { apply is_empty_nil in He. split_and!; by split; [left|]. }
  assert (v ≠ []) as Hne by (by destruct v).
  pose proof (ge_number_digits (trimmed_length v) 2) as H2.
  pose proof (le_number_digits (trimmed_length v) 1000) as H1000.
  cbn in H2, H1000. rewrite H2, H1000, ge_number_digits, le_number_digits.
  split_and!; split; tauto.
Qed.

Lemma length_rules_bound_trimmed_length_witness :
  test (minLength example_runtime) (of_string " a ") (Some "2") = false
  ∧ test (maxLength example_runtime) (of_string " a ") (Some "1") = true.
Proof.
  destruct (length_rules_bound_trimmed_length example_runtime (of_string " a ")
              "2" 2 eq_refl) as (Hmin & _).
  destruct (length_rules_bound_trimmed_length example_runtime (of_string " a ")
              "1" 1 eq_refl) as (_ & Hmax & _).
  split.
  - destruct (test (minLength example_runtime) (of_string " a ") (Some "2")); [|done].
    destruct Hmin as [Hmin _]. destruct (Hmin eq_refl) as [H|H]; [done|].
    vm_compute in H. by destruct H.
  - apply Hmax. right. vm_compute. discriminate.
Defined.

Lemma split_on_no_colon name : no_colon name = true → split_on ":" name = (name, []).
Proof.
  induction name as [|a s IH]; [done|]. cbn [no_colon split_on].
  rewrite andb_true_iff, negb_true_iff. intros [Ha Hs]. by rewrite IH, Ha.
Qed.

Lemma split_on_colon name s :
  no_colon name = true →
  split_on ":" (name +:+ ":" +:+ s)
  = (name, (split_on ":" s).1 :: (split_on ":" s).2).
Proof.
  induction name as [|a t IH].
  - intros _. change ("" +:+ ":" +:+ s) with (String ":" s). cbn [split_on].
    destruct (split_on ":" s) as [hd tl]. by cbn.
  - cbn [no_colon]. rewrite andb_true_iff, negb_true_iff. intros [Ha Ht].
    change (String a t +:+ ":" +:+ s) with (String a (t +:+ ":" +:+ s)).
    cbn [split_on]. rewrite (IH Ht), Ha. done.
Qed.

Lemma run_rules_same_head (reg : gmap string RuleConfig) v r1 r2 rest :
  rule_name r1 = rule_name r2 → rule_param r1 = rule_param r2 →
  run_rules reg v (r1 :: rest) = run_rules reg v (r2 :: rest).
Proof.
  intros Hn Hp. rewrite !run_rules_cons. unfold rule_message. by rewrite Hn, Hp.
Qed.

(** X5. A rule specification is read as [name:param]: the name is what
    precedes the first colon, the parameter what stands between the first
    and the second, and whatever follows a second colon is ignored. *)
Theorem rule_reads_first_parameter_only (reg : gmap string RuleConfig)
    (v : jsstring) (name param more : string) (rest : list string) :
  no_colon name = true → no_colon param = true →
  rule_name (name +:+ ":" +:+ param +:+ ":" +:+ more) = name
  ∧ rule_param (name +:+ ":" +:+ param +:+ ":" +:+ more) = Some param
  ∧ run_rules reg v ((name +:+ ":" +:+ param +:+ ":" +:+ more) :: rest)
    = run_rules reg v ((name +:+ ":" +:+ param) :: rest).
Proof.
  intros Hname Hparam.
  assert (rule_name (name +:+ ":" +:+ param +:+ ":" +:+ more) = name) as Hn.
  { unfold rule_name. by rewrite split_on_colon. }
  assert (rule_param (name +:+ ":" +:+ param +:+ ":" +:+ more) = Some param) as Hp.
  { unfold rule_param. rewrite split_on_colon by done. cbn [snd head].
    by rewrite split_on_colon. }
  split_and!; [done..|]. apply run_rules_same_head.
  - rewrite Hn. unfold rule_name. by rewrite split_on_colon.
  - rewrite Hp. unfold rule_param. rewrite split_on_colon by done. cbn [snd head].
    by rewrite split_on_no_colon.
Qed.

Lemma rule_reads_first_parameter_only_witness :
  run_rules (VALIDATION_RULES example_runtime) (of_string "abc") ["minLength:5:1"]
  = run_rules (VALIDATION_RULES example_runtime) (of_string "abc") ["minLength:5"].
Proof.
  apply (rule_reads_first_parameter_only (VALIDATION_RULES example_runtime)
           (of_string "abc") "minLength" "5" "1" []); reflexivity.
Defined.

Lemma imap_imap {A B C} (f : nat → A → B) (g : nat → B → C) (l : list A) :
  imap g (imap f l) = imap (λ j x, g j (f j x)) l.
Proof.
  apply list_eq. intros i. rewrite !list_lookup_imap. by destruct (l !! i).
Qed.

Lemma set_class_same c b1 b2 (cl : gset string) :
  set_class c b2 (set_class c b1 cl) = set_class c (b2 ∪ b1) cl.
Proof.
  destruct b2 as [[]|], b1 as [[]|]; cbn; try done;
    apply set_eq; intros x; destruct (decide (x = c)); set_solver.
Qed.

Lemma set_class_comm c c' b b' (cl : gset string) :
  c ≠ c' → set_class c b (set_class c' b' cl) = set_class c' b' (set_class c b cl).
Proof.
  intros Hne. destruct b as [[]|], b' as [[]|]; cbn; try done;
    apply set_eq; intros x; destruct (decide (x = c)), (decide (x = c')); set_solver.
Qed.

Lemma apply_marks_then m1 m2 nd :
  apply_marks m2 (apply_marks m1 nd) = apply_marks (then_marks m1 m2) nd.
Proof.
  apply node_eq; cbn; try done.
  - by destruct (text_mark m2), (text_mark m1).
  - rewrite (set_class_comm "show" "has-error") by done.
    rewrite (set_class_comm "show" "error") by done.
    rewrite set_class_same.
    rewrite (set_class_comm "error" "has-error") by done.
    rewrite set_class_same, set_class_same. done.
  - by destruct (aria_mark m2), (aria_mark m1).
Qed.

Lemma then_marks_same m : then_marks m m = m.
Proof.
  destruct m as [t a s e g]. unfold then_marks. cbn.
  by destruct t, a, s, e, g.
Qed.

Lemma apply_marks_idem m nd : apply_marks m (apply_marks m nd) = apply_marks m nd.
Proof. by rewrite apply_marks_then, then_marks_same. Qed.

Lemma set_class_other c c' b (cl : gset string) :
  c ≠ c' → c' ∈ set_class c b cl ↔ c' ∈ cl.
Proof. intros Hne. destruct b as [[]|]; cbn; set_solver. Qed.

Lemma apply_marks_frame m nd : same_frame nd (apply_marks m nd).
Proof.
  split_and!; try done. cbn. by rewrite !set_class_other.
Qed.

Lemma clear_node_marks e g field j nd :
  clear_node e g field j nd = apply_marks (field_marks Valid e g field j) nd.
Proof.
  unfold clear_node, field_marks, apply_marks.
  apply node_eq; repeat case_decide; cbn; done.
Qed.

Lemma show_node_marks msg e g field j nd :
  show_node msg e g field j nd
  = apply_marks (field_marks (Invalid (Text msg)) e g field j) nd.
Proof.
  unfold show_node, field_marks, apply_marks.
  apply node_eq; repeat case_decide; cbn; done.
Qed.

Lemma then_field_marks v v' e g field j :
  then_marks (field_marks v e g field j) (field_marks v' e g field j)
  = field_marks v' e g field j.
Proof. unfold then_marks, field_marks. cbn. by repeat case_decide. Qed.

Lemma field_marks_text msg e g field j :
  field_marks (Invalid (Text (to_text msg))) e g field j
  = field_marks (Invalid msg) e g field j.
Proof. done. Qed.

Lemma validated_node_marks v e g field j nd :
  validated_node v e g field j nd = apply_marks (field_marks v e g field j) nd.
Proof.
  destruct v as [|msg|]; cbn [validated_node].
  - apply clear_node_marks.
  - by rewrite clear_node_marks, show_node_marks, apply_marks_then,
      then_field_marks, field_marks_text.
  - apply clear_node_marks.
Qed.

Lemma validated_node_over v v' e g field j nd :
  validated_node v' e g field j (validated_node v e g field j nd)
  = validated_node v' e g field j nd.
Proof. by rewrite !validated_node_marks, apply_marks_then, then_field_marks. Qed.

Lemma validateField_marks (reg : gmap string RuleConfig) (d0 d : list Node) field rules :
  Forall2 same_frame d0 d →
  (validateField reg d field rules).2
  = imap (λ j, apply_marks
                 (field_marks (run_rules reg (field_value d0 field) rules).2
                    (getElementById d0 (field_id d0 field +:+ "-error"))
                    (closest d0 field "form-group") field j)) d.
Proof.
  intros Hf. rewrite validateField_imap.
  rewrite <- (field_value_frame d0 d), <- (field_id_frame d0 d),
    <- (getElementById_frame d0 d), <- (closest_frame d0 d) by done.
  apply imap_ext. intros j nd _. apply validated_node_marks.
Qed.

Lemma validateField_result_frame (reg : gmap string RuleConfig) (d0 d : list Node)
    field rules :
  Forall2 same_frame d0 d →
  (validateField reg d field rules).1 = (validateField reg d0 field rules).1.
Proof.
  intros Hf. unfold validateField. rewrite <- (field_value_frame d0 d) by done.
  destruct (run_rules reg (field_value d0 field) rules) as [w [|msg|]]; done.
Qed.

Lemma validateForm_loop_marks (reg : gmap string RuleConfig) (d0 : list Node) :
  ∀ (config : list (string * list string)) (isValid : bool) (d : list Node),
    Forall2 same_frame d0 d →
    validateForm_loop reg isValid d config
    = ((validateForm_loop reg isValid d0 config).1,
       imap (λ j, apply_marks (form_marks reg d0 config j)) d).
Proof.
  induction config as [|[fieldId rules] rest IH]; intros isValid d Hf.
  - cbn. f_equal. apply list_eq. intros i. rewrite list_lookup_imap.
    destruct (d !! i) as [nd|]; [|done]. cbn. f_equal.
    apply node_eq; done.
  - cbn [validateForm_loop form_marks].
    rewrite <- (getElementById_frame d0 d) by done.
    destruct (getElementById d0 fieldId) as [field|]; [|by apply IH].
    pose proof (validateField_marks reg d0 d field rules Hf) as Hd.
    pose proof (validateField_result_frame reg d0 d field rules Hf) as Hr.
    pose proof (validateField_frame reg d field rules) as Hf'.
    pose proof (validateField_frame reg d0 field rules) as Hf0.
    pose proof (validateField_completion reg d0 field rules) as Hc.
    destruct (validateField reg d field rules) as [[c w] d'].
    destruct (validateField reg d0 field rules) as [[c0 w0] d0'].
    cbn in Hd, Hr, Hf', Hf0, Hc. injection Hr as -> ->. subst c0.
    destruct (run_rules reg (field_value d0 field) rules).2 as [|msg|] eqn:Hv.
    + rewrite (IH _ d' (frame_trans _ _ _ Hf Hf')).
      rewrite (IH _ d0' Hf0).
      destruct (validateForm_loop reg (if true then isValid else false) d0 rest)
        as [[c1 w1] d1]. cbn. f_equal. rewrite Hd, imap_imap.
      apply imap_ext. intros j nd _. cbn. by rewrite apply_marks_then.
    + rewrite (IH _ d' (frame_trans _ _ _ Hf Hf')).
      rewrite (IH _ d0' Hf0).
      destruct (validateForm_loop reg (if false then isValid else false) d0 rest)
        as [[c1 w1] d1]. cbn. f_equal. rewrite Hd, imap_imap.
      apply imap_ext. intros j nd _. cbn. by rewrite apply_marks_then.
    + cbn. by rewrite Hd.
Qed.

Lemma form_marks_frame (reg : gmap string RuleConfig) (d : list Node) config :
  Forall2 same_frame d (imap (λ j, apply_marks (form_marks reg d config j)) d).
Proof. apply frame_imap. intros j nd. apply apply_marks_frame. Qed.

(** X6. Validating a form a second time, with nothing changed in between,
    returns what the first validation returned, with the same warnings, and
    leaves the document as the first left it. *)
Theorem validateForm_idempotent (reg : gmap string RuleConfig) (d : list Node)
    (config : list (string * list string)) :
  validateForm reg (validateForm reg d config).2 config = validateForm reg d config.
Proof.
  unfold validateForm.
  rewrite (validateForm_loop_marks reg d config true d (frame_refl d)). cbn [snd].
  rewrite (validateForm_loop_marks reg d config true _ (form_marks_frame reg d config)).
  f_equal. rewrite imap_imap. apply imap_ext. intros j nd _. apply apply_marks_idem.
Qed.

(** X7. Validation never touches what the visitor typed: on a page whose
    error elements hold text only, [validateForm] keeps the number of nodes
    and, of every node, its id, its value and its place in the tree; the
    lookups by id find the same elements after it. *)
Theorem validateForm_preserves_input (reg : gmap string RuleConfig) (d : list Node)
    (config : list (string * list string)) :
  holds_text_only d config = true →
  let d' := (validateForm reg d config).2 in
  length d' = length d
  ∧ (∀ j, field_value d' j = field_value d j ∧ field_id d' j = field_id d j)
  ∧ (∀ j, ancestors <$> d' !! j = ancestors <$> d !! j)
  ∧ (∀ s, getElementById d' s = getElementById d s).
Proof.
  intros _. cbv zeta. unfold validateForm.
  rewrite (validateForm_loop_marks reg d config true d (frame_refl d)). cbn [snd].
  pose proof (form_marks_frame reg d config) as Hf.
  split_and!.
  - by rewrite length_imap.
  - intros j. split; symmetry; [by apply field_value_frame|by apply field_id_frame].
  - intros j. rewrite list_lookup_imap. by destruct (d !! j).
  - intros s. symmetry. by apply getElementById_frame.
Qed.

Lemma validateForm_preserves_input_witness :
  let d := example_document "a" "nobody" in
  let d' := (validateForm (VALIDATION_RULES example_runtime) d contact_form).2 in
  length d' = 6%nat
  ∧ field_value d' 1 = of_string "a"
  ∧ getElementById d' "contact-email-error" = Some 5%nat.
Proof.
  cbv zeta.
  destruct (validateForm_preserves_input (VALIDATION_RULES example_runtime)
              (example_document "a" "nobody") contact_form eq_refl)
    as (Hlen & Hval & _ & Hid).
  split_and!.
  - etrans; [exact Hlen|reflexivity].
  - etrans; [exact (proj1 (Hval 1%nat))|reflexivity].
  - etrans; [exact (Hid "contact-email-error")|reflexivity].
Defined.

(** X8. The outcome of [validateField] does not depend on the error display
    the field had: validating after the errors of the field were cleared (as
    the [input] listener does) or after an error was shown gives the result
    and the document that validating at once gives. *)
Theorem validateField_overwrites_display (reg : gmap string RuleConfig)
    (d : list Node) (field : nat) (rules : list string) (msg : Message) :
  validateField reg (clearFieldError d field) field rules
  = validateField reg d field rules
  ∧ validateField reg (showFieldError d field msg) field rules
    = validateField reg d field rules.
Proof.
  set (e := getElementById d (field_id d field +:+ "-error")).
  set (g := closest d field "form-group").
  assert (∀ v, validateField reg
                 (imap (λ j, apply_marks (field_marks v e g field j)) d) field rules
               = validateField reg d field rules) as H.
  { intros v.
    assert (Forall2 same_frame d
              (imap (λ j, apply_marks (field_marks v e g field j)) d)) as Hf.
    { apply frame_imap. intros j nd. apply apply_marks_frame. }
    pose proof (validateField_result_frame reg d _ field rules Hf) as Hr.
    pose proof (validateField_marks reg d _ field rules Hf) as Hd.
    pose proof (validateField_marks reg d d field rules (frame_refl d)) as Hd0.
    destruct (validateField reg (imap _ d) field rules) as [r d1].
    destruct (validateField reg d field rules) as [r0 d2].
    cbn in Hr, Hd, Hd0. subst r. f_equal. rewrite Hd, Hd0, imap_imap.
    apply imap_ext. intros j nd _. cbn. fold e g.
    by rewrite apply_marks_then, then_field_marks. }
  split.
  - rewrite clearFieldError_imap. fold e g. rewrite <- (H Valid). f_equal.
    apply imap_ext. intros j nd _. apply clear_node_marks.
  - rewrite showFieldError_imap. fold e g.
    rewrite <- (H (Invalid (Text (to_text msg)))). f_equal.
    apply imap_ext. intros j nd _. apply show_node_marks.
Qed.

Lemma foldl_pointwise {A B} (f g : A → B → A) (l : list B) : ∀ a,
  (∀ a b, f a b = g a b) → foldl f a l = foldl g a l.
Proof.
  induction l as [|b l IH]; intros a H; [done|]. cbn. rewrite H. by apply IH.
Qed.

Lemma alter_imap {A} (f : A → A) (a : nat) (d : list A) :
  alter f a d = imap (λ j x, if bool_decide (j = a) then f x else x) d.
Proof.
  apply list_eq. intros i. rewrite list_lookup_imap.
  destruct (decide (i = a)) as [->|Hne].
  - rewrite list_lookup_alter_eq. destruct (d !! a); [|done]. cbn.
    by rewrite bool_decide_eq_true_2.
  - rewrite list_lookup_alter_ne by done. destruct (d !! i); [|done]. cbn.
    by rewrite bool_decide_eq_false_2.
Qed.

Lemma foldl_alter_imap {A} (f : A → A) (l : list nat) : ∀ d : list A,
  NoDup l →
  foldl (λ d j, alter f j d) d l
  = imap (λ j x, if bool_decide (j ∈ l) then f x else x) d.
Proof.
  induction l as [|a l IH]; intros d Hnd.
  - cbn. apply list_eq. intros i. rewrite list_lookup_imap. by destruct (d !! i).
  - apply NoDup_cons in Hnd as [Ha Hnd]. cbn [foldl]. rewrite IH by done.
    rewrite alter_imap, imap_imap. apply imap_ext. intros j x _. cbn.
    destruct (decide (j = a)) as [->|Hne].
    + rewrite (bool_decide_eq_false_2 (a ∈ l)) by done.
      rewrite bool_decide_eq_true_2 by done.
      rewrite (bool_decide_eq_true_2 (a ∈ a :: l)) by set_solver. done.
    + rewrite (bool_decide_eq_false_2 (j = a)) by done.
      destruct (decide (j ∈ l)).
      * rewrite !bool_decide_eq_true_2 by set_solver. done.
      * rewrite !bool_decide_eq_false_2 by set_solver. done.
Qed.

Lemma elem_of_querySelectorAll (d : list Node) form selector j :
  j ∈ querySelectorAll d form selector
  ↔ ∃ nd, d !! j = Some nd ∧ form ∈ ancestors nd
          ∧ matches_selector selector nd = true.
Proof.
  unfold querySelectorAll. rewrite list_elem_of_In, filter_In, <- list_elem_of_In.
  rewrite elem_of_seq. split.
  - intros [_ H]. destruct (d !! j) as [nd|]; [|done]. cbn in H.
    apply andb_true_iff in H as [H1 H2]. apply bool_decide_eq_true in H1. eauto.
  - intros (nd & Hj & Ha & Hm). split.
    + apply lookup_lt_Some in Hj. lia.
    + rewrite Hj. cbn. rewrite Hm, andb_true_r. by apply bool_decide_eq_true.
Qed.

Lemma NoDup_querySelectorAll (d : list Node) form selector :
  NoDup (querySelectorAll d form selector).
Proof.
  unfold querySelectorAll.
  apply NoDup_ListNoDup, List.NoDup_filter, NoDup_ListNoDup, NoDup_seq.
Qed.

(** A loop of [resetFormValidation] over the matches of a selector. *)
Lemma reset_loop (f : Node → Node) (d : list Node) form selector :
  foldl (λ d j, alter f j d) d (querySelectorAll d form selector)
  = imap (λ _ nd, if bool_decide (form ∈ ancestors nd) && matches_selector selector nd
                  then f nd else nd) d.
Proof.
  rewrite foldl_alter_imap by apply NoDup_querySelectorAll.
  apply imap_ext. intros j nd Hj.
  destruct (decide (j ∈ querySelectorAll d form selector)) as [Hin|Hin].
  - rewrite bool_decide_eq_true_2 by done.
    apply elem_of_querySelectorAll in Hin as (nd' & Hj' & Ha & Hm).
    assert (nd' = nd) as -> by congruence.
    by rewrite Hm, bool_decide_eq_true_2.
  - rewrite bool_decide_eq_false_2 by done.
    destruct (bool_decide (form ∈ ancestors nd) && matches_selector selector nd)
      eqn:E; [|done].
    apply andb_true_iff in E as [E1 E2]. apply bool_decide_eq_true in E1.
    exfalso. apply Hin. apply elem_of_querySelectorAll. eauto.
Qed.

Lemma resetFormValidation_imap (d : list Node) formId form :
  getElementById d formId = Some form →
  resetFormValidation d formId
  = imap (λ _ nd, if bool_decide (form ∈ ancestors nd) then reset_node nd else nd) d.
Proof.
  intros Hform. unfold resetFormValidation. rewrite Hform. cbv zeta.
  rewrite reset_loop.
  rewrite (foldl_pointwise _
             (λ d j, alter (set_aria_invalid "false" ∘ classList_remove "error") j d))
    by (intros; by rewrite list_alter_alter_eq).
  rewrite reset_loop, reset_loop, !imap_imap.
  apply imap_ext. intros j nd _. cbn beta.
  unfold reset_node, step_group, step_error, step_show.
  destruct (bool_decide (form ∈ ancestors nd)) eqn:Ha; cbn [andb].
  - destruct (matches_selector [["form-error"; "show"]] nd); cbn [ancestors classList_remove];
      rewrite Ha; cbn [andb];
      match goal with |- context [matches_selector [["form-input"; "error"]; _; _] ?x] =>
        destruct (matches_selector [["form-input"; "error"]; ["form-select"; "error"];
                                    ["form-textarea"; "error"]] x) end;
      cbn [ancestors classList_remove set_aria_invalid compose]; rewrite Ha; done.
  - rewrite Ha. cbn [andb]. by rewrite Ha.
Qed.

Lemma matches_selector_true selector nd :
  matches_selector selector nd = true
  ↔ Exists (Forall (λ c, c ∈ classList nd)) selector.
Proof.
  unfold matches_selector. rewrite existsb_exists, Exists_exists.
  split; intros (alt & Hin & H); exists alt.
  - rewrite list_elem_of_In. split; [done|]. rewrite Forall_forall. intros c Hc.
    rewrite forallb_forall in H. apply list_elem_of_In in Hc.
    specialize (H c Hc). by apply bool_decide_eq_true in H.
  - rewrite <- list_elem_of_In. split; [done|]. rewrite forallb_forall. intros c Hc.
    rewrite Forall_forall in H. apply list_elem_of_In in Hc.
    apply bool_decide_eq_true. by apply H.
Qed.

Lemma matches_selector_mono selector nd nd' :
  classList nd' ⊆ classList nd →
  matches_selector selector nd = false → matches_selector selector nd' = false.
Proof.
  intros Hsub Hf. apply not_true_is_false. intros Ht.
  apply not_true_iff_false in Hf. apply Hf.
  apply matches_selector_true. apply matches_selector_true in Ht.
  eapply Exists_impl; [exact Ht|]. intros alt Halt.
  eapply Forall_impl; [exact Halt|]. intros c Hc. by apply Hsub.
Qed.

Lemma matches_selector_removed selector c nd :
  Forall (λ alt, c ∈ alt) selector →
  matches_selector selector (classList_remove c nd) = false.
Proof.
  intros Hall. apply not_true_is_false. intros Ht.
  apply matches_selector_true in Ht. apply Exists_exists in Ht as (alt & Hin & Halt).
  rewrite Forall_forall in Hall. rewrite Forall_forall in Halt.
  specialize (Halt c (Hall alt Hin)).
  cbn in Halt. set_solver.
Qed.

Lemma reset_node_steps nd : reset_node nd = step_group (step_error (step_show nd)).
Proof. done. Qed.

Lemma step_show_sub nd : classList (step_show nd) ⊆ classList nd.
Proof. unfold step_show. destruct (matches_selector _ nd); cbn; set_solver. Qed.
Lemma step_error_sub nd : classList (step_error nd) ⊆ classList nd.
Proof. unfold step_error. destruct (matches_selector _ nd); cbn; set_solver. Qed.
Lemma step_group_sub nd : classList (step_group nd) ⊆ classList nd.
Proof. unfold step_group. destruct (matches_selector _ nd); cbn; set_solver. Qed.

Lemma reset_node_sub nd : classList (reset_node nd) ⊆ classList nd.
Proof.
  rewrite reset_node_steps.
  etrans; [apply step_group_sub|]. etrans; [apply step_error_sub|apply step_show_sub].
Qed.

Lemma step_show_done nd : matches_selector [["form-error"; "show"]] (step_show nd) = false.
Proof.
  unfold step_show. destruct (matches_selector _ nd) eqn:E; [|done].
  apply matches_selector_removed. repeat constructor.
Qed.

Lemma step_error_done nd :
  matches_selector [["form-input"; "error"]; ["form-select"; "error"];
                    ["form-textarea"; "error"]] (step_error nd) = false.
Proof.
  unfold step_error. destruct (matches_selector _ nd) eqn:E; [|done].
  change (matches_selector ?s (set_aria_invalid ?a ?x)) with (matches_selector s x).
  apply matches_selector_removed. repeat constructor.
Qed.

Lemma step_group_done nd :
  matches_selector [["form-group"; "has-error"]] (step_group nd) = false.
Proof.
  unfold step_group. destruct (matches_selector _ nd) eqn:E; [|done].
  apply matches_selector_removed. repeat constructor.
Qed.

Lemma reset_node_done nd :
  matches_selector [["form-error"; "show"]] (reset_node nd) = false
  ∧ matches_selector [["form-input"; "error"]; ["form-select"; "error"];
                      ["form-textarea"; "error"]] (reset_node nd) = false
  ∧ matches_selector [["form-group"; "has-error"]] (reset_node nd) = false.
Proof.
  rewrite reset_node_steps. split_and!.
  - apply (matches_selector_mono _ (step_show nd)); [|apply step_show_done].
    etrans; [apply step_group_sub|apply step_error_sub].
  - apply (matches_selector_mono _ (step_error (step_show nd)));
      [apply step_group_sub|apply step_error_done].
  - apply step_group_done.
Qed.

Lemma reset_node_fixed nd :
  matches_selector [["form-error"; "show"]] nd = false →
  matches_selector [["form-input"; "error"]; ["form-select"; "error"];
                    ["form-textarea"; "error"]] nd = false →
  matches_selector [["form-group"; "has-error"]] nd = false →
  reset_node nd = nd.
Proof.
  intros H1 H2 H3. unfold reset_node, step_group, step_error, step_show.
  by rewrite H1, H2, H3.
Qed.

Lemma reset_node_fields nd :
  id (reset_node nd) = id nd ∧ value (reset_node nd) = value nd
  ∧ textContent (reset_node nd) = textContent nd
  ∧ ancestors (reset_node nd) = ancestors nd.
Proof.
  rewrite reset_node_steps. unfold step_group, step_error, step_show.
  repeat match goal with |- context [matches_selector ?s ?x] =>
    destruct (matches_selector s x) end; done.
Qed.

Lemma reset_node_other c nd :
  c ≠ "show" → c ≠ "error" → c ≠ "has-error" →
  c ∈ classList (reset_node nd) ↔ c ∈ classList nd.
Proof.
  intros H1 H2 H3. rewrite reset_node_steps. unfold step_group, step_error, step_show.
  repeat match goal with |- context [matches_selector ?s ?x] =>
    destruct (matches_selector s x) end; cbn; set_solver.
Qed.

Lemma reset_node_frame nd : same_frame nd (reset_node nd).
Proof.
  destruct (reset_node_fields nd) as (Hi & Hv & _ & Ha).
  split_and!; try done. symmetry. by apply reset_node_other.
Qed.

Lemma resetFormValidation_frame (d : list Node) formId :
  Forall2 same_frame d (resetFormValidation d formId).
Proof.
  destruct (getElementById d formId) as [form|] eqn:Hform.
  - rewrite (resetFormValidation_imap d formId form Hform). apply frame_imap.
    intros _ nd. destruct (bool_decide _); [apply reset_node_frame|apply same_frame_refl].
  - unfold resetFormValidation. rewrite Hform. apply frame_refl.
Qed.

Lemma querySelectorAll_nil (d : list Node) form selector :
  (∀ j nd, d !! j = Some nd → form ∈ ancestors nd →
           matches_selector selector nd = false) →
  querySelectorAll d form selector = [].
Proof.
  intros H. destruct (querySelectorAll d form selector) as [|j l] eqn:E; [done|].
  assert (j ∈ querySelectorAll d form selector) as Hin by (rewrite E; set_solver).
  apply elem_of_querySelectorAll in Hin as (nd & Hj & Ha & Hm).
  rewrite (H j nd Hj Ha) in Hm. done.
Qed.

(** X9. Once [resetFormValidation] has run on a form of the page, no element
    inside the form matches any of the three selectors it clears, and a
    second run changes nothing. *)
Theorem resetFormValidation_clears_form (d : list Node) (formId : string)
    (form : nat) :
  getElementById d formId = Some form →
  let d' := resetFormValidation d formId in
  querySelectorAll d' form [["form-error"; "show"]] = []
  ∧ querySelectorAll d' form [["form-input"; "error"]; ["form-select"; "error"];
                              ["form-textarea"; "error"]] = []
  ∧ querySelectorAll d' form [["form-group"; "has-error"]] = []
  ∧ resetFormValidation d' formId = d'.
Proof.
  intros Hform d'.
  assert (∀ j nd', d' !! j = Some nd' → form ∈ ancestors nd' →
            ∃ nd, nd' = reset_node nd) as Hnode.
  { intros j nd' Hj Ha. unfold d' in Hj.
    rewrite (resetFormValidation_imap d formId form Hform), list_lookup_imap in Hj.
    destruct (d !! j) as [nd|]; [|done]. cbn in Hj. injection Hj as <-.
    destruct (bool_decide (form ∈ ancestors nd)) eqn:E; [by exists nd|].
    apply bool_decide_eq_false in E. done. }
  split_and!.
  - apply querySelectorAll_nil. intros j nd' Hj Ha.
    destruct (Hnode j nd' Hj Ha) as [nd ->]. apply reset_node_done.
  - apply querySelectorAll_nil. intros j nd' Hj Ha.
    destruct (Hnode j nd' Hj Ha) as [nd ->]. apply reset_node_done.
  - apply querySelectorAll_nil. intros j nd' Hj Ha.
    destruct (Hnode j nd' Hj Ha) as [nd ->]. apply reset_node_done.
  - assert (getElementById d' formId = Some form) as Hform'.
    { rewrite <- Hform. symmetry. apply getElementById_frame.
      apply resetFormValidation_frame. }
    rewrite (resetFormValidation_imap d' formId form Hform').
    apply list_eq. intros j. rewrite list_lookup_imap.
    destruct (d' !! j) as [nd'|] eqn:Hj; [|done]. cbn. f_equal.
    destruct (bool_decide (form ∈ ancestors nd')) eqn:E; [|done].
    apply bool_decide_eq_true in E. destruct (Hnode j nd' Hj E) as [nd ->].
    destruct (reset_node_done nd) as (H1 & H2 & H3). by apply reset_node_fixed.
Qed.

Lemma resetFormValidation_clears_form_witness :
  let d := showFieldError (example_form "") 2 (Text "This field is required") in
  querySelectorAll (resetFormValidation d "contact-form") 0 [["form-error"; "show"]]
  = [].
Proof.
  cbv zeta.
  apply (resetFormValidation_clears_form
           (showFieldError (example_form "") 2 (Text "This field is required"))
           "contact-form" 0).
  reflexivity.
Defined.

(** X10. [resetFormValidation] keeps the content of the page: it keeps the
    number of nodes and, of every node, the id, the value, the text (an
    error message stays in its element) and the place in the tree, and it
    adds no class; it leaves the nodes outside the form as they are, and the
    whole document when the page has no element of that id. *)
Theorem resetFormValidation_keeps_content (d : list Node) (formId : string) :
  let d' := resetFormValidation d formId in
  length d' = length d
  ∧ (∀ j nd, d !! j = Some nd →
       ∃ nd', d' !! j = Some nd'
              ∧ id nd' = id nd ∧ value nd' = value nd
              ∧ textContent nd' = textContent nd ∧ ancestors nd' = ancestors nd
              ∧ classList nd' ⊆ classList nd
              ∧ (∀ form, getElementById d formId = Some form →
                         form ∉ ancestors nd → nd' = nd))
  ∧ (getElementById d formId = None → d' = d).
Proof.
  cbv zeta. destruct (getElementById d formId) as [form|] eqn:Hform.
  - rewrite (resetFormValidation_imap d formId form Hform). split_and!.
    + by rewrite length_imap.
    + intros j nd Hj. rewrite list_lookup_imap, Hj. cbn.
      destruct (bool_decide (form ∈ ancestors nd)) eqn:E.
      * exists (reset_node nd). destruct (reset_node_fields nd) as (Hi & Hv & Ht & Ha).
        split_and!; try done; [apply reset_node_sub|].
        intros form' [= <-] Hout. by apply bool_decide_eq_true in E.
      * exists nd. by split_and!.
    + done.
  - unfold resetFormValidation. rewrite Hform. split_and!; [done| |done].
    intros j nd Hj. exists nd. by split_and!.
Qed.

Lemma reset_node_field c nd :
  c ∈ ["form-input"; "form-select"; "form-textarea"] →
  c ∈ classList nd → "error" ∈ classList nd →
  aria_invalid (reset_node nd) = Some "false" ∧ "error" ∉ classList (reset_node nd).
Proof.
  intros Hc Hin Herr.
  assert (matches_selector [["form-input"; "error"]; ["form-select"; "error"];
                            ["form-textarea"; "error"]] (step_show nd) = true) as Hm.
  { apply matches_selector_true.
    assert (∀ x, x ≠ "show" → x ∈ classList nd → x ∈ classList (step_show nd)) as Hkeep.
    { intros x Hx Hx'. unfold step_show. destruct (matches_selector _ nd); [|done].
      cbn. set_solver. }
    assert (c ∈ classList (step_show nd)) as Hc'.
    { apply Hkeep; [|done]. intros ->.
      repeat (apply elem_of_cons in Hc as [Hc|Hc]; [done|]). by apply elem_of_nil in Hc. }
    assert ("error" ∈ classList (step_show nd)) as He' by (by apply Hkeep).
    apply elem_of_cons in Hc as [->|Hc]; [by repeat constructor|].
    apply elem_of_cons in Hc as [->|Hc];
      [apply Exists_cons_tl; by repeat constructor|].
    apply elem_of_cons in Hc as [->|Hc];
      [do 2 apply Exists_cons_tl; by repeat constructor|].
    by apply elem_of_nil in Hc. }
  unfold reset_node.
  assert (step_error (step_show nd)
          = set_aria_invalid "false" (classList_remove "error" (step_show nd))) as ->
    by (unfold step_error; by rewrite Hm).
  split.
  - unfold step_group. by destruct (matches_selector [["form-group"; "has-error"]] _).
  - intros Hin'. apply step_group_sub in Hin'. cbn in Hin'. set_solver.
Qed.

Lemma reset_node_error_element nd :
  "form-error" ∈ classList nd → "show" ∉ classList (reset_node nd).
Proof.
  intros Hin Hshow. destruct (reset_node_done nd) as (H1 & _).
  apply not_true_iff_false in H1. apply H1. apply matches_selector_true.
  constructor. repeat constructor; [|done]. by apply reset_node_other.
Qed.

Lemma apply_marks_other c m nd :
  c ≠ "show" → c ≠ "error" → c ≠ "has-error" →
  c ∈ classList (apply_marks m nd) ↔ c ∈ classList nd.
Proof. intros H1 H2 H3. cbn. by rewrite !set_class_other. Qed.

Lemma apply_marks_error_in m nd :
  error_mark m = Some true → "error" ∈ classList (apply_marks m nd).
Proof.
  intros H. unfold apply_marks. cbn [classList]. rewrite H.
  apply (set_class_other "has-error" "error"); [done|]. cbn. set_solver.
Qed.

Lemma apply_marks_text m nd t :
  text_mark m = Some t → textContent (apply_marks m nd) = t.
Proof. intros H. unfold apply_marks. cbn [textContent]. by rewrite H. Qed.

(** X11. A failed validation followed by [resetFormValidation]: for a field
    of the form that is a form control, with its error element of class
    [form-error] inside the form, validation marks the field invalid and
    shows the message; the reset unmarks the field and hides the error
    element, and the message stays as the text of the hidden element. *)
Theorem reset_hides_error_keeps_text (reg : gmap string RuleConfig) (d : list Node)
    (formId c : string) (form field e : nat) (rules : list string) (msg : Message)
    (control errorElement : Node) :
  getElementById d formId = Some form →
  d !! field = Some control → form ∈ ancestors control →
  c ∈ ["form-input"; "form-select"; "form-textarea"] → c ∈ classList control →
  getElementById d (id control +:+ "-error") = Some e →
  d !! e = Some errorElement → form ∈ ancestors errorElement →
  "form-error" ∈ classList errorElement →
  (run_rules reg (value control) rules).2 = Invalid msg →
  let d1 := (validateField reg d field rules).2 in
  display_state d1 field
  = (Some (Some "true"), true, Some (to_text msg), Some true)
  ∧ display_state (resetFormValidation d1 formId) field
    = (Some (Some "false"), false, Some (to_text msg), Some false).
Proof.
  intros Hform Hfield Hfa Hc Hcin He Hel Hea Hecl Hv d1.
  assert (field_id d field = id control) as Hid by (unfold field_id; by rewrite Hfield).
  assert (field_value d field = value control) as Hval
    by (unfold field_value; by rewrite Hfield).
  assert (e ≠ field) as Hne.
  { apply (error_element_ne_field d); [by eexists|by rewrite Hid]. }
  split.
  - unfold d1. rewrite validateField_display by (by eexists).
    unfold display_for. by rewrite Hval, Hv, Hid, He.
  - pose proof (validateField_marks reg d d field rules (frame_refl d)) as Hd1.
    fold d1 in Hd1. rewrite Hval, Hv, Hid, He in Hd1.
    set (g := closest d field "form-group") in Hd1.
    assert (Forall2 same_frame d d1) as Hf1 by apply validateField_frame.
    assert (getElementById d1 formId = Some form) as Hform1
      by (by rewrite <- (getElementById_frame d d1)).
    rewrite (resetFormValidation_imap d1 formId form Hform1), Hd1, imap_imap.
    rewrite display_state_imap.
    2:{ intros j nd. cbn beta.
        destruct (bool_decide _);
          [eapply same_frame_trans; [apply apply_marks_frame|apply reset_node_frame]
          |apply apply_marks_frame]. }
    rewrite Hid, He. cbn [fmap option_fmap option_map from_option mbind option_bind].
    rewrite Hfield, Hel. cbn [fmap option_fmap option_map from_option mbind
                              option_bind].
    set (fm := field_marks (Invalid msg) (Some e) g field).
    rewrite (bool_decide_eq_true_2 (form ∈ ancestors (apply_marks (fm field) control)))
      by done.
    rewrite (bool_decide_eq_true_2
               (form ∈ ancestors (apply_marks (fm e) errorElement))) by done.
    assert (c ≠ "show" ∧ c ≠ "error" ∧ c ≠ "has-error") as (Hc1 & Hc2 & Hc3).
    { pose proof Hc as Hc'.
      repeat (apply elem_of_cons in Hc' as [->|Hc']; [by split_and!|]).
      by apply elem_of_nil in Hc'. }
    destruct (reset_node_field c (apply_marks (fm field) control)) as [Haria Herr].
    { done. }
    { by apply apply_marks_other. }
    { apply apply_marks_error_in. unfold fm. cbn. by rewrite decide_True. }
    pose proof (reset_node_error_element (apply_marks (fm e) errorElement)) as Hshow.
    destruct (reset_node_fields (apply_marks (fm e) errorElement)) as (_ & _ & Ht & _).
    rewrite Haria, Ht, (bool_decide_eq_false_2 _ Herr).
    rewrite bool_decide_eq_false_2.
    2:{ apply Hshow. by apply apply_marks_other. }
    rewrite (apply_marks_text _ _ (to_text msg)); [done|].
    unfold fm. cbn. by rewrite decide_True.
Qed.

Lemma reset_hides_error_keeps_text_witness :
  let d1 := (validateField (VALIDATION_RULES example_runtime) (example_form "") 2
               ["required"]).2 in
  display_state (resetFormValidation d1 "contact-form") 2
  = (Some (Some "false"), false, Some "This field is required", Some false).
Proof.
  cbv zeta.
  apply (reset_hides_error_keeps_text (VALIDATION_RULES example_runtime)
           (example_form "") "contact-form" "form-input" 0 2 3 ["required"]
           (Text "This field is required")
           (example_node "contact-name" "" "form-input" [1; 0]%nat)
           (example_node "contact-name-error" "" "form-error" [1; 0]%nat));
    first [ reflexivity
          | apply list_elem_of_In; simpl; auto 10
          | cbn; apply elem_of_singleton_2; reflexivity ].
Defined.

Lemma get_registry rt :
  get (VALIDATION_RULES rt) "required" = OwnRule required
  ∧ get (VALIDATION_RULES rt) "email" = OwnRule email
  ∧ get (VALIDATION_RULES rt) "phone" = OwnRule phone
  ∧ get (VALIDATION_RULES rt) "minLength" = OwnRule (minLength rt)
  ∧ get (VALIDATION_RULES rt) "maxLength" = OwnRule (maxLength rt)
  ∧ get (VALIDATION_RULES rt) "date" = OwnRule (date rt).
Proof. split_and!; reflexivity. Qed.

Lemma required_test v p : test required v p = negb (trimmed_length v =? 0)%N.
Proof.
  cbn. destruct v as [|c v]; [done|]. cbn [is_empty negb andb].
  by destruct (trimmed_length (c :: v)).
Qed.

Lemma trimmed_length_nonempty v : trimmed_length v ≠ 0%N → is_empty v = false.
Proof. by destruct v. Qed.

Lemma minLength_test rt v p n :
  decimal_digits 0 p = Some n → trimmed_length v ≠ 0%N →
  test (minLength rt) v (Some p) = negb (trimmed_length v <? n)%N.
Proof.
  intros Hp Hv. cbn. rewrite trimmed_length_nonempty by done.
  unfold ToNumber. rewrite Hp. apply eq_true_iff_eq.
  rewrite ge_number_digits, negb_true_iff, N.ltb_ge. done.
Qed.

Lemma maxLength_test rt v p n :
  decimal_digits 0 p = Some n → trimmed_length v ≠ 0%N →
  test (maxLength rt) v (Some p) = negb (n <? trimmed_length v)%N.
Proof.
  intros Hp Hv. cbn. rewrite trimmed_length_nonempty by done.
  unfold ToNumber. rewrite Hp. apply eq_true_iff_eq.
  rewrite le_number_digits, negb_true_iff, N.ltb_ge. done.
Qed.

Lemma window_verdict rt v lo hi nlo nhi :
  no_colon lo = true → no_colon hi = true →
  decimal_digits 0 lo = Some nlo → decimal_digits 0 hi = Some nhi →
  run_rules (VALIDATION_RULES rt) v
    ["required"; "minLength:" +:+ lo; "maxLength:" +:+ hi]
  = ([], if (trimmed_length v =? 0)%N then Invalid (Text "This field is required")
         else if (trimmed_length v <? nlo)%N
              then Invalid (Text ("Must be at least " +:+ lo +:+ " characters long"))
         else if (nhi <? trimmed_length v)%N
              then Invalid (Text ("Must be no more than " +:+ hi
                                  +:+ " characters long"))
         else Valid).
Proof.
  intros Hlo Hhi Hnlo Hnhi. destruct (get_registry rt) as (Hr & _ & _ & Hmin & Hmax & _).
  assert (rule_name ("minLength:" +:+ lo) = "minLength"
          ∧ rule_param ("minLength:" +:+ lo) = Some lo) as [Hn1 Hp1].
  { unfold rule_name, rule_param.
    change ("minLength:" +:+ lo) with ("minLength" +:+ ":" +:+ lo).
    rewrite (split_on_colon "minLength" lo eq_refl), split_on_no_colon by done. done. }
  assert (rule_name ("maxLength:" +:+ hi) = "maxLength"
          ∧ rule_param ("maxLength:" +:+ hi) = Some hi) as [Hn2 Hp2].
  { unfold rule_name, rule_param.
    change ("maxLength:" +:+ hi) with ("maxLength" +:+ ":" +:+ hi).
    rewrite (split_on_colon "maxLength" hi eq_refl), split_on_no_colon by done. done. }
  rewrite run_rules_cons. change (rule_name "required") with "required".
  rewrite Hr, required_test.
  destruct (trimmed_length v =? 0)%N eqn:E0.
  { cbn [negb]. unfold rule_message. change (rule_name "required") with "required".
    by rewrite Hr. }
  apply N.eqb_neq in E0. cbn [negb].
  rewrite run_rules_cons, Hn1, Hmin, Hp1, (minLength_test rt v lo nlo) by done.
  destruct (trimmed_length v <? nlo)%N.
  { cbn [negb]. unfold rule_message. by rewrite Hn1, Hmin, Hp1. }
  cbn [negb].
  rewrite run_rules_cons, Hn2, Hmax, Hp2, (maxLength_test rt v hi nhi) by done.
  destruct (nhi <? trimmed_length v)%N.
  { cbn [negb]. unfold rule_message. by rewrite Hn2, Hmax, Hp2. }
  done.
Qed.

Lemma member_missing {A} (obj : list (string * A)) key :
  key ∉ obj.*1 → key ∉ Object_prototype_names → member obj key = NoMember.
Proof.
  intros Hkey Hproto. unfold member.
  destruct (list_find (λ entry, entry.1 = key) obj) as [[i entry]|] eqn:E.
  - apply list_find_Some in E as (Hi & He & _). exfalso. apply Hkey.
    rewrite <- He. apply list_elem_of_fmap. exists entry. split; [done|].
    by eapply list_elem_of_lookup_2.
  - by rewrite bool_decide_eq_false_2.
Qed.

Lemma field_config_configured formId config fieldId rules :
  (formId, config) ∈ FORM_CONFIGS → (fieldId, rules) ∈ config →
  field_config fieldId = Own rules.
Proof.
  intros Hform Hfield.
  repeat (apply elem_of_cons in Hform as [[= -> ->]|Hform];
          [repeat (apply elem_of_cons in Hfield as [[= -> ->]|Hfield];
                   [vm_compute; reflexivity|]);
           by apply elem_of_nil in Hfield|]).
  by apply elem_of_nil in Hform.
Qed.

(** X12. [validateSpecificField]: for an id that no element of the page
    has it returns false and touches nothing; for a field of one of the two
    configured forms it is [validateField] with the rule list of the field;
    for an element whose id is the name of a member every object inherits,
    such as [constructor], the lookup in the configuration of a form finds
    the inherited member, and the call clears the errors of the element and
    raises a TypeError; for any other element that no form configures it
    returns true, with a warning, and touches nothing. *)
Theorem validateSpecificField_finds_rules (reg : gmap string RuleConfig)
    (d : list Node) (fieldId : string) :
  (getElementById d fieldId = None →
   validateSpecificField reg d fieldId = (Return false, [], d))
  ∧ (∀ field formId config rules,
       getElementById d fieldId = Some field →
       (formId, config) ∈ FORM_CONFIGS → (fieldId, rules) ∈ config →
       validateSpecificField reg d fieldId = validateField reg d field rules)
  ∧ (∀ field,
       getElementById d fieldId = Some field →
       fieldId ∉ (FORM_CONFIGS ≫= snd).*1 → fieldId ∉ Object_prototype_names →
       validateSpecificField reg d fieldId
       = (Return true, ["No validation config found for field: " +:+ fieldId], d))
  ∧ (∀ field,
       getElementById d fieldId = Some field →
       fieldId ∈ Object_prototype_names →
       validateSpecificField reg d fieldId = (Throw, [], clearFieldError d field)).
Proof.
  unfold validateSpecificField. split_and!.
  - by intros ->.
  - intros field formId config rules -> Hform Hfield.
    by rewrite (field_config_configured formId config fieldId rules).
  - intros field -> Hkey Hproto.
    assert (field_config fieldId = NoMember) as ->; [|done].
    unfold field_config, FORM_CONFIGS. cbn [foldl snd].
    rewrite !member_missing; [done|..]; try done; intros Hin; apply Hkey; cbn in Hin;
      repeat (apply elem_of_cons in Hin as [->|Hin];
              [apply list_elem_of_In; simpl; auto 20|]);
      by apply elem_of_nil in Hin.
  - intros field -> Hproto.
    assert (field_config fieldId = Inherited) as ->; [|done].
    unfold Object_prototype_names in Hproto.
    repeat (apply elem_of_cons in Hproto as [->|Hproto]; [reflexivity|]).
    by apply elem_of_nil in Hproto.
Qed.

Lemma validateSpecificField_finds_rules_witness :
  validateSpecificField (VALIDATION_RULES example_runtime) (example_form "") "nonsuch"
  = (Return false, [], example_form "")
  ∧ validateSpecificField (VALIDATION_RULES example_runtime) (example_form "")
      "contact-name"
    = validateField (VALIDATION_RULES example_runtime) (example_form "") 2
        ["required"; "minLength:2"; "maxLength:100"]
  ∧ validateSpecificField (VALIDATION_RULES example_runtime) (example_form "")
      "contact-form"
    = (Return true, ["No validation config found for field: contact-form"],
       example_form "")
  ∧ (validateSpecificField (VALIDATION_RULES example_runtime)
       [example_node "constructor" "" "form-input" []] "constructor").1.1
    = Throw.
Proof.
  destruct (validateSpecificField_finds_rules (VALIDATION_RULES example_runtime)
              (example_form "") "nonsuch") as (H1 & _).
  destruct (validateSpecificField_finds_rules (VALIDATION_RULES example_runtime)
              (example_form "") "contact-name") as (_ & H2 & _).
  destruct (validateSpecificField_finds_rules (VALIDATION_RULES example_runtime)
              (example_form "") "contact-form") as (_ & _ & H3 & _).
  destruct (validateSpecificField_finds_rules (VALIDATION_RULES example_runtime)
              [example_node "constructor" "" "form-input" []] "constructor")
    as (_ & _ & _ & H4).
  split_and!.
  - apply H1. reflexivity.
  - apply (H2 2%nat "contact-form" contact_form); [reflexivity|..];
      apply list_elem_of_In; simpl; auto.
  - apply (H3 0%nat); [reflexivity|..]; intros Hin; apply list_elem_of_In in Hin;
      simpl in Hin; intuition discriminate.
  - rewrite (H4 0%nat); [reflexivity|reflexivity|].
    apply list_elem_of_In. simpl. auto.
Defined.

Lemma NoDup_FORM_CONFIGS formId config :
  (formId, config) ∈ FORM_CONFIGS → NoDup config.*1.
Proof.
  intros Hin.
  repeat (apply elem_of_cons in Hin as [[= -> ->]|Hin];
          [apply NoDup_ListNoDup; cbn;
           repeat (constructor; [simpl; intuition discriminate|]); constructor|]).
  by apply elem_of_nil in Hin.
Qed.

(** X13. [validateSpecificForm]: when the page has no element of that id it
    returns false, with a warning, and touches nothing; for one of the two
    configured forms on the page it returns, and it returns true exactly when
    every configured field that is on the page passes its rules. *)
Theorem validateSpecificForm_checks_configured_form (rt : Runtime) (d : list Node)
    (formId : string) :
  (getElementById d formId = None →
   validateSpecificForm (VALIDATION_RULES rt) d formId
   = (Return false, ["Form or config not found: " +:+ formId], d))
  ∧ (∀ config,
       (formId, config) ∈ FORM_CONFIGS → is_Some (getElementById d formId) →
       (validateSpecificForm (VALIDATION_RULES rt) d formId).1.1
       = Return (forallb (entry_valid (VALIDATION_RULES rt) d) config)).
Proof.
  unfold validateSpecificForm. split.
  - by intros ->.
  - intros config Hin [form ->].
    assert (member FORM_CONFIGS formId = Own config) as ->.
    { pose proof Hin as Hin'.
      repeat (apply elem_of_cons in Hin' as [[= -> ->]|Hin']; [reflexivity|]).
      by apply elem_of_nil in Hin'. }
    destruct (validateForm_loop_spec (VALIDATION_RULES rt) d config true d
                (frame_refl d) (NoDup_FORM_CONFIGS formId config Hin))
      as (w & d' & Hloop & _).
    { pose proof (FORM_CONFIGS_resolve rt) as Hres. rewrite Forall_forall in Hres.
      apply (Hres (formId, config) Hin). }
    unfold validateForm. by rewrite Hloop.
Qed.

Lemma validateSpecificForm_checks_configured_form_witness :
  validateSpecificForm (VALIDATION_RULES example_runtime) (example_form "ab")
    "booking-form"
  = (Return false, ["Form or config not found: booking-form"], example_form "ab")
  ∧ (validateSpecificForm (VALIDATION_RULES example_runtime) (example_form "ab")
       "contact-form").1.1 = Return true.
Proof.
  destruct (validateSpecificForm_checks_configured_form example_runtime
              (example_form "ab") "booking-form") as (H1 & _).
  destruct (validateSpecificForm_checks_configured_form example_runtime
              (example_form "ab") "contact-form") as (_ & H2).
  split.
  - apply H1. reflexivity.
  - rewrite (H2 contact_form); [reflexivity| |eexists; reflexivity].
    apply list_elem_of_In. simpl. auto.
Defined.

Lemma window_bool (n lo hi : N) :
  (1 ≤ lo)%N →
  match (if (n =? 0)%N then Invalid (Text "")
         else if (n <? lo)%N then Invalid (Text "")
         else if (hi <? n)%N then Invalid (Text "") else Valid) with
  | Valid => true
  | _ => false
  end = bool_decide (lo ≤ n ≤ hi)%N.
Proof.
  intros Hlo. destruct (N.eqb_spec n 0), (N.ltb_spec n lo), (N.ltb_spec hi n);
    (rewrite bool_decide_eq_false_2 by lia) || (rewrite bool_decide_eq_true_2 by lia);
    done.
Qed.

(** X14. The name fields of the two forms and the message field of the
    contact form, validated through [validateSpecificField]: the call
    returns true exactly when the trimmed length of the value is within the
    bounds of the field (2 to 100 for a name, 10 to 1000 for the message),
    and the error element of the field shows "This field is required" for a
    blank value, the message of the lower bound for a value too short, that
    of the upper bound for a value too long, and nothing otherwise. *)
Theorem length_window_fields (rt : Runtime) (d : list Node) (fieldId lo hi : string)
    (nlo nhi : N) (field : nat) :
  (fieldId, (lo, hi)) ∈ length_windows →
  decimal_digits 0 lo = Some nlo → decimal_digits 0 hi = Some nhi →
  getElementById d fieldId = Some field →
  let n := trimmed_length (field_value d field) in
  let r := validateSpecificField (VALIDATION_RULES rt) d fieldId in
  r.1.1 = Return (bool_decide (nlo ≤ n ≤ nhi)%N)
  ∧ (is_Some (getElementById d (fieldId +:+ "-error")) →
     error_text r.2 field
     = Some (if (n =? 0)%N then "This field is required"
             else if (n <? nlo)%N
                  then "Must be at least " +:+ lo +:+ " characters long"
             else if (nhi <? n)%N
                  then "Must be no more than " +:+ hi +:+ " characters long"
             else "")).
Proof.
  intros Hin Hlo Hhi Hfield. cbv zeta.
  assert (field_config fieldId
          = Own ["required"; "minLength:" +:+ lo; "maxLength:" +:+ hi]
          ∧ no_colon lo = true ∧ no_colon hi = true ∧ (1 ≤ nlo)%N)
    as (Hconfig & Hclo & Hchi & Hpos).
  { unfold length_windows in Hin.
    repeat (apply elem_of_cons in Hin as [[= -> -> ->]|Hin];
            [vm_compute in Hlo; injection Hlo as <-; split_and!; try reflexivity; lia|]).
    by apply elem_of_nil in Hin. }
  unfold validateSpecificField. rewrite Hfield, Hconfig.
  pose proof (window_verdict rt (field_value d field) lo hi nlo nhi Hclo Hchi Hlo Hhi)
    as Hv.
  destruct (field_id_found d fieldId field Hfield) as [Hsome Hid].
  split.
  - rewrite validateField_completion, Hv. cbn [snd].
    rewrite <- (window_bool _ nlo nhi Hpos).
    by repeat (match goal with |- context [if ?b then _ else _] => destruct b end).
  - intros [e He].
    pose proof (validateField_display (VALIDATION_RULES rt) d field
                  ["required"; "minLength:" +:+ lo; "maxLength:" +:+ hi] Hsome) as Hd.
    unfold display_state, display_for in Hd. rewrite Hv, Hid, He in Hd. cbn [snd] in Hd.
    injection Hd as _ _ Htext _. rewrite Htext. cbn [fmap option_fmap option_map].
    f_equal.
    by repeat (match goal with |- context [if ?b then _ else _] => destruct b end).
Qed.

Lemma length_window_fields_witness :
  (validateSpecificField (VALIDATION_RULES example_runtime) (example_form " a ")
     "contact-name").1.1 = Return false
  ∧ error_text
      (validateSpecificField (VALIDATION_RULES example_runtime) (example_form " a ")
         "contact-name").2 2
    = Some "Must be at least 2 characters long".
Proof.
  destruct (length_window_fields example_runtime (example_form " a ") "contact-name"
              "2" "100" 2 100 2) as [H1 H2]; try reflexivity.
  { apply list_elem_of_In. simpl. auto. }
  split; [exact H1|]. apply H2. eexists. reflexivity.
Defined.

(** X15. The e-mail fields of the two forms, validated through
    [validateSpecificField]: the call returns true exactly when the value is
    [a@b.c] with [a], [b] and [c] not empty and free of white space and
    [@]; the empty value, which the rule [email] lets pass, is rejected by
    the rule [required] before it. *)
Theorem email_fields_require_address (rt : Runtime) (d : list Node)
    (fieldId : string) (field : nat) :
  fieldId ∈ ["contact-email"; "booking-email"] →
  getElementById d fieldId = Some field →
  (validateSpecificField (VALIDATION_RULES rt) d fieldId).1.1 = Return true
  ↔ ∃ a b c, field_value d field = a ++ [64%N] ++ b ++ [46%N] ++ c
             ∧ a ≠ [] ∧ b ≠ [] ∧ c ≠ []
             ∧ Forall address_char (a ++ b ++ c).
Proof.
  intros Hin Hfield.
  assert (field_config fieldId = Own ["required"; "email"]) as Hconfig.
  { repeat (apply elem_of_cons in Hin as [->|Hin]; [reflexivity|]).
    by apply elem_of_nil in Hin. }
  unfold validateSpecificField. rewrite Hfield, Hconfig.
  rewrite validateField_completion.
  destruct (get_registry rt) as (Hr & He & _).
  set (v := field_value d field).
  rewrite run_rules_cons. change (rule_name "required") with "required".
  rewrite Hr. change (rule_param "required") with (@None string).
  rewrite run_rules_cons. change (rule_name "email") with "email".
  rewrite He. change (rule_param "email") with (@None string).
  pose proof (required_accepts_non_blank_aux v None) as Hreq.
  pose proof (email_accepts_address_shape_aux v None) as Hmail.
  destruct (test required v None) eqn:E1.
  - destruct (test email v None) eqn:E2; cbn.
    + split; [intros _|done]. destruct Hmail as [Hmail _].
      destruct (Hmail eq_refl) as [Hnil|H]; [|done].
      destruct Hreq as [Hreq _]. specialize (Hreq eq_refl). rewrite Hnil in Hreq.
      by apply Exists_nil in Hreq.
    + split; [done|]. intros H. exfalso. destruct Hmail as [_ Hmail].
      assert (true = false) as E; [|done]. rewrite <- Hmail; [done|]. by right.
  - cbn. split; [done|]. intros (a & b & c & Hv & Ha & _ & _ & Hall). exfalso.
    destruct Hreq as [_ Hreq]. assert (true = false) as E; [|done].
    rewrite <- Hreq; [done|].
    rewrite Hv. apply Exists_app. left. destruct a as [|x a]; [done|].
    apply Exists_cons_hd. apply Forall_app in Hall as [Hall _].
    apply Forall_cons in Hall as [[Hx _] _]. done.
Qed.

Lemma email_fields_require_address_witness :
  (validateSpecificField (VALIDATION_RULES example_runtime)
     (example_document "" "a@b.c") "contact-email").1.1 = Return true.
Proof.
  apply (email_fields_require_address example_runtime (example_document "" "a@b.c")
           "contact-email" 4).
  - apply list_elem_of_In. simpl. auto.
  - reflexivity.
  - exists (of_string "a"), (of_string "b"), (of_string "c").
    split_and!; try done. repeat constructor; done.
Defined.

End ValidateFacts.

(** ** Properties of booking.js *)
Module BookingFacts.
Import Booking.

Lemma attempts_widget_reaction o st : attempts (widget_reaction o st) = attempts st.
Proof.
  destruct o; simpl.
  - unfold embedSetmoreWidget. simpl. by destruct (_ !! _).
  - unfold showSetmoreFallback. simpl. by destruct (_ !! _).
Qed.

Lemma counter_widget_reaction o st :
  scriptLoadAttempts (widget_reaction o st) = scriptLoadAttempts st.
Proof.
  destruct o; simpl.
  - unfold embedSetmoreWidget. simpl. by destruct (_ !! _).
  - unfold showSetmoreFallback. simpl. by destruct (_ !! _).
Qed.

Lemma settled_as_refl o (l : list Attempt) : Forall2 (settled_as o) l l.
Proof. induction l; constructor; auto. by left. Qed.

Lemma settled_as_alter o (l : list Attempt) a :
  (∀ att, l !! a = Some att → result att = None) →
  Forall2 (settled_as o) l (alter (set_result o) a l).
Proof.
  intros H. apply Forall2_same_length_lookup. split; [by rewrite length_alter|].
  intros i x y Hx. rewrite list_lookup_alter. case_decide; subst.
  - rewrite Hx. simpl. intros [= <-]. right. split; eauto.
  - rewrite Hx. intros [= <-]. by left.
Qed.

Lemma settled_as_trans o (l1 l2 l3 : list Attempt) :
  Forall2 (settled_as o) l1 l2 → Forall2 (settled_as o) l2 l3 →
  Forall2 (settled_as o) l1 l3.
Proof.
  intros H. revert l3. induction H as [|x y l l' Hxy _ IH]; intros l3 H3;
    inversion H3 as [|? z ? l3' Hyz H3']; subst; constructor; auto.
  destruct Hxy as [->|[Hx ->]]; [done|].
  destruct Hyz as [->|[Hy ->]]; [by right|]. done.
Qed.

(** [settle] touches the promises and, through the reactions of the widget,
    the page; the counter stays. *)
Lemma settle_spec k : ∀ a o st,
  scriptLoadAttempts (settle a k o st) = scriptLoadAttempts st
  ∧ Forall2 (settled_as o) (attempts st) (attempts (settle a k o st)).
Proof.
  induction k as [|outer k IH]; intros a o st; simpl; unfold pending;
    destruct (attempts st !! a) as [att|] eqn:Ha; try (split; [done|apply settled_as_refl]);
    destruct (result att) eqn:Hr; try (split; [done|apply settled_as_refl]).
  - rewrite counter_widget_reaction, attempts_widget_reaction. simpl. split; [done|].
    apply settled_as_alter. intros ?. rewrite Ha. by intros [= <-].
  - destruct (IH outer o (with_attempt a (set_result o) st)) as [Hc Hl].
    split; [by rewrite Hc|].
    eapply settled_as_trans; [|exact Hl]. simpl.
    apply settled_as_alter. intros ?. rewrite Ha. by intros [= <-].
Qed.

(** When the promises of the attempts up to [k] are pending and chained, the
    settlement of attempt [k] settles them all and reaches the widget. *)
Lemma settle_chain k : ∀ o st,
  (∀ i, (i ≤ k)%nat → ∃ att, attempts st !! i = Some att ∧ result att = None
                        ∧ reactions att = chain i) →
  ∃ l, settle k (chain k) o st = widget_reaction o (set_attempts l st)
       ∧ Forall2 (settled_as o) (attempts st) l
       ∧ ∀ i, (i ≤ k)%nat → l !! i ≫= result = Some o.
Proof.
  induction k as [|k IH]; intros o st H; simpl; unfold pending.
  - destruct (H 0 (le_n _)) as (att & Ha & Hr & _). rewrite Ha, Hr.
    exists (alter (set_result o) 0 (attempts st)). split; [done|]. split.
    + apply settled_as_alter. intros ?. rewrite Ha. by intros [= <-].
    + intros i Hi. assert (i = 0) as -> by lia.
      by rewrite list_lookup_alter_eq, Ha.
  - destruct (H (S k) (le_n _)) as (att & Ha & Hr & _). rewrite Ha, Hr.
    destruct (IH o (with_attempt (S k) (set_result o) st)) as (l & Heq & Hl & Hres).
    { intros i Hi. destruct (H i ltac:(lia)) as (x & Hx & ? & ?).
      exists x. simpl. rewrite list_lookup_alter_ne by lia. done. }
    exists l. split; [by rewrite Heq|]. split.
    + eapply settled_as_trans; [|exact Hl]. simpl.
      apply settled_as_alter. intros ?. rewrite Ha. by intros [= <-].
    + intros i Hi. destruct (decide (i = S k)) as [->|]; [|apply Hres; lia].
      simpl in Hl.
      destruct (Forall2_lookup_l _ _ _ (S k) (set_result o att) Hl) as (y & Hy & Hs).
      { by rewrite list_lookup_alter_eq, Ha. }
      rewrite Hy. simpl. by destruct Hs as [->|[? ->]].
Qed.

Lemma in_flight_start st0 c :
  document st0 !! "setmore-booking-container" = Some c →
  scriptLoadAttempts st0 = 0%Z → attempts st0 = [] →
  in_flight (showLoadingState st0) 0 (loadSetmoreWidget st0).
Proof.
  intros Hc Hn Ha. unfold loadSetmoreWidget. rewrite Hc.
  unfold in_flight, loadSetmoreScript. simpl. rewrite Ha. simpl.
  split_and!; auto.
  - intros [|i] att Hi; simpl in Hi; [|done]. by injection Hi as <-.
  - eexists. by split.
Qed.

Lemma all_alter (P : nat → Attempt → Prop) (l : list Attempt) k f :
  (∀ i att, l !! i = Some att → P i att) →
  (∀ att, P k att → P k (f att)) →
  ∀ i att, alter f k l !! i = Some att → P i att.
Proof.
  intros Hl Hf i att. rewrite list_lookup_alter. case_decide; subst; [|by apply Hl].
  destruct (l !! i) as [x|] eqn:Hx; simpl; [|done]. intros [= <-]. eauto.
Qed.

Lemma all_snoc (P : nat → Attempt → Prop) (l : list Attempt) x :
  (∀ i att, l !! i = Some att → P i att) →
  P (length l) x →
  ∀ i att, (l ++ [x]) !! i = Some att → P i att.
Proof.
  intros Hl Hx i att Hi. apply lookup_snoc_Some in Hi as [[_ Hi]|[-> ->]]; eauto.
Qed.

(** A load error with budget left arms the retry. *)
Lemma onerror_retry st k att :
  attempts st !! k = Some att → fired att = false →
  (scriptLoadAttempts st + 1 < retryAttempts (config st))%Z →
  onerror k st =
  with_attempt k (set_retryTimer true)
    (set_scriptLoadAttempts (scriptLoadAttempts st + 1)
       (script_remove k
          (with_attempt k (set_timeoutId false) (with_attempt k set_fired st)))).
Proof.
  intros Ha Hf Hlt. unfold onerror. rewrite Ha, Hf. cbn.
  apply Z.ltb_lt in Hlt. by rewrite Hlt.
Qed.

(** A load error with the budget used up rejects the promise. *)
Lemma onerror_reject st k att :
  attempts st !! k = Some att → fired att = false →
  (retryAttempts (config st) ≤ scriptLoadAttempts st + 1)%Z →
  onerror k st =
  settle k (reactions att)
    (Rejected "Failed to load Setmore script after multiple attempts")
    (set_scriptLoadAttempts (scriptLoadAttempts st + 1)
       (script_remove k
          (with_attempt k (set_timeoutId false) (with_attempt k set_fired st)))).
Proof.
  intros Ha Hf Hlt. unfold onerror. rewrite Ha, Hf. cbn.
  apply Z.ltb_ge in Hlt. by rewrite Hlt.
Qed.

Lemma in_flight_error_retry st0 (n k : nat) st :
  retryAttempts (config st0) = Z.of_nat n → (S k < n)%nat →
  in_flight st0 k st → in_flight st0 (S k) (on_retry k (onerror k st)).
Proof.
  intros Hn Hk (Hcfg & Hdoc & Heff & Hcnt & Hlen & Hall & att & Hatt & Hfired & Htimer).
  rewrite (onerror_retry st k att Hatt Hfired) by (rewrite Hcfg, Hn, Hcnt; lia).
  destruct (Hall k att Hatt) as (Hres & Hreact & Hretry).
  unfold on_retry. cbn. rewrite list_lookup_alter_eq. cbn.
  rewrite !list_lookup_alter_eq, Hatt. cbn.
  unfold in_flight, loadSetmoreScript. cbn.
  rewrite length_app, !length_alter, Hlen. cbn.
  split_and!; auto; try lia.
  - apply all_snoc; [|by rewrite !length_alter, Hlen, Hreact].
    rewrite !list_alter_alter_eq. apply all_alter; [done|]. by intros ? (? & ? & ?).
  - eexists. rewrite lookup_app_r by (rewrite !length_alter; lia).
    rewrite !length_alter, Hlen, Nat.sub_diag. cbn. by split.
Qed.

Lemma run_app evs1 evs2 st : run (evs1 ++ evs2) st = run evs2 (run evs1 st).
Proof. unfold run. by rewrite foldl_app. Qed.

Lemma in_flight_retried st0 (n : nat) :
  retryAttempts (config st0) = Z.of_nat n →
  ∀ m k st, (k + m < n)%nat → in_flight st0 k st →
            in_flight st0 (k + m) (run (failed_and_retried k m) st).
Proof.
  intros Hn. induction m as [|m IH]; intros k st Hk Hin.
  - by rewrite Nat.add_0_r.
  - cbn [failed_and_retried run foldl step].
    replace (k + S m)%nat with (S k + m)%nat by lia.
    apply IH; [lia|]. apply (in_flight_error_retry st0 n); auto; lia.
Qed.

(** The script in the head is that of the attempt in flight. *)
Lemma script_error_retry st0 (n k : nat) st :
  retryAttempts (config st0) = Z.of_nat n → (S k < n)%nat →
  in_flight st0 k st → setmore_script (on_retry k (onerror k st)) = Some (S k).
Proof.
  intros Hn Hk (Hcfg & Hdoc & Heff & Hcnt & Hlen & Hall & att & Hatt & Hfired & Htimer).
  rewrite (onerror_retry st k att Hatt Hfired) by (rewrite Hcfg, Hn, Hcnt; lia).
  unfold on_retry. cbn. rewrite list_lookup_alter_eq. cbn.
  rewrite !list_lookup_alter_eq, Hatt. cbn.
  unfold loadSetmoreScript. cbn. by rewrite !length_alter, Hlen.
Qed.

Lemma script_retried st0 (n : nat) :
  retryAttempts (config st0) = Z.of_nat n →
  ∀ m k st, (k + m < n)%nat → in_flight st0 k st → setmore_script st = Some k →
            setmore_script (run (failed_and_retried k m) st) = Some (k + m)%nat.
Proof.
  intros Hn. induction m as [|m IH]; intros k st Hk Hin Hs.
  - by rewrite Nat.add_0_r.
  - cbn [failed_and_retried run foldl step].
    replace (k + S m)%nat with (S k + m)%nat by lia.
    apply IH; [lia| |].
    + apply (in_flight_error_retry st0 n); auto; lia.
    + apply (script_error_retry st0 n); auto; lia.
Qed.

Lemma script_widget_reaction o st :
  setmore_script (widget_reaction o st) = setmore_script st.
Proof.
  destruct o; cbn; unfold embedSetmoreWidget, showSetmoreFallback;
    repeat case_match; done.
Qed.

Lemma script_settle k : ∀ a o st, setmore_script (settle a k o st) = setmore_script st.
Proof.
  induction k as [|outer k IH]; intros a o st; simpl; destruct (pending st a); try done.
  - by rewrite script_widget_reaction.
  - by rewrite IH.
Qed.

(** The timeout of the attempt in flight takes its script out of the head. *)
Lemma script_timeout st0 (k : nat) st :
  in_flight st0 k st → setmore_script st = Some k →
  setmore_script (on_timeout k st) = None.
Proof.
  intros (_ & _ & _ & _ & _ & _ & att & Hatt & _ & Htimer) Hs.
  unfold on_timeout. rewrite Hatt, Htimer. rewrite script_settle.
  unfold script_remove. cbn. by rewrite Hs, decide_True.
Qed.

(** After a load error with budget left the promises are still pending and
    the page is as it was. *)
Lemma in_flight_error_pending st0 (n k : nat) st :
  retryAttempts (config st0) = Z.of_nat n → (S k < n)%nat →
  in_flight st0 k st →
  loader_promise (onerror k st) = None ∧ document (onerror k st) = document st0.
Proof.
  intros Hn Hk (Hcfg & Hdoc & Heff & Hcnt & Hlen & Hall & att & Hatt & Hfired & Htimer).
  rewrite (onerror_retry st k att Hatt Hfired) by (rewrite Hcfg, Hn, Hcnt; lia).
  split; [|done]. unfold loader_promise. cbn. rewrite !list_alter_alter_eq.
  destruct (attempts st !! 0%nat) as [x|] eqn:Hx.
  - destruct (Hall 0%nat x Hx) as (Hr & _).
    rewrite list_lookup_alter. case_decide; subst; rewrite Hx; cbn; done.
  - rewrite list_lookup_alter. case_decide; subst; by rewrite Hx.
Qed.

(** The reactions of the widget to a rejection show the fallback. *)
Lemma widget_rejected st error f l :
  document st !! "booking-fallback" = Some f →
  document st !! "setmore-fallback-link" = Some l →
  let st' := widget_reaction (Rejected error) st in
  display <$> document st' !! "booking-fallback" = Some "block"
  ∧ href <$> document st' !! "setmore-fallback-link" = Some (setmoreUrl (config st))
  ∧ attempts st' = attempts st
  ∧ scriptLoadAttempts st' = scriptLoadAttempts st.
Proof.
  intros Hf Hl. cbn. unfold showSetmoreFallback. cbn.
  rewrite !lookup_alter_ne by done. rewrite Hf. cbn.
  rewrite lookup_alter_ne by done. rewrite lookup_alter_eq.
  rewrite !lookup_alter_ne by done. rewrite Hf. cbn.
  rewrite lookup_alter_eq. rewrite !lookup_alter_ne by done. rewrite Hl. done.
Qed.

(** The last load error of the budget rejects every promise of the chain
    and reaches the widget. *)
Lemma in_flight_last_error st0 (k : nat) st :
  (retryAttempts (config st0) ≤ Z.of_nat (S k))%Z →
  in_flight st0 k st →
  ∃ st2, onerror k st
         = widget_reaction
             (Rejected "Failed to load Setmore script after multiple attempts") st2
         ∧ config st2 = config st0 ∧ document st2 = document st0
         ∧ scriptLoadAttempts st2 = Z.of_nat (S k)
         ∧ attempts st2 !! 0%nat ≫= result
           = Some (Rejected "Failed to load Setmore script after multiple attempts").
Proof.
  intros Hn (Hcfg & Hdoc & Heff & Hcnt & Hlen & Hall & att & Hatt & Hfired & Htimer).
  rewrite (onerror_reject st k att Hatt Hfired) by (rewrite Hcfg, Hn, Hcnt; lia).
  destruct (Hall k att Hatt) as (_ & -> & _).
  match goal with |- context [settle k (chain k) ?o ?s] =>
    destruct (settle_chain k o s) as (l & Heq & _ & Hres) end.
  { intros i Hi. cbn. rewrite !list_alter_alter_eq.
    destruct (lookup_lt_is_Some_2 (attempts st) i ltac:(lia)) as [x Hx].
    destruct (Hall i x Hx) as (? & ? & ?).
    rewrite list_lookup_alter. case_decide; subst; rewrite Hx; cbn; eauto. }
  eexists. split; [exact Heq|]. cbn. split_and!; auto.
  - rewrite Hcnt. lia.
  - apply Hres. lia.
Qed.

(** A timeout of the attempt in flight rejects every promise of the chain
    at once: the counter stays, no retry is armed, no attempt is added. *)
Lemma in_flight_timeout st0 (k : nat) st :
  in_flight st0 k st →
  ∃ st2, on_timeout k st = widget_reaction (Rejected "Script loading timeout") st2
         ∧ config st2 = config st0 ∧ document st2 = document st0
         ∧ scriptLoadAttempts st2 = Z.of_nat k
         ∧ length (attempts st2) = S k
         ∧ (∀ i att, attempts st2 !! i = Some att → retryTimer att = false)
         ∧ attempts st2 !! 0%nat ≫= result = Some (Rejected "Script loading timeout").
Proof.
  intros (Hcfg & Hdoc & Heff & Hcnt & Hlen & Hall & att & Hatt & Hfired & Htimer).
  unfold on_timeout. rewrite Hatt, Htimer.
  destruct (Hall k att Hatt) as (_ & -> & _).
  match goal with |- context [settle k (chain k) ?o ?s] =>
    destruct (settle_chain k o s) as (l & Heq & Hl & Hres) end.
  { intros i Hi. cbn.
    destruct (lookup_lt_is_Some_2 (attempts st) i ltac:(lia)) as [x Hx].
    destruct (Hall i x Hx) as (? & ? & ?).
    rewrite list_lookup_alter. case_decide; subst; rewrite Hx; cbn; eauto. }
  eexists. split; [exact Heq|]. cbn in *. split_and!; auto.
  - apply Forall2_length in Hl. rewrite length_alter in Hl. lia.
  - intros i y Hy.
    destruct (Forall2_lookup_r _ _ _ _ _ Hl Hy) as (x & Hx & Hs).
    assert (retryTimer x = false) as Hx'.
    { clear Hy Hs. revert i x Hx. apply all_alter; [|done]. intros ???. by eapply Hall. }
    by destruct Hs as [->|[_ ->]].
  - apply Hres. lia.
Qed.

Lemma counter_settle a k o st :
  scriptLoadAttempts (settle a k o st) = scriptLoadAttempts st.
Proof. apply settle_spec. Qed.

Lemma counter_initializeBookingWidget st :
  scriptLoadAttempts (initializeBookingWidget st) = scriptLoadAttempts st.
Proof.
  unfold initializeBookingWidget, loadSetmoreWidget, showInternalBookingForm,
    setupInternalBookingForm.
  repeat case_match; done.
Qed.

(** An event leaves the counter as it is or adds one to it. *)
Lemma counter_step ev st :
  scriptLoadAttempts (step ev st) = scriptLoadAttempts st
  ∨ scriptLoadAttempts (step ev st) = (scriptLoadAttempts st + 1)%Z.
Proof.
  destruct ev; cbn [step].
  - left. unfold init. case_match; [|done]. by rewrite counter_initializeBookingWidget.
  - left. unfold handleBookingClick, openSetmoreBooking, openInternalBooking.
    repeat case_match; done.
  - left. unfold onload. repeat case_match; try done. by rewrite counter_settle.
  - unfold onerror. destruct (attempts st !! a) as [att|]; [|by left].
    destruct (fired att); [by left|]. right.
    case_match; [done|]. by rewrite counter_settle.
  - left. unfold on_timeout. repeat case_match; try done. by rewrite counter_settle.
  - left. unfold on_retry. repeat case_match; done.
  - left. unfold on_window_error, showSetmoreFallback. repeat case_match; done.
  - left. unfold handleInternalBookingSubmit. repeat case_match; done.
  - left. unfold on_submitted. repeat case_match; done.
  - by left.
  - left. unfold handleBookingClick, openSetmoreBooking, openInternalBooking.
    repeat case_match; done.
  - left. unfold updateConfig. case_match; [|done].
    by rewrite counter_initializeBookingWidget.
  - left. unfold openSetmoreBooking. repeat case_match; done.
  - by left.
Qed.

Lemma counter_run evs : ∀ st, (scriptLoadAttempts st ≤ scriptLoadAttempts (run evs st))%Z.
Proof.
  induction evs as [|ev evs IH]; intros st; [done|].
  cbn [run foldl]. etrans; [|apply IH].
  destruct (counter_step ev st) as [->| ->]; lia.
Qed.

Section Page.
Variables (st0 : State) (n : nat) (c f l : Element).
Hypothesis fresh_counter : scriptLoadAttempts st0 = 0%Z.
Hypothesis fresh_attempts : attempts st0 = [].
Hypothesis bound : retryAttempts (config st0) = Z.of_nat n.
Hypothesis has_container : document st0 !! "setmore-booking-container" = Some c.
Hypothesis has_fallback : document st0 !! "booking-fallback" = Some f.
Hypothesis has_link : document st0 !! "setmore-fallback-link" = Some l.

Lemma retried_in_flight m :
  (m < n)%nat →
  in_flight (showLoadingState st0) m
    (run (failed_and_retried 0 m) (loadSetmoreWidget st0)).
Proof.
  intros Hm. apply (in_flight_retried (showLoadingState st0) n bound m 0%nat); [lia|].
  by eapply in_flight_start.
Qed.

Lemma loading_fallback :
  document (showLoadingState st0) !! "booking-fallback" = Some f
  ∧ document (showLoadingState st0) !! "setmore-fallback-link" = Some l.
Proof. cbn. by rewrite !lookup_alter_ne by done. Qed.

Lemma failures_pending m :
  (m < n)%nat →
  let st := run (load_failures m) (loadSetmoreWidget st0) in
  loader_promise st = None
  ∧ document st !! "booking-fallback" = Some f
  ∧ document st !! "setmore-fallback-link" = Some l.
Proof.
  intros Hm. destruct loading_fallback as [Hf Hl].
  destruct m as [|m]; cbn [load_failures].
  - destruct (in_flight_start st0 c has_container fresh_counter fresh_attempts)
      as (_ & Hdoc & _ & _ & _ & Hall & att & Ha & _).
    cbn [run foldl]. unfold loader_promise. rewrite Ha, Hdoc. cbn.
    by destruct (Hall 0%nat att Ha) as (-> & _).
  - rewrite run_app. cbn [run foldl step].
    destruct (in_flight_error_pending (showLoadingState st0) n m _ bound Hm
                (retried_in_flight m ltac:(lia)))
      as [Hp Hd].
    unfold run in *. by rewrite Hp, Hd.
Qed.

Lemma failures_rejected m :
  n = S m →
  let st := run (load_failures n) (loadSetmoreWidget st0) in
  loader_promise st
  = Some (Rejected "Failed to load Setmore script after multiple attempts")
  ∧ display <$> document st !! "booking-fallback" = Some "block"
  ∧ href <$> document st !! "setmore-fallback-link" = Some (setmoreUrl (config st0))
  ∧ scriptLoadAttempts st = Z.of_nat n.
Proof.
  intros Hn. destruct loading_fallback as [Hf Hl].
  pose proof bound as Hb. rewrite Hn in Hb. rewrite Hn.
  cbn [load_failures]. rewrite run_app. cbn [run foldl step].
  destruct (in_flight_last_error (showLoadingState st0) m _ (Z.eq_le_incl _ _ Hb)
                (retried_in_flight m ltac:(lia)))
    as (st2 & Heq & Hcfg & Hdoc & Hcnt & Hres).
  unfold run in *. rewrite Heq.
  rewrite <- Hdoc in Hf, Hl.
  destruct (widget_rejected st2
              "Failed to load Setmore script after multiple attempts" f l Hf Hl)
    as (Hd & Hh & Ha & Hc).
  unfold loader_promise. rewrite Ha, Hd, Hh, Hc, Hres, Hcfg, Hcnt. done.
Qed.

(** With no budget at all the one attempt the loader makes is the last. *)
Lemma failure_without_budget :
  (n = 0)%nat →
  let st := run [ScriptError 0] (loadSetmoreWidget st0) in
  loader_promise st
  = Some (Rejected "Failed to load Setmore script after multiple attempts")
  ∧ display <$> document st !! "booking-fallback" = Some "block".
Proof.
  intros Hn. destruct loading_fallback as [Hf Hl].
  pose proof (in_flight_start st0 c has_container fresh_counter fresh_attempts) as Hin.
  destruct (in_flight_last_error (showLoadingState st0) 0 _
              ltac:(cbn; rewrite bound, Hn; lia) Hin)
    as (st2 & Heq & _ & Hdoc2 & _ & Hres).
  cbn [run foldl step]. rewrite Heq. rewrite <- Hdoc2 in Hf, Hl.
  destruct (widget_rejected st2
              "Failed to load Setmore script after multiple attempts" f l Hf Hl)
    as (Hd & _ & Ha & _).
  unfold loader_promise. by rewrite Ha, Hd, Hres.
Qed.

Lemma timeout_removes_script m :
  (m < n)%nat →
  let before := run (failed_and_retried 0 m) (loadSetmoreWidget st0) in
  setmore_script before = Some m
  ∧ setmore_script (step (ScriptTimeout m) before) = None.
Proof.
  intros Hm. cbv zeta.
  pose proof (in_flight_start st0 c has_container fresh_counter fresh_attempts) as Hin0.
  assert (setmore_script (loadSetmoreWidget st0) = Some 0%nat) as Hs0.
  { unfold loadSetmoreWidget. rewrite has_container.
    unfold loadSetmoreScript. cbn. by rewrite fresh_attempts. }
  pose proof (script_retried (showLoadingState st0) n bound m 0%nat _ ltac:(lia) Hin0 Hs0)
    as Hs.
  split; [exact Hs|]. cbn [step].
  apply (script_timeout (showLoadingState st0)); [by apply retried_in_flight|exact Hs].
Qed.

Lemma timeout_rejected m :
  (m < n)%nat →
  let before := run (failed_and_retried 0 m) (loadSetmoreWidget st0) in
  let st := step (ScriptTimeout m) before in
  scriptLoadAttempts st = scriptLoadAttempts before
  ∧ length (attempts st) = length (attempts before)
  ∧ (∀ i att, attempts st !! i = Some att → retryTimer att = false)
  ∧ loader_promise st = Some (Rejected "Script loading timeout")
  ∧ display <$> document st !! "booking-fallback" = Some "block"
  ∧ href <$> document st !! "setmore-fallback-link" = Some (setmoreUrl (config st0)).
Proof.
  intros Hm. destruct loading_fallback as [Hf Hl].
  pose proof (retried_in_flight m Hm) as Hin.
  destruct (in_flight_timeout (showLoadingState st0) m _ Hin) as (st2 & Heq & Hcfg & Hdoc & Hcnt & Hlen & Hret & Hres).
  destruct Hin as (_ & _ & _ & Hcnt0 & Hlen0 & _).
  cbn [step]. cbv zeta. rewrite Heq.
  rewrite <- Hdoc in Hf, Hl.
  destruct (widget_rejected st2 "Script loading timeout" f l Hf Hl)
    as (Hd & Hh & Ha & Hc).
  unfold loader_promise. rewrite Ha, Hd, Hh, Hc, Hres, Hcfg, Hcnt, Hcnt0, Hlen, Hlen0. done.
Qed.
End Page.

Lemma settle_pending a k o st att :
  attempts st !! a = Some att → result att = None →
  ∃ y, attempts (settle a k o st) !! a = Some y ∧ y = set_result o att.
Proof.
  intros Ha Hr. destruct k as [|outer k]; simpl; unfold pending; rewrite Ha, Hr.
  - rewrite attempts_widget_reaction. cbn. rewrite list_lookup_alter_eq, Ha. eauto.
  - destruct (settle_spec k outer o (with_attempt a (set_result o) st)) as [_ Hl].
    destruct (Forall2_lookup_l _ _ _ a (set_result o att) Hl) as (y & Hy & Hs).
    { cbn. by rewrite list_lookup_alter_eq, Ha. }
    exists y. split; [done|]. by destruct Hs as [->|[? ->]].
Qed.

(** With the budget used up, a new invocation that ends in a load error
    rejects at that first error: no retry is armed, no attempt is added. *)
Lemma exhausted_rejects st k :
  (retryAttempts (config st) ≤ scriptLoadAttempts st)%Z →
  let a := length (attempts st) in
  let st' := step (ScriptError a) (loadSetmoreScript k st) in
  attempts st' !! a ≫= result
  = Some (Rejected "Failed to load Setmore script after multiple attempts")
  ∧ retryTimer <$> attempts st' !! a = Some false
  ∧ length (attempts st') = S a.
Proof.
  intros Hb a st'. unfold st'. cbn [step].
  set (new := {| result := None; reactions := k; timeoutId := true;
                 retryTimer := false; fired := false |}).
  assert (attempts (loadSetmoreScript k st) !! a = Some new) as Ha.
  { unfold loadSetmoreScript. cbn. by rewrite lookup_app_r, Nat.sub_diag by done. }
  rewrite (onerror_reject _ a new Ha eq_refl) by (cbn; lia).
  match goal with |- context [settle a ?r ?o ?s] =>
    destruct (settle_pending a r o s (set_timeoutId false (set_fired new)))
      as (y & Hy & ->);
    [cbn; by rewrite !list_lookup_alter_eq, lookup_app_r, Nat.sub_diag by done|done|];
    destruct (settle_spec r a o s) as [_ Hl]
  end.
  rewrite Hy. split_and!; [done..|].
  apply Forall2_length in Hl. rewrite <- Hl. cbn.
  rewrite !length_alter, length_app. cbn. unfold a. lia.
Qed.


(** *** The properties of the loader *)

(** C1. In a fresh page session with retry bound [retryAttempts = n], n at
    least 1, on a page that has the container, the fallback and its link:
    when every attempt of [loadSetmoreScript] ends in a load error, the
    promise the widget waits on is still pending, and the fallback as it
    was, after fewer than [n] failures; after exactly [n] failures the
    promise is rejected, the fallback is displayed and the href of its link
    is the configured [setmoreUrl]. *)
Theorem load_failures_exhaust_retries (st0 : State) (n : nat) (c f l : Element) :
  scriptLoadAttempts st0 = 0%Z →
  attempts st0 = [] →
  retryAttempts (config st0) = Z.of_nat n →
  (1 ≤ n)%nat →
  document st0 !! "setmore-booking-container" = Some c →
  document st0 !! "booking-fallback" = Some f →
  document st0 !! "setmore-fallback-link" = Some l →
  let after m := run (load_failures m) (loadSetmoreWidget st0) in
  (∀ m, (m < n)%nat →
        loader_promise (after m) = None
        ∧ document (after m) !! "booking-fallback" = Some f
        ∧ document (after m) !! "setmore-fallback-link" = Some l)
  ∧ loader_promise (after n)
    = Some (Rejected "Failed to load Setmore script after multiple attempts")
  ∧ display <$> document (after n) !! "booking-fallback" = Some "block"
  ∧ href <$> document (after n) !! "setmore-fallback-link"
    = Some (setmoreUrl (config st0))
  ∧ scriptLoadAttempts (after n) = Z.of_nat n.
Proof.
  intros Hcnt Hatt Hn H1 Hc Hf Hl after. split.
  - intros m Hm. by apply (failures_pending st0 n c f l).
  - destruct n as [|m]; [lia|].
    by apply (failures_rejected st0 (S m) c f l Hcnt Hatt Hn Hc Hf Hl m).
Qed.

Lemma load_failures_exhaust_retries_witness :
  loader_promise
    (run [ScriptError 0; RetryTimer 0; ScriptError 1] (loadSetmoreWidget example_state))
  = None
  ∧ loader_promise
      (run [ScriptError 0; RetryTimer 0; ScriptError 1; RetryTimer 1; ScriptError 2]
         (loadSetmoreWidget example_state))
    = Some (Rejected "Failed to load Setmore script after multiple attempts")
  ∧ display <$> document (run (load_failures 3) (loadSetmoreWidget example_state))
                !! "booking-fallback" = Some "block"
  ∧ href <$> document (run (load_failures 3) (loadSetmoreWidget example_state))
             !! "setmore-fallback-link" = Some "https://daixmarededa.setmore.com/book".
Proof.
  destruct (load_failures_exhaust_retries example_state 3
              (example_element "" [".booking-loading"])
              (example_element "none" []) (example_element "" []))
    as (Hbefore & Hafter & Hshown & Hlink & _);
    try reflexivity; [lia|].
  destruct (Hbefore 2%nat ltac:(lia)) as (Hpending & _).
  split_and!; [exact Hpending|exact Hafter|exact Hshown|exact Hlink].
Defined.

(** C2, as the claim has it, fails: on the example page the timeout of the
    first attempt leaves the counter at 0, arms no retry and rejects the
    promise at once. *)
Lemma timeout_counterexample :
  let st := loadSetmoreWidget example_state in
  let st' := step (ScriptTimeout 0) st in
  scriptLoadAttempts st' = 0%Z
  ∧ retryTimer <$> attempts st' !! 0%nat = Some false
  ∧ length (attempts st') = 1%nat
  ∧ loader_promise st' = Some (Rejected "Script loading timeout")
  ∧ ¬ timeout_takes_failed_path st 0.
Proof.
  cbv zeta. split_and!; try reflexivity.
  intros [Hcount _]. vm_compute in Hcount. discriminate Hcount.
Qed.

(** C2, amended. When an attempt exceeds [scriptTimeout] without loading,
    the timeout does not take the path of a load error: after any number
    [m] of failed and retried attempts within the budget, the timeout of
    the attempt in flight removes its script, which was in the head until
    then, leaves the counter as it is, arms no retry, starts no attempt,
    and rejects the promise the widget waits on at once with "Script
    loading timeout", so that the fallback is displayed with the configured
    link. *)
Theorem timeout_rejects_without_retry (st0 : State) (n m : nat) (c f l : Element) :
  scriptLoadAttempts st0 = 0%Z →
  attempts st0 = [] →
  retryAttempts (config st0) = Z.of_nat n →
  (m < n)%nat →
  document st0 !! "setmore-booking-container" = Some c →
  document st0 !! "booking-fallback" = Some f →
  document st0 !! "setmore-fallback-link" = Some l →
  let before := run (failed_and_retried 0 m) (loadSetmoreWidget st0) in
  let st := step (ScriptTimeout m) before in
  scriptLoadAttempts st = scriptLoadAttempts before
  ∧ length (attempts st) = length (attempts before)
  ∧ (∀ i att, attempts st !! i = Some att → retryTimer att = false)
  ∧ loader_promise st = Some (Rejected "Script loading timeout")
  ∧ display <$> document st !! "booking-fallback" = Some "block"
  ∧ href <$> document st !! "setmore-fallback-link" = Some (setmoreUrl (config st0))
  ∧ setmore_script before = Some m
  ∧ setmore_script st = None.
Proof.
  intros Hcnt Hatt Hn Hm Hc Hf Hl.
  destruct (timeout_rejected st0 n c f l Hcnt Hatt Hn Hc Hf Hl m Hm)
    as (H1 & H2 & H3 & H4 & H5 & H6).
  destruct (timeout_removes_script st0 n c Hcnt Hatt Hn Hc m Hm) as [H7 H8].
  by split_and!.
Qed.

Lemma timeout_rejects_without_retry_witness :
  let before := run [ScriptError 0; RetryTimer 0] (loadSetmoreWidget example_state) in
  let st := step (ScriptTimeout 1) before in
  scriptLoadAttempts st = 1%Z
  ∧ length (attempts st) = 2%nat
  ∧ loader_promise st = Some (Rejected "Script loading timeout")
  ∧ display <$> document st !! "booking-fallback" = Some "block"
  ∧ setmore_script before = Some 1%nat
  ∧ setmore_script st = None.
Proof.
  destruct (timeout_rejects_without_retry example_state 3 1
              (example_element "" [".booking-loading"])
              (example_element "none" []) (example_element "" []))
    as (Hcount & Hlen & _ & Hrejected & Hshown & _ & Hhead & Hremoved);
    try reflexivity; [lia|].
  cbv zeta. split_and!;
    [|exact Hlen|exact Hrejected|exact Hshown|exact Hhead|exact Hremoved].
  etrans; [exact Hcount|reflexivity].
Defined.

(** C10. The counter [scriptLoadAttempts] goes up by one on every load
    error and no event of a page session brings it down: not a successful
    load, not a new load, not [updateConfig].  Hence, once it has reached
    [retryAttempts], a new invocation of [loadSetmoreScript] that ends in a
    load error rejects at that first error: no retry is armed and no further
    attempt starts. *)
Theorem scriptLoadAttempts_never_reset :
  (∀ st a att,
     attempts st !! a = Some att → fired att = false →
     scriptLoadAttempts (step (ScriptError a) st) = (scriptLoadAttempts st + 1)%Z)
  ∧ (∀ ev st, (scriptLoadAttempts st ≤ scriptLoadAttempts (step ev st))%Z)
  ∧ (∀ evs st, (scriptLoadAttempts st ≤ scriptLoadAttempts (run evs st))%Z)
  ∧ (∀ st k,
       (retryAttempts (config st) ≤ scriptLoadAttempts st)%Z →
       let a := length (attempts st) in
       let st' := step (ScriptError a) (loadSetmoreScript k st) in
       attempts st' !! a ≫= result
       = Some (Rejected "Failed to load Setmore script after multiple attempts")
       ∧ retryTimer <$> attempts st' !! a = Some false
       ∧ length (attempts st') = S a).
Proof.
  split_and!.
  - intros st a att Ha Hf. cbn [step]. unfold onerror. rewrite Ha, Hf.
    case_match; [done|]. by rewrite counter_settle.
  - intros ev st. destruct (counter_step ev st) as [->| ->]; lia.
  - intros evs st. apply counter_run.
  - intros st k Hb. by apply exhausted_rejects.
Qed.

Lemma scriptLoadAttempts_never_reset_witness :
  let spent := run (load_failures 3) (loadSetmoreWidget example_state) in
  let again := step (ScriptError 3) (loadSetmoreScript OnWidget spent) in
  scriptLoadAttempts spent = 3%Z
  ∧ scriptLoadAttempts again = 4%Z
  ∧ attempts again !! 3%nat ≫= result
    = Some (Rejected "Failed to load Setmore script after multiple attempts")
  ∧ length (attempts again) = 4%nat.
Proof.
  destruct scriptLoadAttempts_never_reset as (Hstep & _ & _ & Hspent).
  cbv zeta.
  destruct (Hspent (run (load_failures 3) (loadSetmoreWidget example_state)) OnWidget)
    as (Hrejected & _ & Hlen); [vm_compute; discriminate|].
  split_and!; [reflexivity| |exact Hrejected|exact Hlen].
  rewrite (Hstep (loadSetmoreScript OnWidget
                    (run (load_failures 3) (loadSetmoreWidget example_state))) 3%nat
             {| result := None; reactions := OnWidget; timeoutId := true;
                retryTimer := false; fired := false |});
    reflexivity.
Defined.

(** *** Further properties of the booking loader *)

(** A load of the attempt in flight resolves every promise of the chain and
    reaches the widget. *)
Lemma in_flight_load st0 (k : nat) st :
  in_flight st0 k st →
  ∃ st2, onload k st = widget_reaction Resolved st2
         ∧ config st2 = config st0 ∧ document st2 = document st0
         ∧ scriptLoadAttempts st2 = Z.of_nat k
         ∧ isScriptLoaded st2 = true
         ∧ attempts st2 !! 0%nat ≫= result = Some Resolved.
Proof.
  intros (Hcfg & Hdoc & Heff & Hcnt & Hlen & Hall & att & Hatt & Hfired & Htimer).
  unfold onload. rewrite Hatt, Hfired.
  destruct (Hall k att Hatt) as (_ & -> & _).
  match goal with |- context [settle k (chain k) ?o ?s] =>
    destruct (settle_chain k o s) as (l & Heq & Hl & Hres) end.
  { intros i Hi. cbn. rewrite !list_alter_alter_eq.
    destruct (lookup_lt_is_Some_2 (attempts st) i ltac:(lia)) as [x Hx].
    destruct (Hall i x Hx) as (? & ? & ?).
    rewrite list_lookup_alter. case_decide; subst; rewrite Hx; cbn; eauto. }
  eexists. split; [exact Heq|]. cbn in *. split_and!; auto.
  apply Hres. lia.
Qed.

Lemma widget_resolved st c l :
  document st !! "setmore-booking-container" = Some c →
  "setmore-booking-container" ∉ inside c →
  let st' := widget_reaction Resolved st in
  iframe <$> document st' !! "setmore-booking-container"
  = Some (Some (setmoreUrl (config st)))
  ∧ inside <$> document st' !! "setmore-booking-container" = Some []
  ∧ display <$> document st' !! "setmore-booking-container" = Some (display c)
  ∧ (document st !! "setmore-fallback-link" = Some l →
     "setmore-fallback-link" ∉ inside c →
     href <$> document st' !! "setmore-fallback-link" = Some (setmoreUrl (config st)))
  ∧ attempts st' = attempts st
  ∧ scriptLoadAttempts st' = scriptLoadAttempts st
  ∧ isScriptLoaded st' = isScriptLoaded st.
Proof.
  intros Hc Hin. cbn. unfold embedSetmoreWidget. cbn.
  rewrite lookup_alter_ne by done. rewrite Hc. cbn.
  assert (∀ key (d : gmap string Element) keys,
            key ∉ keys → foldr delete d keys !! key = d !! key) as Hdel.
  { intros key d keys. induction keys as [|x keys IH]; [done|].
    intros Hk. apply not_elem_of_cons in Hk as [Hne Hk]. cbn.
    rewrite lookup_delete_ne by done. by apply IH. }
  split_and!; try done.
  - rewrite lookup_alter_ne by done. rewrite lookup_alter_eq, Hdel by done.
    rewrite lookup_alter_ne by done. by rewrite Hc.
  - rewrite lookup_alter_ne by done. rewrite lookup_alter_eq, Hdel by done.
    rewrite lookup_alter_ne by done. by rewrite Hc.
  - rewrite lookup_alter_ne by done. rewrite lookup_alter_eq, Hdel by done.
    rewrite lookup_alter_ne by done. by rewrite Hc.
  - intros Hl Hlin. rewrite lookup_alter_eq. rewrite lookup_alter_ne by done.
    rewrite Hdel by done. rewrite lookup_alter_ne by done. by rewrite Hl.
Qed.

(** X16. On a booking page with the container, when the script loads at the
    first attempt or at a retry, after any number of failed attempts within
    the retry budget: the promise [loadSetmoreWidget] waits on is resolved,
    [isScriptLoaded] is set, and the container holds, in place of what it
    held, an iframe on [setmoreUrl]; the fallback link outside the container
    points to [setmoreUrl] too. *)
Theorem load_after_failures_embeds_widget (st0 : State) (n m : nat) (c l : Element) :
  scriptLoadAttempts st0 = 0%Z → attempts st0 = [] →
  retryAttempts (config st0) = Z.of_nat n → (m < n)%nat →
  document st0 !! "setmore-booking-container" = Some c →
  "setmore-booking-container" ∉ inside c →
  document st0 !! "setmore-fallback-link" = Some l →
  "setmore-fallback-link" ∉ inside c →
  let st := run (failed_and_retried 0 m ++ [ScriptLoad m]) (loadSetmoreWidget st0) in
  loader_promise st = Some Resolved
  ∧ isScriptLoaded st = true
  ∧ scriptLoadAttempts st = Z.of_nat m
  ∧ iframe <$> document st !! "setmore-booking-container"
    = Some (Some (setmoreUrl (config st0)))
  ∧ inside <$> document st !! "setmore-booking-container" = Some []
  ∧ href <$> document st !! "setmore-fallback-link" = Some (setmoreUrl (config st0)).
Proof.
  intros Hcnt Hatt Hn Hm Hc Hcin Hl Hlin. cbv zeta.
  rewrite run_app. cbn [run foldl step].
  pose proof (retried_in_flight st0 n c Hcnt Hatt Hn Hc m Hm) as Hin.
  destruct (in_flight_load (showLoadingState st0) m _ Hin)
    as (st2 & Heq & Hcfg & Hdoc & Hcnt2 & Hloaded & Hres).
  unfold run in *. rewrite Heq.
  assert (document st2 !! "setmore-booking-container" = Some c) as Hc2.
  { rewrite Hdoc. cbn. by rewrite lookup_alter_ne. }
  assert (document st2 !! "setmore-fallback-link" = Some l) as Hl2.
  { rewrite Hdoc. cbn. by rewrite lookup_alter_ne. }
  destruct (widget_resolved st2 c l Hc2 Hcin)
    as (Hif & Hins & _ & Hhref & Ha & Hcount & Hil).
  unfold loader_promise. rewrite Ha, Hres, Hil, Hcount, Hif, Hins, Hhref by done.
  rewrite Hcfg. by split_and!.
Qed.

Lemma load_after_failures_embeds_widget_witness :
  let st := run [ScriptError 0; RetryTimer 0; ScriptLoad 1]
              (loadSetmoreWidget example_state) in
  loader_promise st = Some Resolved
  ∧ iframe <$> document st !! "setmore-booking-container"
    = Some (Some "https://daixmarededa.setmore.com/book").
Proof.
  cbv zeta.
  destruct (load_after_failures_embeds_widget example_state 3 1
              (example_element "" [".booking-loading"]) (example_element "" []))
    as (H1 & _ & _ & H2 & _); try reflexivity.
  - lia.
  - intros Hin. apply list_elem_of_In in Hin. simpl in Hin. intuition discriminate.
  - intros Hin. apply list_elem_of_In in Hin. simpl in Hin. intuition discriminate.
  - split; [exact H1|exact H2].
Defined.

Lemma final_refl l : final l l.
Proof. by intros a o. Qed.

Lemma final_trans l1 l2 l3 : final l1 l2 → final l2 l3 → final l1 l3.
Proof. intros H1 H2 a o H. by apply H2, H1. Qed.

Lemma final_alter (f : Attempt → Attempt) k l :
  (∀ x, result (f x) = result x) → final l (alter f k l).
Proof.
  intros Hf a o. rewrite list_lookup_alter. case_decide; subst; [|done].
  destruct (l !! _) as [x|]; [|done]. cbn. by rewrite Hf.
Qed.

Lemma final_settled o l l' : Forall2 (settled_as o) l l' → final l l'.
Proof.
  intros H a o' Ha. destruct (l !! a) as [x|] eqn:Hx; [|done]. cbn in Ha.
  destruct (Forall2_lookup_l _ _ _ _ _ H Hx) as (y & Hy & Hs). rewrite Hy. cbn.
  destruct Hs as [->|[Hnone ->]]; [done|congruence].
Qed.

Lemma final_snoc l x : final l (l ++ [x]).
Proof.
  intros a o Ha. destruct (l !! a) as [y|] eqn:Hy; [|done].
  by rewrite (lookup_app_l_Some _ _ _ _ Hy).
Qed.

Lemma final_settle a k o st : final (attempts st) (attempts (settle a k o st)).
Proof. eapply final_settled. apply settle_spec. Qed.

Lemma final_initializeBookingWidget st :
  final (attempts st) (attempts (initializeBookingWidget st)).
Proof.
  unfold initializeBookingWidget, loadSetmoreWidget, showInternalBookingForm,
    setupInternalBookingForm.
  repeat case_match; try apply final_refl. cbn. apply final_snoc.
Qed.

Lemma final_step ev st : final (attempts st) (attempts (step ev st)).
Proof.
  destruct ev; cbn [step].
  - unfold init. case_match; [|apply final_refl].
    apply (final_initializeBookingWidget (setupFloatingButtonHandler st)).
  - unfold handleBookingClick, openSetmoreBooking, openInternalBooking.
    repeat case_match; apply final_refl.
  - unfold onload. repeat case_match; try apply final_refl.
    eapply final_trans; [|apply final_settle]. cbn.
    rewrite !list_alter_alter_eq. by apply final_alter.
  - unfold onerror. repeat case_match; try apply final_refl.
    + cbn. rewrite !list_alter_alter_eq. by apply final_alter.
    + eapply final_trans; [|apply final_settle]. cbn.
      rewrite !list_alter_alter_eq. by apply final_alter.
  - unfold on_timeout. repeat case_match; try apply final_refl.
    eapply final_trans; [|apply final_settle]. cbn. apply final_alter; done.
  - unfold on_retry. repeat case_match; try apply final_refl.
    unfold loadSetmoreScript, with_attempt. cbn [attempts set_attempts set_setmore_script].
    eapply final_trans; [|apply final_snoc]. by apply final_alter.
  - unfold on_window_error, showSetmoreFallback. repeat case_match; apply final_refl.
  - unfold handleInternalBookingSubmit. repeat case_match; apply final_refl.
  - unfold on_submitted. repeat case_match; apply final_refl.
  - apply final_refl.
  - unfold handleBookingClick, openSetmoreBooking, openInternalBooking.
    repeat case_match; apply final_refl.
  - unfold updateConfig. case_match; [|apply final_refl].
    apply (final_initializeBookingWidget (set_config _ st)).
  - unfold openSetmoreBooking. repeat case_match; apply final_refl.
  - apply final_refl.
Qed.

Lemma settled_load_is_ignored a st o :
  outcome st a = Some o →
  document (step (ScriptLoad a) st) = document st
  ∧ effects (step (ScriptLoad a) st) = effects st
  ∧ document (step (ScriptError a) st) = document st
  ∧ effects (step (ScriptError a) st) = effects st
  ∧ document (step (ScriptTimeout a) st) = document st
  ∧ effects (step (ScriptTimeout a) st) = effects st.
Proof.
  unfold outcome. intros Ho. destruct (attempts st !! a) as [att|] eqn:Ha; [|done].
  cbn in Ho.
  assert (∀ k o' f st', attempts st' = alter f a (attempts st) →
            (∀ x, result (f x) = result x) → settle a k o' st' = st') as Hsettle.
  { intros k o' f st' Hst' Hf. destruct k; cbn; unfold pending; rewrite Hst';
      rewrite list_lookup_alter_eq, Ha; cbn; by rewrite Hf, Ho. }
  cbn [step]. unfold onload, onerror, on_timeout. rewrite Ha.
  split_and!.
  - destruct (fired att); [done|].
    by rewrite (Hsettle _ _ (set_timeoutId false ∘ set_fired))
      by (by cbn; rewrite ?list_alter_alter_eq).
  - destruct (fired att); [done|].
    by rewrite (Hsettle _ _ (set_timeoutId false ∘ set_fired))
      by (by cbn; rewrite ?list_alter_alter_eq).
  - destruct (fired att); [done|]. cbn. case_match; [done|].
    by rewrite (Hsettle _ _ (set_timeoutId false ∘ set_fired))
      by (by cbn; rewrite ?list_alter_alter_eq).
  - destruct (fired att); [done|]. cbn. case_match; [done|].
    by rewrite (Hsettle _ _ (set_timeoutId false ∘ set_fired))
      by (by cbn; rewrite ?list_alter_alter_eq).
  - destruct (timeoutId att); [|done].
    by rewrite (Hsettle _ _ (set_timeoutId false)) by done.
  - destruct (timeoutId att); [|done].
    by rewrite (Hsettle _ _ (set_timeoutId false)) by done.
Qed.

(** X17. A promise of the loader is settled once: whatever happens after
    the promise of an attempt is resolved or rejected, its outcome stays;
    and the load, the error or the timeout of an attempt whose promise is
    settled (a load that arrives after the timeout rejected, say) leaves the
    page and the window as they are. *)
Theorem settled_promise_is_final (st : State) (a : nat) (o : Outcome)
    (evs : list Event) :
  outcome st a = Some o →
  outcome (run evs st) a = Some o
  ∧ (∀ ev, ev ∈ [ScriptLoad a; ScriptError a; ScriptTimeout a] →
       document (step ev (run evs st)) = document (run evs st)
       ∧ effects (step ev (run evs st)) = effects (run evs st)).
Proof.
  intros Ho.
  assert (outcome (run evs st) a = Some o) as Hrun.
  { revert st Ho. induction evs as [|ev evs IH]; intros st Ho; [done|].
    cbn [run foldl]. apply IH. by apply (final_step ev st). }
  split; [done|]. intros ev Hev.
  destruct (settled_load_is_ignored a (run evs st) o Hrun)
    as (H1 & H2 & H3 & H4 & H5 & H6).
  repeat (apply elem_of_cons in Hev as [->|Hev]; [done|]).
  by apply elem_of_nil in Hev.
Qed.

Lemma settled_promise_is_final_witness :
  let st := run [DOMContentLoaded; ScriptTimeout 0] example_state in
  outcome (run [ScriptLoad 0; FloatingButtonClick] st) 0
  = Some (Rejected "Script loading timeout").
Proof.
  cbv zeta.
  apply (settled_promise_is_final (run [DOMContentLoaded; ScriptTimeout 0] example_state)
           0 (Rejected "Script loading timeout") [ScriptLoad 0; FloatingButtonClick]).
  reflexivity.
Defined.

Lemma armed_alter (f : Attempt → Attempt) : ∀ (l : list Attempt) k att,
  l !! k = Some att →
  (armed (alter f k l) + (if retryTimer att then 1 else 0)
   = armed l + (if retryTimer (f att) then 1 else 0))%nat.
Proof.
  induction l as [|x l IH]; intros [|k] att Hk; try done.
  - cbn in Hk. injection Hk as ->. unfold armed. cbn. lia.
  - cbn in Hk. specialize (IH k att Hk). unfold armed in *. cbn in *. lia.
Qed.

Lemma armed_alter_same (f : Attempt → Attempt) (l : list Attempt) k :
  (∀ x, retryTimer (f x) = retryTimer x) → armed (alter f k l) = armed l.
Proof.
  intros Hf. destruct (l !! k) as [att|] eqn:Hk.
  - pose proof (armed_alter f l k att Hk) as H. rewrite Hf in H. lia.
  - assert (alter f k l = l) as ->; [|done]. apply list_eq. intros i.
    rewrite list_lookup_alter. case_decide; subst; [by rewrite Hk|done].
Qed.

Lemma armed_snoc l x :
  armed (l ++ [x]) = (armed l + (if retryTimer x then 1 else 0))%nat.
Proof.
  unfold armed. induction l as [|y l IH]; cbn; [lia|]. cbn in IH. rewrite IH. lia.
Qed.

Lemma armed_settled o l l' :
  Forall2 (settled_as o) l l' → armed l' = armed l ∧ length l' = length l.
Proof.
  induction 1 as [|x y l l' Hxy _ [IH1 IH2]]; [done|].
  unfold armed in *. cbn. rewrite IH1, IH2.
  by destruct Hxy as [->|[_ ->]].
Qed.

Lemma budget_settle c a k o st :
  within_budget c st → within_budget c (settle a k o st).
Proof.
  intros (Hc & H1 & H2). destruct (settle_spec k a o st) as [Hcnt Hl].
  destruct (armed_settled _ _ _ Hl) as [Ha Hlen].
  assert (config (settle a k o st) = config st) as Hcfg.
  { clear. revert a st. induction k as [|outer k IH]; intros a st; cbn;
      destruct (pending st a); try done.
    - destruct o; cbn; unfold embedSetmoreWidget, showSetmoreFallback; cbn;
        by repeat case_match.
    - by rewrite IH. }
  unfold within_budget. by rewrite Hcfg, Hcnt, Ha, Hlen.
Qed.

Lemma budget_same c st st' :
  config st' = config st → attempts st' = attempts st →
  scriptLoadAttempts st' = scriptLoadAttempts st →
  within_budget c st → within_budget c st'.
Proof. unfold within_budget. by intros -> -> ->. Qed.

Lemma budget_flags c st a (f : Attempt → Attempt) :
  (∀ x, retryTimer (f x) = retryTimer x) →
  within_budget c st → within_budget c (with_attempt a f st).
Proof.
  intros Hf (Hc & H1 & H2). unfold within_budget, with_attempt.
  cbn [config attempts scriptLoadAttempts set_attempts].
  by rewrite armed_alter_same, length_alter.
Qed.

Lemma budget_step c ev st :
  starts_loader ev = false → within_budget c st → within_budget c (step ev st).
Proof.
  intros Hev Hinv. destruct ev; try done; cbn [step].
  - unfold handleBookingClick, openSetmoreBooking, openInternalBooking.
    repeat case_match; by apply (budget_same c st).
  - unfold onload. repeat case_match; try done.
    apply budget_settle. apply (budget_same c (with_attempt a (set_timeoutId false)
                                                 (with_attempt a set_fired st))); try done.
    by repeat (apply budget_flags; [done|]).
  - unfold onerror. destruct (attempts st !! a) as [att|] eqn:Ha; [|done].
    destruct (fired att) eqn:Hf; [done|]. cbv zeta.
    set (st1 := with_attempt a (set_timeoutId false) (with_attempt a set_fired st)).
    assert (within_budget c st1) as (Hc & H1 & H2)
      by (by repeat (apply budget_flags; [done|])).
    assert (attempts st1 !! a = Some (set_timeoutId false (set_fired att))) as Ha1.
    { unfold st1. cbn. by rewrite !list_lookup_alter_eq, Ha. }
    change (scriptLoadAttempts (set_scriptLoadAttempts ?x ?s)) with x.
    change (config (set_scriptLoadAttempts ?x ?s)) with (config s).
    change (config (script_remove a st1)) with (config st1).
    change (scriptLoadAttempts (script_remove a st1)) with (scriptLoadAttempts st1).
    destruct (scriptLoadAttempts st1 + 1 <? retryAttempts (config st1))%Z eqn:E.
    + apply Z.ltb_lt in E. rewrite Hc in E.
      pose proof (armed_alter (set_retryTimer true) _ _ _ Ha1) as Harm.
      unfold within_budget. cbn [config attempts scriptLoadAttempts with_attempt
        set_attempts set_scriptLoadAttempts script_remove set_setmore_script].
      rewrite length_alter.
      cbn [retryTimer set_retryTimer set_timeoutId set_fired] in Harm.
      destruct (retryTimer att); split_and!; [done|lia|lia|done|lia|lia].
    + apply budget_settle. unfold within_budget.
      cbn [config attempts scriptLoadAttempts set_scriptLoadAttempts script_remove
           set_setmore_script]. split_and!; [done|lia|lia].
  - unfold on_timeout. repeat case_match; try done.
    apply budget_settle.
    apply (budget_same c (with_attempt a (set_timeoutId false) st)); try done.
    by apply budget_flags; [done|].
  - unfold on_retry. destruct (attempts st !! a) as [att|] eqn:Ha; [|done].
    destruct (retryTimer att) eqn:Hr; [|done]. cbv zeta.
    destruct Hinv as (Hc & H1 & H2).
    pose proof (armed_alter (set_retryTimer false) _ _ _ Ha) as Harm.
    rewrite Hr in Harm. cbn [retryTimer set_retryTimer] in Harm.
    unfold within_budget, loadSetmoreScript, with_attempt.
    cbn [config attempts scriptLoadAttempts set_attempts set_setmore_script].
    rewrite armed_snoc, length_app, length_alter. cbn. split_and!; [done|lia|lia].
  - unfold on_window_error, showSetmoreFallback.
    repeat case_match; by apply (budget_same c st).
  - unfold handleInternalBookingSubmit. repeat case_match; by apply (budget_same c st).
  - unfold on_submitted. repeat case_match; by apply (budget_same c st).
  - unfold handleBookingClick, openSetmoreBooking, openInternalBooking.
    repeat case_match; by apply (budget_same c st).
  - unfold openSetmoreBooking. repeat case_match; by apply (budget_same c st).
Qed.

Lemma budget_init st0 :
  attempts st0 = [] → scriptLoadAttempts st0 = 0%Z →
  within_budget (config st0) (init st0).
Proof.
  intros Ha Hc. unfold init, initializeBookingWidget, loadSetmoreWidget,
    showInternalBookingForm, setupInternalBookingForm, within_budget.
  repeat case_match; cbn; rewrite ?Ha, ?Hc; cbn; split_and!; try done; lia.
Qed.

(** X18. The retry budget bounds the script loads of a page: from the
    initialisation on, whatever the order of the loads, errors, timeouts,
    timers and clicks that follow (the events that start the loader anew,
    [DOMContentLoaded] and [updateConfig], apart), the loader makes at most
    [retryAttempts] attempts, and one when [retryAttempts] is below 1. *)
Theorem attempts_within_retry_budget (st0 : State) (evs : list Event) :
  attempts st0 = [] → scriptLoadAttempts st0 = 0%Z →
  Forall (λ ev, starts_loader ev = false) evs →
  let st := run evs (step DOMContentLoaded st0) in
  (Z.of_nat (length (attempts st)) ≤ Z.max 1 (retryAttempts (config st0)))%Z.
Proof.
  intros Ha Hc Hevs. cbv zeta.
  assert (within_budget (config st0) (run evs (step DOMContentLoaded st0)))
    as (_ & _ & H).
  { cbn [step]. pose proof (budget_init st0 Ha Hc) as Hinit.
    revert Hinit. generalize (init st0). induction Hevs as [|ev evs Hev _ IH];
      intros st Hst; [done|].
    cbn [run foldl]. apply IH. by apply budget_step. }
  lia.
Qed.

Lemma attempts_within_retry_budget_witness :
  (Z.of_nat (length (attempts
     (run [ScriptError 0; RetryTimer 0; ScriptTimeout 1; ScriptError 1; RetryTimer 1;
           ScriptLoad 0; FloatingButtonClick]
        (step DOMContentLoaded example_state)))) ≤ 3)%Z.
Proof.
  apply (attempts_within_retry_budget example_state
           [ScriptError 0; RetryTimer 0; ScriptTimeout 1; ScriptError 1; RetryTimer 1;
            ScriptLoad 0; FloatingButtonClick]); try reflexivity.
  repeat constructor.
Defined.

Lemma falls_back_refl d : falls_back d d.
Proof. split; intros e' H; exists e'; auto. Qed.

Lemma displayed_or_trans key shown d1 d2 d3 :
  displayed_or key shown d1 d2 → displayed_or key shown d2 d3 →
  displayed_or key shown d1 d3.
Proof.
  intros H1 H2 e3 H3. destruct (H2 e3 H3) as (e2 & He2 & Hd2).
  destruct (H1 e2 He2) as (e1 & He1 & Hd1). exists e1. split; [done|].
  destruct Hd2 as [->| ->]; auto.
Qed.

Lemma falls_back_trans d1 d2 d3 : falls_back d1 d2 → falls_back d2 d3 → falls_back d1 d3.
Proof. intros [H1 H2] [H3 H4]. split; eapply displayed_or_trans; eauto. Qed.

Lemma displayed_or_alter key shown k f (d : gmap string Element) :
  (k = key → ∀ e, display (f e) = display e ∨ display (f e) = shown) →
  displayed_or key shown d (alter f k d).
Proof.
  intros Hf e'. destruct (decide (k = key)) as [->|Hne].
  - rewrite lookup_alter_eq. destruct (d !! key) as [e|]; [|done]. cbn.
    intros [= <-]. exists e. split; [done|]. by apply Hf.
  - rewrite lookup_alter_ne by done. intros H. exists e'. auto.
Qed.

Lemma displayed_or_delete key shown keys (d : gmap string Element) :
  displayed_or key shown d (foldr delete d keys).
Proof.
  induction keys as [|k keys IH]; [intros e' H; exists e'; auto|].
  cbn. intros e'. destruct (decide (k = key)) as [->|Hne].
  - by rewrite lookup_delete_eq.
  - rewrite lookup_delete_ne by done. apply IH.
Qed.

Lemma falls_back_with key f st :
  (key = "setmore-booking-container" →
   ∀ e, display (f e) = display e ∨ display (f e) = "none") →
  (key = "booking-fallback" →
   ∀ e, display (f e) = display e ∨ display (f e) = "block") →
  falls_back (document st) (document (with_element key f st)).
Proof. intros H1 H2. split; by apply displayed_or_alter. Qed.

Create HintDb fallback.
#[local] Hint Resolve falls_back_refl : fallback.

Ltac fallback :=
  lazymatch goal with
  | |- falls_back ?d ?d => apply falls_back_refl
  | |- falls_back _ (document (with_element ?key ?f ?st)) =>
      eapply falls_back_trans;
      [|apply falls_back_with; intros Hk ?; try discriminate Hk; auto]; fallback
  | |- falls_back _ (document (emit _ ?st)) =>
      change (document (emit ?x st)) with (document st); fallback
  | _ => auto with fallback
  end.

Lemma falls_back_showSetmoreFallback st :
  falls_back (document st) (document (showSetmoreFallback st)).
Proof.
  unfold showSetmoreFallback, setupSetmoreFallbackLink. cbv zeta.
  case_match; fallback.
Qed.
#[local] Hint Resolve falls_back_showSetmoreFallback : fallback.

Lemma falls_back_embedSetmoreWidget st :
  falls_back (document st) (document (embedSetmoreWidget st)).
Proof.
  unfold embedSetmoreWidget, setupSetmoreFallbackLink. case_match; [|fallback].
  cbv zeta. eapply falls_back_trans; [|apply falls_back_with; intros Hk ?;
                                        try discriminate Hk; auto].
  cbn [document set_document].
  eapply falls_back_trans; [split; apply displayed_or_delete|].
  split; apply displayed_or_alter; intros Hk ?; try discriminate Hk; auto.
Qed.
#[local] Hint Resolve falls_back_embedSetmoreWidget : fallback.

Lemma falls_back_widget_reaction o st :
  falls_back (document st) (document (widget_reaction o st)).
Proof.
  destruct o; cbn [widget_reaction].
  - eapply falls_back_trans; [|apply falls_back_embedSetmoreWidget].
    unfold hideLoadingState. fallback.
  - eapply falls_back_trans; [|apply falls_back_showSetmoreFallback].
    unfold hideLoadingState. fallback.
Qed.

Lemma falls_back_settle k : ∀ a o st,
  falls_back (document st) (document (settle a k o st)).
Proof.
  induction k as [|outer k IH]; intros a o st; cbn [settle];
    destruct (pending st a); try apply falls_back_refl.
  - eapply falls_back_trans; [|apply falls_back_widget_reaction]. apply falls_back_refl.
  - eapply falls_back_trans; [|apply IH]. apply falls_back_refl.
Qed.

Lemma falls_back_initializeBookingWidget st :
  falls_back (document st) (document (initializeBookingWidget st)).
Proof.
  unfold initializeBookingWidget, loadSetmoreWidget, showInternalBookingForm,
    setupInternalBookingForm, loadSetmoreScript, showLoadingState.
  repeat case_match; cbn [document set_setmore_script set_attempts]; fallback.
Qed.

Lemma falls_back_step ev st : falls_back (document st) (document (step ev st)).
Proof.
  destruct ev; cbn [step].
  - unfold init. case_match.
    + eapply falls_back_trans; [|apply falls_back_initializeBookingWidget].
      unfold setupFloatingButtonHandler. fallback.
    + unfold setupFloatingButtonHandler. fallback.
  - unfold handleBookingClick, openSetmoreBooking, openInternalBooking.
    repeat case_match; fallback.
  - unfold onload. repeat case_match; try apply falls_back_refl.
    eapply falls_back_trans; [|apply falls_back_settle]. apply falls_back_refl.
  - unfold onerror. repeat case_match; try apply falls_back_refl.
    eapply falls_back_trans; [|apply falls_back_settle]. apply falls_back_refl.
  - unfold on_timeout. repeat case_match; try apply falls_back_refl.
    eapply falls_back_trans; [|apply falls_back_settle]. apply falls_back_refl.
  - unfold on_retry. repeat case_match; apply falls_back_refl.
  - unfold on_window_error. case_match; [|apply falls_back_refl].
    eapply falls_back_trans; [|apply falls_back_showSetmoreFallback]. apply falls_back_refl.
  - unfold handleInternalBookingSubmit. case_match; [|apply falls_back_refl].
    cbn [document set_submissions]. fallback.
  - unfold on_submitted. repeat case_match; cbn [document set_submissions emit];
      fallback.
  - apply falls_back_refl.
  - unfold handleBookingClick, openSetmoreBooking, openInternalBooking.
    repeat case_match; fallback.
  - unfold updateConfig. case_match; [|apply falls_back_refl].
    eapply falls_back_trans; [|apply falls_back_initializeBookingWidget].
    apply falls_back_refl.
  - unfold openSetmoreBooking. repeat case_match; fallback.
  - apply falls_back_refl.
Qed.

Lemma falls_back_run evs : ∀ st, falls_back (document st) (document (run evs st)).
Proof.
  induction evs as [|ev evs IH]; intros st; [apply falls_back_refl|].
  cbn [run foldl]. eapply falls_back_trans; [apply falls_back_step|apply IH].
Qed.

(** X19. Falling back is one-way: once the script has hidden the Setmore
    container, nothing it does shows the container again, and once it
    displays the fallback, nothing it does hides the fallback again, whatever
    loads, fails, is clicked or reconfigured afterwards. *)
Theorem fallback_is_never_undone (st : State) (evs : list Event) :
  (display <$> document st !! "setmore-booking-container" = Some "none" →
   ∀ e, document (run evs st) !! "setmore-booking-container" = Some e →
        display e = "none")
  ∧ (display <$> document st !! "booking-fallback" = Some "block" →
     ∀ e, document (run evs st) !! "booking-fallback" = Some e →
          display e = "block").
Proof.
  destruct (falls_back_run evs st) as [Hc Hf]. split.
  - intros H e He. destruct (Hc e He) as (e0 & He0 & Hd). rewrite He0 in H.
    injection H as H. destruct Hd as [->|Hd]; done.
  - intros H e He. destruct (Hf e He) as (e0 & He0 & Hd). rewrite He0 in H.
    injection H as H. destruct Hd as [->|Hd]; done.
Qed.

Lemma fallback_is_never_undone_witness :
  display <$>
    document
      (run [ScriptLoad 0;
            UpdateConfig {| new_provider := None; new_setmoreUrl := None;
                            new_internalRoute := None; new_scriptTimeout := None;
                            new_retryAttempts := None |};
            ScriptLoad 1]
         (run [DOMContentLoaded; ScriptTimeout 0] example_state))
    !! "booking-fallback"
  = Some "block".
Proof.
  destruct (fallback_is_never_undone
              (run [DOMContentLoaded; ScriptTimeout 0] example_state)
              [ScriptLoad 0;
               UpdateConfig {| new_provider := None; new_setmoreUrl := None;
                               new_internalRoute := None; new_scriptTimeout := None;
                               new_retryAttempts := None |};
               ScriptLoad 1]) as [_ H].
  specialize (H eq_refl).
  destruct (document _ !! "booking-fallback") as [e|] eqn:E.
  - cbn. f_equal. by apply H.
  - vm_compute in E. discriminate E.
Defined.

End BookingFacts.

(** ** Properties of lightbox.js *)
Module LightboxFacts.
Import Lightbox.

(** *** The focus

    Moving the focus changes [activeElement] alone. *)
Lemma focus_cases t st : focus t st = st ∨ focus t st = set_activeElement t st.
Proof. unfold focus. destruct (rendered t st); auto. Qed.

Lemma blur_hidden_cases st :
  blur_hidden st = st ∨ blur_hidden st = set_activeElement Body st.
Proof. unfold blur_hidden. destruct (rendered (activeElement st) st); auto. Qed.

Ltac focus_frame :=
  intros;
  lazymatch goal with
  | |- context [focus ?t ?st] => destruct (focus_cases t st) as [-> | ->]
  | |- context [blur_hidden ?st] => destruct (blur_hidden_cases st) as [-> | ->]
  end; done.

Lemma isOpen_focus t st : isOpen (focus t st) = isOpen st.
Proof. focus_frame. Qed.
Lemma isOpen_blur_hidden st : isOpen (blur_hidden st) = isOpen st.
Proof. focus_frame. Qed.
Lemma focused_focus t st :
  focusedElementBeforeModal (focus t st) = focusedElementBeforeModal st.
Proof. focus_frame. Qed.
Lemma focused_blur_hidden st :
  focusedElementBeforeModal (blur_hidden st) = focusedElementBeforeModal st.
Proof. focus_frame. Qed.
Lemma currentIndex_focus t st : currentIndex (focus t st) = currentIndex st.
Proof. focus_frame. Qed.
Lemma currentIndex_blur_hidden st : currentIndex (blur_hidden st) = currentIndex st.
Proof. focus_frame. Qed.
Lemma galleryItems_focus t st : galleryItems (focus t st) = galleryItems st.
Proof. focus_frame. Qed.
Lemma galleryItems_blur_hidden st : galleryItems (blur_hidden st) = galleryItems st.
Proof. focus_frame. Qed.
Lemma preloads_focus t st : preloads (focus t st) = preloads st.
Proof. focus_frame. Qed.
Lemma preloads_blur_hidden st : preloads (blur_hidden st) = preloads st.
Proof. focus_frame. Qed.
Lemma openTimers_focus t st : openTimers (focus t st) = openTimers st.
Proof. focus_frame. Qed.
Lemma openTimers_blur_hidden st : openTimers (blur_hidden st) = openTimers st.
Proof. focus_frame. Qed.
Lemma focusables_focus t st : focusables (focus t st) = focusables st.
Proof. focus_frame. Qed.
Lemma focusables_blur_hidden st : focusables (blur_hidden st) = focusables st.
Proof. focus_frame. Qed.
Lemma document_focus t st : document (focus t st) = document st.
Proof. focus_frame. Qed.
Lemma document_blur_hidden st : document (blur_hidden st) = document st.
Proof. focus_frame. Qed.
Lemma element_focus key t st : element key (focus t st) = element key st.
Proof. focus_frame. Qed.
Lemma element_blur_hidden key st : element key (blur_hidden st) = element key st.
Proof. focus_frame. Qed.
Lemma has_focus key t st : has key (focus t st) = has key st.
Proof. focus_frame. Qed.
Lemma has_blur_hidden key st : has key (blur_hidden st) = has key st.
Proof. focus_frame. Qed.
Lemma length_of_focus t st : length_of (focus t st) = length_of st.
Proof. focus_frame. Qed.
Lemma length_of_blur_hidden st : length_of (blur_hidden st) = length_of st.
Proof. focus_frame. Qed.

Create HintDb modal.

Lemma same_modal_refl st : same_modal st st.
Proof. by repeat split. Qed.

Lemma same_modal_trans st1 st2 st3 :
  same_modal st1 st2 → same_modal st2 st3 → same_modal st1 st3.
Proof.
  intros (? & ? & H1) (? & ? & H2). split_and!; [congruence..|].
  intros key. by rewrite H2, H1.
Qed.

Lemma has_alter key key' f (d : gmap string Element) st :
  has key (set_document (alter f key' d) st) = has key (set_document d st).
Proof.
  unfold has, element. cbn.
  rewrite !lookup_alter. repeat case_decide; subst;
    repeat (destruct (_ !! _); cbn); done.
Qed.

Lemma same_modal_with_element key f st : same_modal st (with_element key f st).
Proof.
  unfold with_element. destruct (element key st); [|apply same_modal_refl].
  repeat split; auto. intros key'. rewrite has_alter. by destruct st.
Qed.

Lemma same_modal_focus t st : same_modal st (focus t st).
Proof.
  split_and!; [apply isOpen_focus|apply focused_focus|intros key; apply has_focus].
Qed.

Lemma same_modal_blur_hidden st : same_modal st (blur_hidden st).
Proof.
  split_and!; [apply isOpen_blur_hidden|apply focused_blur_hidden
              |intros key; apply has_blur_hidden].
Qed.

Lemma same_modal_set_currentIndex i st : same_modal st (set_currentIndex i st).
Proof. by repeat split. Qed.

Lemma same_modal_set_preloads l st : same_modal st (set_preloads l st).
Proof. by repeat split. Qed.

Lemma same_modal_set_openTimers n st : same_modal st (set_openTimers n st).
Proof. by repeat split. Qed.

Lemma same_modal_set_announcements l st : same_modal st (set_announcements l st).
Proof. by repeat split. Qed.

Lemma same_modal_set_toasts l st : same_modal st (set_toasts l st).
Proof. by repeat split. Qed.

Lemma same_modal_set_gallery_grid g st : same_modal st (set_gallery_grid g st).
Proof. by repeat split. Qed.

Lemma same_modal_set_galleryItems l st : same_modal st (set_galleryItems l st).
Proof. by repeat split. Qed.

#[local] Hint Resolve same_modal_refl same_modal_with_element same_modal_focus
  same_modal_blur_hidden
  same_modal_set_currentIndex same_modal_set_preloads same_modal_set_openTimers
  same_modal_set_announcements same_modal_set_toasts same_modal_set_gallery_grid
  same_modal_set_galleryItems : modal.

Ltac modal :=
  cbv zeta;
  lazymatch goal with
  | |- same_modal ?st ?st => apply same_modal_refl
  | |- same_modal _ (match ?x with _ => _ end) => destruct x eqn:?; modal
  | |- same_modal ?st (?f ?st) => solve [eauto with modal]
  | |- same_modal ?st (?f ?x) =>
      apply (same_modal_trans st x (f x)); [modal | solve [eauto with modal]]
  end.

Lemma same_modal_showToast msg st : same_modal st (showToast msg st).
Proof. unfold showToast. modal. Qed.
#[local] Hint Resolve same_modal_showToast : modal.

Lemma same_modal_handleImageError st : same_modal st (handleImageError st).
Proof. unfold handleImageError. modal. Qed.
#[local] Hint Resolve same_modal_handleImageError : modal.

Lemma same_modal_updateImageInfo ov st : same_modal st (updateImageInfo ov st).
Proof. unfold updateImageInfo. modal. Qed.
#[local] Hint Resolve same_modal_updateImageInfo : modal.

Lemma same_modal_loadCurrentImage st : same_modal st (loadCurrentImage st).
Proof. unfold loadCurrentImage, showLoadingState. modal. Qed.
#[local] Hint Resolve same_modal_loadCurrentImage : modal.

Lemma same_modal_updateNavigation st : same_modal st (updateNavigation st).
Proof. unfold updateNavigation. modal. Qed.
#[local] Hint Resolve same_modal_updateNavigation : modal.

Lemma same_modal_updateCounter st : same_modal st (updateCounter st).
Proof. unfold updateCounter. modal. Qed.
#[local] Hint Resolve same_modal_updateCounter : modal.

Lemma same_modal_announce msg st : same_modal st (announceToScreenReader msg st).
Proof. unfold announceToScreenReader. modal. Qed.
#[local] Hint Resolve same_modal_announce : modal.

Lemma same_modal_showPreviousImage st : same_modal st (showPreviousImage st).
Proof. unfold showPreviousImage. modal. Qed.

Lemma same_modal_showNextImage st : same_modal st (showNextImage st).
Proof. unfold showNextImage. modal. Qed.
#[local] Hint Resolve same_modal_showPreviousImage same_modal_showNextImage : modal.

Lemma same_modal_handleFocusTrap s st : same_modal st (handleFocusTrap s st).
Proof. unfold handleFocusTrap. modal. Qed.
#[local] Hint Resolve same_modal_handleFocusTrap : modal.

Lemma same_modal_on_preload_load k st : same_modal st (on_preload_load k st).
Proof. unfold on_preload_load, hideLoadingState. modal. Qed.

Lemma same_modal_on_preload_error k st : same_modal st (on_preload_error k st).
Proof. unfold on_preload_error, hideLoadingState. modal. Qed.

Lemma same_modal_on_open_timer st : same_modal st (on_open_timer st).
Proof. unfold on_open_timer. modal. Qed.

Lemma same_modal_refresh st : same_modal st (refresh st).
Proof. unfold refresh. modal. Qed.
#[local] Hint Resolve same_modal_on_preload_load same_modal_on_preload_error
  same_modal_on_open_timer same_modal_refresh : modal.

(** An event that neither opens nor closes keeps the modal variables. *)
Lemma same_modal_step ev st :
  stays_open ev = true → same_modal st (step ev st).
Proof.
  destruct ev; cbn [stays_open step]; try done; intros Hev; try solve [modal].
  unfold handleKeydown. apply negb_true_iff in Hev. rewrite Hev. modal.
Qed.

Lemma same_modal_run evs : ∀ st,
  Forall (λ ev, stays_open ev = true) evs → same_modal st (run evs st).
Proof.
  induction evs as [|ev evs IH]; intros st Hall; [apply same_modal_refl|].
  apply Forall_cons in Hall as [Hev Hall]. cbn [run foldl].
  eapply same_modal_trans; [by apply same_modal_step|by apply IH].
Qed.

Lemma element_with_element key key' f st :
  element key (with_element key' f st)
  = if decide (key = key') then f <$> element key st else element key st.
Proof.
  unfold with_element. destruct (element key' st) as [e'|] eqn:He'.
  - unfold element in *. cbn. rewrite !lookup_alter.
    destruct (document st !! "lightbox") as [lb|] eqn:Hlb; [|done].
    repeat case_decide; subst; try done; rewrite ?Hlb; cbn; try done;
      by destruct (document st !! key').
  - case_decide; subst; [by rewrite He'|done].
Qed.

Lemma same_cursor_refl st : same_cursor st st.
Proof. by split. Qed.

Lemma same_cursor_trans st1 st2 st3 :
  same_cursor st1 st2 → same_cursor st2 st3 → same_cursor st1 st3.
Proof. intros [??] [??]. split; congruence. Qed.

Lemma same_cursor_with_element key f st : same_cursor st (with_element key f st).
Proof. unfold with_element. by destruct (element key st). Qed.

Lemma same_cursor_set_preloads l st : same_cursor st (set_preloads l st).
Proof. by split. Qed.

Lemma same_cursor_set_announcements l st : same_cursor st (set_announcements l st).
Proof. by split. Qed.

Lemma same_cursor_set_toasts l st : same_cursor st (set_toasts l st).
Proof. by split. Qed.

Lemma same_cursor_blur_hidden st : same_cursor st (blur_hidden st).
Proof. split; [apply currentIndex_blur_hidden|apply galleryItems_blur_hidden]. Qed.

Create HintDb cursor.
#[local] Hint Resolve same_cursor_refl same_cursor_with_element same_cursor_set_preloads
  same_cursor_blur_hidden
  same_cursor_set_announcements same_cursor_set_toasts : cursor.

Ltac cursor :=
  cbv zeta;
  lazymatch goal with
  | |- same_cursor ?st ?st => apply same_cursor_refl
  | |- same_cursor _ (match ?x with _ => _ end) => destruct x eqn:?; cursor
  | |- same_cursor ?st (?f ?st) => solve [eauto with cursor]
  | |- same_cursor ?st (?f ?x) =>
      apply (same_cursor_trans st x (f x)); [cursor | solve [eauto with cursor]]
  end.

Lemma same_cursor_loadCurrentImage st : same_cursor st (loadCurrentImage st).
Proof. unfold loadCurrentImage, showLoadingState. cursor. Qed.

Lemma same_cursor_updateNavigation st : same_cursor st (updateNavigation st).
Proof. unfold updateNavigation. cursor. Qed.

Lemma same_cursor_updateCounter st : same_cursor st (updateCounter st).
Proof. unfold updateCounter. cursor. Qed.

Lemma same_cursor_announce msg st : same_cursor st (announceToScreenReader msg st).
Proof. unfold announceToScreenReader. cursor. Qed.

Lemma same_cursor_showToast msg st : same_cursor st (showToast msg st).
Proof. unfold showToast. cursor. Qed.
#[local] Hint Resolve same_cursor_loadCurrentImage same_cursor_updateNavigation
  same_cursor_updateCounter same_cursor_announce same_cursor_showToast : cursor.

Lemma same_cursor_updateImageInfo ov st : same_cursor st (updateImageInfo ov st).
Proof. unfold updateImageInfo. cursor. Qed.
#[local] Hint Resolve same_cursor_updateImageInfo : cursor.

Lemma same_cursor_on_preload_load k st : same_cursor st (on_preload_load k st).
Proof. unfold on_preload_load, hideLoadingState. cursor. Qed.

Lemma showNextImage_index st :
  isOpen st = true → (1 < length_of st)%Z →
  currentIndex (showNextImage st)
  = if (currentIndex st <? length_of st - 1)%Z then (currentIndex st + 1)%Z else 0%Z.
Proof.
  intros Ho Hn. unfold showNextImage. rewrite Ho. cbn [negb orb].
  apply Z.leb_gt in Hn. rewrite Hn.
  match goal with |- currentIndex ?x = _ =>
    assert (same_cursor (set_currentIndex
      (if (currentIndex st <? length_of st - 1)%Z then (currentIndex st + 1)%Z else 0%Z) st) x)
      as [-> _] by cursor end.
  done.
Qed.

Lemma showPreviousImage_index st :
  isOpen st = true → (1 < length_of st)%Z →
  currentIndex (showPreviousImage st)
  = if (0 <? currentIndex st)%Z then (currentIndex st - 1)%Z else (length_of st - 1)%Z.
Proof.
  intros Ho Hn. unfold showPreviousImage. rewrite Ho. cbn [negb orb].
  apply Z.leb_gt in Hn. rewrite Hn.
  match goal with |- currentIndex ?x = _ =>
    assert (same_cursor (set_currentIndex
      (if (0 <? currentIndex st)%Z then (currentIndex st - 1)%Z else (length_of st - 1)%Z) st) x)
      as [-> _] by cursor end.
  done.
Qed.

(** *** What is inside the lightbox stays the same *)

Lemma focusables_with_element key f st :
  focusables (with_element key f st) = focusables st.
Proof. unfold with_element. by destruct (element key st). Qed.

Create Rewrite HintDb page.
#[local] Hint Rewrite focusables_with_element focusables_focus focusables_blur_hidden
  : page.

Ltac page :=
  intros; repeat case_match;
  repeat (progress
            (autorewrite with page;
             cbn [focusables set_currentIndex set_galleryItems set_isOpen
                  set_focusedElementBeforeModal set_activeElement set_preloads
                  set_openTimers set_announcements set_toasts set_gallery_grid
                  set_document]));
  try done.

Lemma focusables_announce msg st :
  focusables (announceToScreenReader msg st) = focusables st.
Proof. done. Qed.
Lemma focusables_showToast msg st : focusables (showToast msg st) = focusables st.
Proof. unfold showToast. page. Qed.
Lemma focusables_showLoadingState st : focusables (showLoadingState st) = focusables st.
Proof. unfold showLoadingState. page. Qed.
Lemma focusables_hideLoadingState st : focusables (hideLoadingState st) = focusables st.
Proof. unfold hideLoadingState. page. Qed.
#[local] Hint Rewrite focusables_announce focusables_showToast
  focusables_showLoadingState focusables_hideLoadingState : page.

Lemma focusables_handleImageError st : focusables (handleImageError st) = focusables st.
Proof. unfold handleImageError. cbv zeta. page. Qed.
Lemma focusables_updateImageInfo ov st :
  focusables (updateImageInfo ov st) = focusables st.
Proof. unfold updateImageInfo. cbv zeta. autorewrite with page. done. Qed.
#[local] Hint Rewrite focusables_handleImageError focusables_updateImageInfo : page.

Lemma focusables_loadCurrentImage st : focusables (loadCurrentImage st) = focusables st.
Proof. unfold loadCurrentImage. cbv zeta. page. Qed.
Lemma focusables_updateNavigation st : focusables (updateNavigation st) = focusables st.
Proof. unfold updateNavigation. cbv zeta. autorewrite with page. done. Qed.
Lemma focusables_updateCounter st : focusables (updateCounter st) = focusables st.
Proof. unfold updateCounter. page. Qed.
#[local] Hint Rewrite focusables_loadCurrentImage focusables_updateNavigation
  focusables_updateCounter : page.

Lemma focusables_on_preload_load k st : focusables (on_preload_load k st) = focusables st.
Proof. unfold on_preload_load. cbv zeta. page. Qed.
Lemma focusables_on_preload_error k st :
  focusables (on_preload_error k st) = focusables st.
Proof. unfold on_preload_error. cbv zeta. page. Qed.
Lemma focusables_openLightbox index st :
  focusables (openLightbox index st) = focusables st.
Proof. unfold openLightbox. cbv zeta. page. Qed.
Lemma focusables_on_open_timer st : focusables (on_open_timer st) = focusables st.
Proof. unfold on_open_timer. cbv zeta. page. Qed.
Lemma focusables_closeLightbox st : focusables (closeLightbox st) = focusables st.
Proof. unfold closeLightbox. cbv zeta. page. Qed.
Lemma focusables_showPreviousImage st :
  focusables (showPreviousImage st) = focusables st.
Proof. unfold showPreviousImage. cbv zeta. page. Qed.
Lemma focusables_showNextImage st : focusables (showNextImage st) = focusables st.
Proof. unfold showNextImage. cbv zeta. page. Qed.
Lemma focusables_handleFocusTrap shiftKey st :
  focusables (handleFocusTrap shiftKey st) = focusables st.
Proof. unfold handleFocusTrap. page. Qed.
#[local] Hint Rewrite focusables_on_preload_load focusables_on_preload_error
  focusables_openLightbox focusables_on_open_timer focusables_closeLightbox
  focusables_showPreviousImage focusables_showNextImage focusables_handleFocusTrap
  : page.

Lemma focusables_handleKeydown key shiftKey st :
  focusables (handleKeydown key shiftKey st) = focusables st.
Proof. unfold handleKeydown. page. Qed.

Lemma focusables_step ev st : focusables (step ev st) = focusables st.
Proof.
  destruct ev; cbn [step]; page.
  - apply focusables_handleKeydown.
  - unfold refresh. page.
Qed.

Lemma focusables_run evs : ∀ st, focusables (run evs st) = focusables st.
Proof.
  induction evs as [|ev evs IH]; intros st; [done|].
  cbn [run foldl]. etrans; [apply IH|apply focusables_step].
Qed.

Lemma in_lightbox_ext t st st' :
  focusables st' = focusables st → in_lightbox t st' = in_lightbox t st.
Proof. intros H. unfold in_lightbox. by rewrite H. Qed.

Lemma rendered_outside t st : in_lightbox t st = false → rendered t st = true.
Proof. intros H. unfold rendered. by rewrite H. Qed.

Lemma activeElement_with_element key f st :
  activeElement (with_element key f st) = activeElement st.
Proof. unfold with_element. by destruct (element key st). Qed.

Lemma isOpen_with_element key f st : isOpen (with_element key f st) = isOpen st.
Proof. unfold with_element. by destruct (element key st). Qed.

Lemma closeLightbox_focus st t :
  has "lightbox" st = true → isOpen st = true →
  focusedElementBeforeModal st = Some t → in_lightbox t st = false →
  activeElement (closeLightbox st) = t ∧ isOpen (closeLightbox st) = false.
Proof.
  intros Hl Ho Hf Hout. unfold closeLightbox. rewrite Hl, Ho. cbn [negb orb]. cbv zeta.
  set (st1 := with_element "body" _ _).
  assert (same_modal (set_isOpen false st) st1) as (Ho1 & Hf1 & _) by (unfold st1; modal).
  assert (focusables st1 = focusables st) as Hfs
    by (unfold st1; by rewrite !focusables_with_element).
  cbn in Ho1, Hf1. rewrite Hf1, Hf.
  assert (focus t st1 = set_activeElement t st1) as ->.
  { unfold focus. rewrite rendered_outside; [done|].
    by rewrite (in_lightbox_ext t st st1). }
  set (st2 := announceToScreenReader _ _).
  assert (activeElement st2 = t ∧ isOpen st2 = false ∧ focusables st2 = focusables st)
    as (Ha & Ho2 & Hfs2).
  { unfold st2, announceToScreenReader.
    change (activeElement (set_announcements ?l ?s)) with (activeElement s).
    change (isOpen (set_announcements ?l ?s)) with (isOpen s).
    change (focusables (set_announcements ?l ?s)) with (focusables s).
    rewrite !activeElement_with_element, !isOpen_with_element,
      !focusables_with_element.
    by cbn. }
  unfold blur_hidden. rewrite Ha, rendered_outside; [done|].
  by rewrite (in_lightbox_ext t st st2).
Qed.

Lemma openLightbox_opens st index :
  has "lightbox" st = true → (0 ≤ index < length_of st)%Z →
  let st' := openLightbox index st in
  has "lightbox" st' = true ∧ isOpen st' = true
  ∧ focusedElementBeforeModal st' = Some (activeElement st)
  ∧ currentIndex st' = index.
Proof.
  intros Hl [H0 Hn]. unfold openLightbox. rewrite Hl. cbn [negb orb].
  destruct (length_of st =? 0)%Z eqn:E0; [apply Z.eqb_eq in E0; lia|].
  destruct (index <? 0)%Z eqn:E1; [apply Z.ltb_lt in E1; lia|].
  destruct (length_of st <=? index)%Z eqn:E2; [apply Z.leb_le in E2; lia|].
  cbn [orb].
  match goal with |- context [has "lightbox" ?x] =>
    assert (same_modal (set_isOpen true (set_currentIndex index
      (set_focusedElementBeforeModal (Some (activeElement st)) st))) x) as (Ho & Hf & Hh)
      by modal;
    assert (same_cursor (set_isOpen true (set_currentIndex index
      (set_focusedElementBeforeModal (Some (activeElement st)) st))) x) as (Hc & _)
  end.
  { unfold announceToScreenReader. cbv zeta.
    eapply same_cursor_trans; [|apply same_cursor_set_announcements].
    eapply same_cursor_trans; [|by split].
    repeat (eapply same_cursor_trans; [|apply same_cursor_with_element]). by split. }
  rewrite Hh, Ho, Hf, Hc. cbn. by split_and!.
Qed.

(** *** The properties of the lightbox *)

(** C5. Navigation is cyclic over a gallery of N items: with the lightbox
    open at index N-1, [showNextImage] sets the current index to 0, and with
    it open at index 0, [showPreviousImage] sets the current index to N-1. *)
Theorem navigation_is_cyclic (st : State) :
  isOpen st = true →
  (0 < length_of st)%Z →
  (currentIndex st = (length_of st - 1)%Z → currentIndex (showNextImage st) = 0%Z)
  ∧ (currentIndex st = 0%Z →
     currentIndex (showPreviousImage st) = (length_of st - 1)%Z).
Proof.
  intros Ho Hn. destruct (decide (length_of st = 1%Z)) as [H1|H1].
  - unfold showNextImage, showPreviousImage. rewrite Ho, H1. cbn. split; lia.
  - split; intros Hi.
    + rewrite showNextImage_index by (done || lia). rewrite Hi.
      by rewrite Z.ltb_irrefl.
    + rewrite showPreviousImage_index by (done || lia). by rewrite Hi.
Qed.

Lemma navigation_is_cyclic_witness :
  currentIndex (showNextImage (openLightbox 1 example_state)) = 0%Z
  ∧ currentIndex (showPreviousImage (openLightbox 0 example_state)) = 1%Z.
Proof.
  split.
  - apply (navigation_is_cyclic (openLightbox 1 example_state)); reflexivity.
  - apply (navigation_is_cyclic (openLightbox 0 example_state)); reflexivity.
Defined.

(** C6. When the lightbox is closed after [openLightbox] opened it, the
    focus is back on the element that had it just before [openLightbox] was
    called, whatever happened while it was open that neither opened nor
    closed it: navigation by keys or buttons, focus moves, timers, image
    loads.  The lightbox is opened from the closed state, the focus being on
    an element of the page outside the lightbox, where it is while the
    lightbox is hidden.  The Escape key and the close call of the interface
    close it this way. *)
Theorem close_restores_focus (st : State) (index : Z) (evs : list Event) :
  has "lightbox" st = true →
  isOpen st = false →
  in_lightbox (activeElement st) st = false →
  (0 ≤ index < length_of st)%Z →
  Forall (λ ev, stays_open ev = true) evs →
  let opened := run evs (openLightbox index st) in
  isOpen opened = true
  ∧ activeElement (closeLightbox opened) = activeElement st
  ∧ isOpen (closeLightbox opened) = false
  ∧ (∀ shiftKey, step (Keydown "Escape" shiftKey) opened = closeLightbox opened)
  ∧ step CloseLightbox opened = closeLightbox opened.
Proof.
  intros Hl Hclosed Hout Hi Hevs opened.
  destruct (openLightbox_opens st index Hl Hi) as (Hl1 & Ho1 & Hf1 & _).
  destruct (same_modal_run evs (openLightbox index st) Hevs) as (Ho2 & Hf2 & Hh2).
  assert (isOpen opened = true) as Ho by (unfold opened; by rewrite Ho2).
  assert (has "lightbox" opened = true) as Hh by (unfold opened; by rewrite Hh2).
  assert (focusedElementBeforeModal opened = Some (activeElement st)) as Hf
    by (unfold opened; by rewrite Hf2).
  assert (in_lightbox (activeElement st) opened = false) as Hout'.
  { rewrite (in_lightbox_ext _ st opened); [done|].
    unfold opened. by rewrite focusables_run, focusables_openLightbox. }
  destruct (closeLightbox_focus opened (activeElement st) Hh Ho Hf Hout')
    as [Hfocus Hc].
  split_and!; try done.
  intros shiftKey. cbn [step]. unfold handleKeydown. by rewrite Hh, Ho.
Qed.

Lemma close_restores_focus_witness :
  activeElement
    (closeLightbox
       (run [OpenTimer; Keydown "ArrowRight" false; PreloadLoad 1; NextClick;
             Keydown "Tab" true]
          (openLightbox 0 example_state)))
  = GalleryItem 0.
Proof.
  apply (close_restores_focus example_state 0
           [OpenTimer; Keydown "ArrowRight" false; PreloadLoad 1; NextClick;
            Keydown "Tab" true]).
  - reflexivity.
  - reflexivity.
  - reflexivity.
  - vm_compute. split; [discriminate|reflexivity].
  - repeat constructor.
Defined.

(** A second call of [openLightbox] on the open lightbox, with the focus on
    the close button, stores the button; closing hides the lightbox before
    it restores the focus, the button does not take it, and the focus ends
    on the body. *)
Lemma reopened_lightbox_loses_focus :
  let opened := run [ItemActivate 0; OpenTimer] example_state in
  let closed := run [OpenLightbox 1; CloseLightbox] opened in
  activeElement example_state = GalleryItem 0
  ∧ activeElement opened = Close
  ∧ isOpen closed = false
  ∧ activeElement closed = Body.
Proof. cbv zeta. split_and!; reflexivity. Qed.

(** C7, as the claim has it, fails: on the example page the visitor opens the
    first image and goes to the second before the first has loaded; the
    second loads and is displayed, then the outdated load of the first
    completes and its image replaces that of the current index. *)
Lemma stale_preload_counterexample :
  let st := run [ItemActivate 0; OpenTimer; Keydown "ArrowRight" false; PreloadLoad 1]
              example_state in
  let st' := step (PreloadLoad 0) st in
  currentIndex st = 1%Z
  ∧ current_source st = Some "b.jpg"
  ∧ src <$> element "lightbox-image" st = Some "b.jpg"
  ∧ currentIndex st' = 1%Z
  ∧ src <$> element "lightbox-image" st' = Some "a.jpg"
  ∧ ¬ stale_load_discarded st 0.
Proof.
  cbv zeta. split_and!; try reflexivity.
  intros Hdiscarded.
  specialize (Hdiscarded {| fullSrc := "a.jpg"; captured_alt := "";
                            captured_overlay := None; finished := false |}
                eq_refl).
  assert (Some "a.jpg" = Some "b.jpg") as Heq; [|discriminate Heq].
  apply Hdiscarded. vm_compute. discriminate.
Qed.

(** C7, amended. A preload started by [loadCurrentImage] that completes is
    displayed whatever the current index has become: its [onload] writes the
    source and the alternative text it captured to the lightbox image and
    does not look at the index, so the image displayed is that of the load
    that completed last. *)
Theorem completed_preload_is_displayed (st : State) (k : nat) (p : Preload)
    (image : Element) :
  preloads st !! k = Some p →
  finished p = false →
  element "lightbox-image" st = Some image →
  let st' := step (PreloadLoad k) st in
  src <$> element "lightbox-image" st' = Some (fullSrc p)
  ∧ alt <$> element "lightbox-image" st' = Some (captured_alt p)
  ∧ currentIndex st' = currentIndex st.
Proof.
  intros Hp Hf Hi. cbn [step]. cbv zeta.
  split_and!; [| |apply same_cursor_on_preload_load].
  - unfold on_preload_load. rewrite Hp, Hf. unfold updateImageInfo, hideLoadingState.
    cbv zeta. rewrite !element_with_element.
    repeat (case_decide; try done). change (element "lightbox-image" (set_preloads _ st))
      with (element "lightbox-image" st). by rewrite Hi.
  - unfold on_preload_load. rewrite Hp, Hf. unfold updateImageInfo, hideLoadingState.
    cbv zeta. rewrite !element_with_element.
    repeat (case_decide; try done). change (element "lightbox-image" (set_preloads _ st))
      with (element "lightbox-image" st). by rewrite Hi.
Qed.

Lemma completed_preload_is_displayed_witness :
  let st := run [ItemActivate 0; OpenTimer; Keydown "ArrowRight" false; PreloadLoad 1]
              example_state in
  src <$> element "lightbox-image" (step (PreloadLoad 0) st) = Some "a.jpg"
  ∧ currentIndex (step (PreloadLoad 0) st) = 1%Z.
Proof.
  cbv zeta.
  destruct (completed_preload_is_displayed
              (run [ItemActivate 0; OpenTimer; Keydown "ArrowRight" false; PreloadLoad 1]
                 example_state) 0
              {| fullSrc := "a.jpg"; captured_alt := "";
                 captured_overlay := None; finished := false |}
              {| textContent := ""; display := "none"; src := "b.jpg"; alt := "";
                 opacity := "1"; aria_hidden := "true"; overflow := "" |})
    as (Hsrc & _ & Hindex); try reflexivity.
  split; [exact Hsrc|exact Hindex].
Defined.

(** *** Further properties of the lightbox *)

Lemma same_cursor_focus t st : same_cursor st (focus t st).
Proof. split; [apply currentIndex_focus|apply galleryItems_focus]. Qed.

Lemma same_cursor_set_openTimers n st : same_cursor st (set_openTimers n st).
Proof. by split. Qed.

Lemma same_cursor_set_gallery_grid g st : same_cursor st (set_gallery_grid g st).
Proof. by split. Qed.

Lemma same_cursor_set_isOpen b st : same_cursor st (set_isOpen b st).
Proof. by split. Qed.

Lemma same_cursor_set_focused t st :
  same_cursor st (set_focusedElementBeforeModal t st).
Proof. by split. Qed.
#[local] Hint Resolve same_cursor_focus same_cursor_set_openTimers
  same_cursor_set_gallery_grid same_cursor_set_isOpen same_cursor_set_focused : cursor.

Lemma same_cursor_handleImageError st : same_cursor st (handleImageError st).
Proof. unfold handleImageError. cursor. Qed.
#[local] Hint Resolve same_cursor_handleImageError same_cursor_on_preload_load : cursor.

Lemma same_cursor_on_preload_error k st : same_cursor st (on_preload_error k st).
Proof. unfold on_preload_error, hideLoadingState. cursor. Qed.

Lemma same_cursor_on_open_timer st : same_cursor st (on_open_timer st).
Proof. unfold on_open_timer. cursor. Qed.

Lemma same_cursor_handleFocusTrap s st : same_cursor st (handleFocusTrap s st).
Proof. unfold handleFocusTrap. cursor. Qed.

Lemma same_cursor_closeLightbox st : same_cursor st (closeLightbox st).
Proof. unfold closeLightbox. cursor. Qed.
#[local] Hint Resolve same_cursor_on_preload_error same_cursor_on_open_timer
  same_cursor_handleFocusTrap same_cursor_closeLightbox : cursor.

Lemma in_range_same st st' :
  same_cursor st st' → isOpen st' = isOpen st → in_range st → in_range st'.
Proof.
  intros [Hi Hg] Ho H. unfold in_range, length_of in *. rewrite Ho, Hi, Hg. done.
Qed.

Lemma in_range_kept st st' :
  same_cursor st st' → same_modal st st' → in_range st → in_range st'.
Proof. intros Hc (Ho & _). by apply in_range_same. Qed.

Lemma closeLightbox_isOpen st :
  closeLightbox st = st ∨ isOpen (closeLightbox st) = false.
Proof.
  unfold closeLightbox. destruct (negb (has "lightbox" st) || negb (isOpen st));
    [by left|right]. cbv zeta.
  unfold announceToScreenReader. rewrite isOpen_blur_hidden.
  change (isOpen (set_announcements ?l ?s)) with (isOpen s).
  rewrite !isOpen_with_element.
  destruct (focusedElementBeforeModal _);
    cbn [isOpen set_focusedElementBeforeModal];
    rewrite ?isOpen_focus, !isOpen_with_element; done.
Qed.

Lemma in_range_closeLightbox st : in_range st → in_range (closeLightbox st).
Proof.
  intros H. destruct (closeLightbox_isOpen st) as [->|Hc]; [done|].
  intros Ho. congruence.
Qed.

Lemma in_range_openLightbox index st : in_range st → in_range (openLightbox index st).
Proof.
  intros H. unfold openLightbox.
  destruct (has "lightbox" st) eqn:Hl; [|done]. cbn [negb orb].
  destruct (length_of st =? 0)%Z eqn:E0; [done|].
  destruct (index <? 0)%Z eqn:E1; [done|].
  destruct (length_of st <=? index)%Z eqn:E2; [done|]. cbn [orb].
  apply Z.ltb_ge in E1. apply Z.leb_gt in E2.
  pose proof (openLightbox_opens st index Hl (conj E1 E2)) as Hopen.
  unfold openLightbox in Hopen. rewrite Hl, E0 in Hopen. cbn [negb orb] in Hopen.
  apply Z.ltb_ge in E1. apply Z.leb_gt in E2. rewrite E1, E2 in Hopen.
  cbn [orb] in Hopen. cbv zeta in Hopen. destruct Hopen as (_ & _ & _ & Hi).
  intros _. rewrite Hi.
  match goal with |- (_ ≤ _ < length_of ?x)%Z =>
    assert (galleryItems x = galleryItems st) as Hg end.
  { unfold announceToScreenReader. cbn [galleryItems set_announcements set_openTimers].
    repeat match goal with |- galleryItems (with_element ?k ?f ?s) = _ =>
      destruct (same_cursor_with_element k f s) as [_ ->] end. done. }
  unfold length_of. rewrite Hg. apply Z.ltb_ge in E1. apply Z.leb_gt in E2.
  unfold length_of in E2. lia.
Qed.

Lemma galleryItems_navigation st i :
  galleryItems (updateCounter (updateNavigation (loadCurrentImage (set_currentIndex i st))))
  = galleryItems st
  ∧ currentIndex (updateCounter (updateNavigation (loadCurrentImage (set_currentIndex i st))))
    = i
  ∧ isOpen (updateCounter (updateNavigation (loadCurrentImage (set_currentIndex i st))))
    = isOpen st.
Proof.
  assert (same_cursor (set_currentIndex i st)
            (updateCounter (updateNavigation (loadCurrentImage (set_currentIndex i st)))))
    as [Hi Hg] by cursor.
  assert (same_modal (set_currentIndex i st)
            (updateCounter (updateNavigation (loadCurrentImage (set_currentIndex i st)))))
    as (Ho & _) by modal.
  by rewrite Hi, Hg, Ho.
Qed.

Lemma in_range_navigate st i :
  (0 ≤ i < length_of st)%Z →
  in_range (updateCounter (updateNavigation (loadCurrentImage (set_currentIndex i st)))).
Proof.
  intros Hi _. destruct (galleryItems_navigation st i) as (Hg & -> & _).
  unfold length_of. by rewrite Hg.
Qed.

Lemma in_range_showNextImage st : in_range st → in_range (showNextImage st).
Proof.
  intros H. unfold showNextImage.
  destruct (isOpen st) eqn:Ho; [|done]. cbn [negb orb].
  destruct (length_of st <=? 1)%Z eqn:E; [done|].
  apply Z.leb_gt in E. specialize (H Ho). cbv zeta.
  eapply in_range_same; [apply same_cursor_announce|done|].
  apply in_range_navigate. case_match; lia.
Qed.

Lemma in_range_showPreviousImage st : in_range st → in_range (showPreviousImage st).
Proof.
  intros H. unfold showPreviousImage.
  destruct (isOpen st) eqn:Ho; [|done]. cbn [negb orb].
  destruct (length_of st <=? 1)%Z eqn:E; [done|].
  apply Z.leb_gt in E. specialize (H Ho). cbv zeta.
  eapply in_range_same; [apply same_cursor_announce|done|].
  apply in_range_navigate. case_match; lia.
Qed.

Lemma in_range_handleKeydown key shiftKey st :
  in_range st → in_range (handleKeydown key shiftKey st).
Proof.
  intros H. unfold handleKeydown.
  destruct (isOpen st) eqn:Ho; [|done]. cbn [negb].
  repeat case_match; try done.
  - by apply in_range_closeLightbox.
  - by apply in_range_showPreviousImage.
  - by apply in_range_showNextImage.
  - apply in_range_navigate. lia.
  - apply in_range_navigate. lia.
  - eapply in_range_kept; [apply same_cursor_handleFocusTrap
                          |apply same_modal_handleFocusTrap|done].
Qed.

Lemma in_range_step ev st :
  is_refresh ev = false → in_range st → in_range (step ev st).
Proof.
  intros Hev H. destruct ev; try done; cbn [step].
  - by apply in_range_openLightbox.
  - case_match; [by apply in_range_closeLightbox|done].
  - case_match; [by apply in_range_closeLightbox|done].
  - case_match; [by apply in_range_showPreviousImage|done].
  - case_match; [by apply in_range_showNextImage|done].
  - case_match; [by apply in_range_handleKeydown|done].
  - eapply in_range_kept; [apply same_cursor_on_open_timer
                          |apply same_modal_on_open_timer|done].
  - eapply in_range_kept; [apply same_cursor_on_preload_load
                          |apply same_modal_on_preload_load|done].
  - eapply in_range_kept; [apply same_cursor_on_preload_error
                          |apply same_modal_on_preload_error|done].
  - case_match; [|done].
    eapply in_range_kept; [apply same_cursor_handleImageError
                          |apply same_modal_handleImageError|done].
  - case_match; [by apply in_range_closeLightbox|done].
  - case_match; [|done].
    eapply in_range_kept; [apply same_cursor_updateNavigation
                          |apply same_modal_updateNavigation|done].
  - eapply in_range_kept; [apply same_cursor_focus|apply same_modal_focus|done].
  - by apply in_range_openLightbox.
  - by apply in_range_closeLightbox.
Qed.

(** X20. While the lightbox is open the current index designates an item of
    the gallery: this holds after every event, keys, clicks, timers, image
    loads, calls of [closeLightbox] and calls of [openLightbox] with an
    integer index alike, as long as the gallery is not refreshed under the
    open lightbox. *)
Theorem current_index_stays_in_range (st : State) (evs : list Event) :
  in_range st →
  Forall (λ ev, is_refresh ev = false) evs →
  in_range (run evs st)
  ∧ (isOpen (run evs st) = true →
     is_Some (item_at (run evs st) (currentIndex (run evs st)))).
Proof.
  intros Hst Hevs.
  assert (in_range (run evs st)) as H.
  { revert st Hst. induction Hevs as [|ev evs Hev _ IH]; intros st Hst; [done|].
    cbn [run foldl]. apply IH. by apply in_range_step. }
  split; [done|]. intros Ho. specialize (H Ho). unfold item_at, length_of in *.
  destruct (currentIndex (run evs st) <? 0)%Z eqn:E; [apply Z.ltb_lt in E; lia|].
  apply lookup_lt_is_Some. lia.
Qed.

Lemma current_index_stays_in_range_witness :
  is_Some
    (item_at
       (run [ItemActivate 1; OpenTimer; Keydown "ArrowRight" false; Keydown "End" false;
             PrevClick; OpenLightbox 7] example_state)
       (currentIndex
          (run [ItemActivate 1; OpenTimer; Keydown "ArrowRight" false;
                Keydown "End" false; PrevClick; OpenLightbox 7] example_state))).
Proof.
  apply (current_index_stays_in_range example_state
           [ItemActivate 1; OpenTimer; Keydown "ArrowRight" false; Keydown "End" false;
            PrevClick; OpenLightbox 7]).
  - intros Ho. discriminate Ho.
  - repeat constructor.
  - reflexivity.
Defined.

Lemma galleryItems_showNextImage st :
  galleryItems (showNextImage st) = galleryItems st
  ∧ isOpen (showNextImage st) = isOpen st.
Proof.
  unfold showNextImage. destruct (negb (isOpen st) || (length_of st <=? 1)%Z); [done|].
  cbv zeta. unfold announceToScreenReader.
  cbn [galleryItems isOpen set_announcements].
  by destruct (galleryItems_navigation st
                 (if (currentIndex st <? length_of st - 1)%Z
                  then (currentIndex st + 1)%Z else 0%Z)) as (-> & _ & ->).
Qed.

Lemma galleryItems_showPreviousImage st :
  galleryItems (showPreviousImage st) = galleryItems st
  ∧ isOpen (showPreviousImage st) = isOpen st.
Proof.
  unfold showPreviousImage.
  destruct (negb (isOpen st) || (length_of st <=? 1)%Z); [done|].
  cbv zeta. unfold announceToScreenReader.
  cbn [galleryItems isOpen set_announcements].
  by destruct (galleryItems_navigation st
                 (if (0 <? currentIndex st)%Z
                  then (currentIndex st - 1)%Z else (length_of st - 1)%Z))
    as (-> & _ & ->).
Qed.

Lemma next_index_mod st :
  isOpen st = true → (0 ≤ currentIndex st < length_of st)%Z →
  currentIndex (showNextImage st) = ((currentIndex st + 1) mod length_of st)%Z.
Proof.
  intros Ho Hi. destruct (decide (length_of st = 1%Z)) as [H1|H1].
  - unfold showNextImage. rewrite Ho, H1. cbn.
    replace (currentIndex st) with 0%Z by lia. done.
  - rewrite showNextImage_index by (done || lia).
    destruct (currentIndex st <? length_of st - 1)%Z eqn:E.
    + apply Z.ltb_lt in E. rewrite Z.mod_small by lia. done.
    + apply Z.ltb_ge in E.
      replace (currentIndex st + 1)%Z with (length_of st) by lia.
      by rewrite Z.mod_same by lia.
Qed.

Lemma previous_index_mod st :
  isOpen st = true → (0 ≤ currentIndex st < length_of st)%Z →
  currentIndex (showPreviousImage st) = ((currentIndex st - 1) mod length_of st)%Z.
Proof.
  intros Ho Hi. destruct (decide (length_of st = 1%Z)) as [H1|H1].
  - unfold showPreviousImage. rewrite Ho, H1. cbn.
    replace (currentIndex st) with 0%Z by lia. done.
  - rewrite showPreviousImage_index by (done || lia).
    destruct (0 <? currentIndex st)%Z eqn:E.
    + apply Z.ltb_lt in E. rewrite Z.mod_small by lia. done.
    + apply Z.ltb_ge in E. replace (currentIndex st) with 0%Z by lia.
      replace (0 - 1)%Z with (-1 + 1 * length_of st - length_of st + 0)%Z by lia.
      replace (-1 + 1 * length_of st - length_of st + 0)%Z
        with ((length_of st - 1) + (-1) * length_of st)%Z by lia.
      rewrite Z.mod_add by lia. rewrite Z.mod_small by lia. done.
Qed.

Lemma times_next k : ∀ st,
  isOpen st = true → (0 ≤ currentIndex st < length_of st)%Z →
  currentIndex (times k showNextImage st)
  = ((currentIndex st + Z.of_nat k) mod length_of st)%Z.
Proof.
  induction k as [|k IH]; intros st Ho Hi.
  - cbn. rewrite Z.add_0_r, Z.mod_small by lia. done.
  - cbn [times]. destruct (galleryItems_showNextImage st) as [Hg Ho'].
    assert (length_of (showNextImage st) = length_of st) as Hlen
      by (unfold length_of; by rewrite Hg).
    rewrite IH.
    + rewrite Hlen, next_index_mod by done.
      rewrite Z.add_mod_idemp_l by lia. f_equal. lia.
    + by rewrite Ho'.
    + rewrite Hlen, next_index_mod by done. apply Z.mod_pos_bound. lia.
Qed.

Lemma times_previous k : ∀ st,
  isOpen st = true → (0 ≤ currentIndex st < length_of st)%Z →
  currentIndex (times k showPreviousImage st)
  = ((currentIndex st - Z.of_nat k) mod length_of st)%Z.
Proof.
  induction k as [|k IH]; intros st Ho Hi.
  - cbn. rewrite Z.sub_0_r, Z.mod_small by lia. done.
  - cbn [times]. destruct (galleryItems_showPreviousImage st) as [Hg Ho'].
    assert (length_of (showPreviousImage st) = length_of st) as Hlen
      by (unfold length_of; by rewrite Hg).
    rewrite IH.
    + rewrite Hlen, previous_index_mod by done.
      rewrite Zminus_mod_idemp_l. f_equal. lia.
    + by rewrite Ho'.
    + rewrite Hlen, previous_index_mod by done. apply Z.mod_pos_bound. lia.
Qed.

(** X21. Navigation goes round the gallery: in an open lightbox,
    [showPreviousImage] undoes [showNextImage] and the other way round, and
    as many steps forward, or backward, as the gallery has items lead back
    to the image they started from. *)
Theorem navigation_goes_round (st : State) :
  isOpen st = true → (0 ≤ currentIndex st < length_of st)%Z →
  currentIndex (showPreviousImage (showNextImage st)) = currentIndex st
  ∧ currentIndex (showNextImage (showPreviousImage st)) = currentIndex st
  ∧ currentIndex (times (length (galleryItems st)) showNextImage st) = currentIndex st
  ∧ currentIndex (times (length (galleryItems st)) showPreviousImage st)
    = currentIndex st.
Proof.
  intros Ho Hi.
  destruct (galleryItems_showNextImage st) as [Hgn Hon].
  destruct (galleryItems_showPreviousImage st) as [Hgp Hop].
  assert (length_of (showNextImage st) = length_of st) as Hln
    by (unfold length_of; by rewrite Hgn).
  assert (length_of (showPreviousImage st) = length_of st) as Hlp
    by (unfold length_of; by rewrite Hgp).
  split_and!.
  - rewrite previous_index_mod; rewrite ?Hln, ?next_index_mod, ?Hon; try done.
    + rewrite Zminus_mod_idemp_l. replace (currentIndex st + 1 - 1)%Z
        with (currentIndex st) by lia. by rewrite Z.mod_small.
    + apply Z.mod_pos_bound. lia.
  - rewrite next_index_mod; rewrite ?Hlp, ?previous_index_mod, ?Hop; try done.
    + rewrite Z.add_mod_idemp_l by lia. replace (currentIndex st - 1 + 1)%Z
        with (currentIndex st) by lia. by rewrite Z.mod_small.
    + apply Z.mod_pos_bound. lia.
  - rewrite times_next by done. fold (length_of st).
    replace (currentIndex st + length_of st)%Z
      with (currentIndex st + 1 * length_of st)%Z by lia.
    rewrite Z.mod_add by lia. by rewrite Z.mod_small.
  - rewrite times_previous by done. fold (length_of st).
    replace (currentIndex st - length_of st)%Z
      with (currentIndex st + (-1) * length_of st)%Z by lia.
    rewrite Z.mod_add by lia. by rewrite Z.mod_small.
Qed.

Lemma navigation_goes_round_witness :
  let st := openLightbox 1 example_state in
  currentIndex (showPreviousImage (showNextImage st)) = currentIndex st
  ∧ currentIndex (times (length (galleryItems st)) showNextImage st) = currentIndex st.
Proof.
  cbv zeta.
  destruct (navigation_goes_round (openLightbox 1 example_state)) as (H1 & _ & H2 & _).
  - reflexivity.
  - vm_compute. split; [discriminate|reflexivity].
  - split; [exact H1|exact H2].
Defined.

Lemma same_at_refl key st : same_at key st st.
Proof. by split. Qed.

Lemma same_at_trans key st1 st2 st3 :
  same_at key st1 st2 → same_at key st2 st3 → same_at key st1 st3.
Proof. intros [H1 H2] [H3 H4]. split; congruence. Qed.

Lemma openTimers_with_element key f st :
  openTimers (with_element key f st) = openTimers st.
Proof. unfold with_element. by destruct (element key st). Qed.

Lemma same_at_with_element key key' f st :
  key ≠ key' → same_at key st (with_element key' f st).
Proof.
  intros Hne. split; [|apply openTimers_with_element].
  rewrite element_with_element. by rewrite decide_False.
Qed.

Lemma same_at_focus key t st : same_at key st (focus t st).
Proof. split; [apply element_focus|apply openTimers_focus]. Qed.

Lemma same_at_blur_hidden key st : same_at key st (blur_hidden st).
Proof. split; [apply element_blur_hidden|apply openTimers_blur_hidden]. Qed.

Ltac at_key :=
  cbv zeta;
  lazymatch goal with
  | |- same_at _ ?st ?st => apply same_at_refl
  | |- same_at _ _ (match ?x with _ => _ end) => destruct x eqn:?; at_key
  | |- same_at ?k ?st (with_element ?k' ?f ?x) =>
      apply (same_at_trans k st x); [at_key | by apply same_at_with_element]
  | |- same_at ?k ?st (set_preloads ?l ?x) =>
      apply (same_at_trans k st x); [at_key | by split]
  | |- same_at ?k ?st (set_announcements ?l ?x) =>
      apply (same_at_trans k st x); [at_key | by split]
  | |- same_at ?k ?st (set_toasts ?l ?x) =>
      apply (same_at_trans k st x); [at_key | by split]
  | |- same_at ?k ?st (set_currentIndex ?l ?x) =>
      apply (same_at_trans k st x); [at_key | by split]
  | |- same_at ?k ?st (set_isOpen ?l ?x) =>
      apply (same_at_trans k st x); [at_key | by split]
  | |- same_at ?k ?st (set_focusedElementBeforeModal ?l ?x) =>
      apply (same_at_trans k st x); [at_key | by split]
  | |- same_at ?k ?st (set_gallery_grid ?l ?x) =>
      apply (same_at_trans k st x); [at_key | by split]
  | |- same_at ?k ?st (focus ?l ?x) =>
      apply (same_at_trans k st x); [at_key | apply same_at_focus]
  | |- same_at ?k ?st (blur_hidden ?x) =>
      apply (same_at_trans k st x); [at_key | apply same_at_blur_hidden]
  end.

Lemma same_at_showToast key msg st : same_at key st (showToast msg st).
Proof. unfold showToast. at_key. Qed.

Lemma same_at_announce key msg st : same_at key st (announceToScreenReader msg st).
Proof. unfold announceToScreenReader. at_key. Qed.

Lemma same_at_handleImageError key st :
  key ≠ "lightbox-image" → key ≠ "lightbox-title" → key ≠ "lightbox-description" →
  same_at key st (handleImageError st).
Proof.
  intros H1 H2 H3. unfold handleImageError. cbv zeta.
  eapply same_at_trans; [|apply same_at_showToast]. at_key.
Qed.

Lemma same_at_updateImageInfo key ov st :
  key ≠ "lightbox-title" → key ≠ "lightbox-description" →
  same_at key st (updateImageInfo ov st).
Proof. intros H1 H2. unfold updateImageInfo. at_key. Qed.

Lemma same_at_loadCurrentImage key st :
  key ≠ "lightbox-image" → same_at key st (loadCurrentImage st).
Proof. intros H1. unfold loadCurrentImage, showLoadingState. at_key. Qed.

Lemma same_at_updateNavigation key st :
  key ≠ "lightbox-prev" → key ≠ "lightbox-next" → same_at key st (updateNavigation st).
Proof. intros H1 H2. unfold updateNavigation. at_key. Qed.

Lemma same_at_updateCounter key st :
  key ≠ "lightbox-counter" → same_at key st (updateCounter st).
Proof. intros H1. unfold updateCounter. at_key. Qed.

Lemma same_at_on_preload_load key k st :
  key ≠ "lightbox-image" → key ≠ "lightbox-title" → key ≠ "lightbox-description" →
  same_at key st (on_preload_load k st).
Proof.
  intros H1 H2 H3. unfold on_preload_load, hideLoadingState.
  repeat case_match; try apply same_at_refl. cbv zeta.
  eapply same_at_trans; [|by apply same_at_updateImageInfo]. at_key.
Qed.

Lemma same_at_on_preload_error key k st :
  key ≠ "lightbox-image" → key ≠ "lightbox-title" → key ≠ "lightbox-description" →
  same_at key st (on_preload_error k st).
Proof.
  intros H1 H2 H3. unfold on_preload_error, hideLoadingState.
  repeat case_match; try apply same_at_refl. cbv zeta.
  eapply same_at_trans; [|by apply same_at_handleImageError]. at_key.
Qed.

Lemma same_at_handleFocusTrap key s st : same_at key st (handleFocusTrap s st).
Proof. unfold handleFocusTrap. at_key. Qed.

(** The elements of the lightbox shell: the lightbox itself and the body. *)
Lemma same_at_navigate key i st :
  key ≠ "lightbox-image" → key ≠ "lightbox-prev" → key ≠ "lightbox-next" →
  key ≠ "lightbox-counter" →
  same_at key st
    (updateCounter (updateNavigation (loadCurrentImage (set_currentIndex i st)))).
Proof.
  intros H1 H2 H3 H4.
  eapply same_at_trans; [|by apply same_at_updateCounter].
  eapply same_at_trans; [|by apply same_at_updateNavigation].
  eapply same_at_trans; [|by apply same_at_loadCurrentImage]. by split.
Qed.

Lemma same_at_showNextImage key st :
  key ≠ "lightbox-image" → key ≠ "lightbox-prev" → key ≠ "lightbox-next" →
  key ≠ "lightbox-counter" → same_at key st (showNextImage st).
Proof.
  intros H1 H2 H3 H4. unfold showNextImage. case_match; [apply same_at_refl|].
  cbv zeta. eapply same_at_trans; [|apply same_at_announce]. by apply same_at_navigate.
Qed.

Lemma same_at_showPreviousImage key st :
  key ≠ "lightbox-image" → key ≠ "lightbox-prev" → key ≠ "lightbox-next" →
  key ≠ "lightbox-counter" → same_at key st (showPreviousImage st).
Proof.
  intros H1 H2 H3 H4. unfold showPreviousImage. case_match; [apply same_at_refl|].
  cbv zeta. eapply same_at_trans; [|apply same_at_announce]. by apply same_at_navigate.
Qed.

Lemma same_at_on_open_timer_element key st :
  key ≠ "lightbox-image" → key ≠ "lightbox-prev" → key ≠ "lightbox-next" →
  key ≠ "lightbox-counter" →
  element key (on_open_timer st) = element key st.
Proof.
  intros H1 H2 H3 H4. unfold on_open_timer. destruct (openTimers st) as [|n]; [done|].
  cbv zeta.
  assert (element key
            (updateCounter (updateNavigation (loadCurrentImage (set_openTimers n st))))
          = element key st) as Hel.
  { destruct (same_at_updateCounter key
                (updateNavigation (loadCurrentImage (set_openTimers n st))) H4) as [-> _].
    destruct (same_at_updateNavigation key (loadCurrentImage (set_openTimers n st))
                H2 H3) as [-> _].
    by destruct (same_at_loadCurrentImage key (set_openTimers n st) H1) as [-> _]. }
  case_match; [by rewrite element_focus|done].
Qed.

Lemma shell_kept st st' :
  element "lightbox" st' = element "lightbox" st →
  element "body" st' = element "body" st →
  isOpen st' = isOpen st →
  shown_as_open st → shown_as_open st'.
Proof. unfold shown_as_open. by intros -> -> ->. Qed.

Lemma shell_same_at st st' :
  same_at "lightbox" st st' → same_at "body" st st' → isOpen st' = isOpen st →
  shown_as_open st → shown_as_open st'.
Proof. intros [H1 _] [H2 _]. by apply shell_kept. Qed.

Lemma openLightbox_shell index st :
  openLightbox index st = st
  ∨ (isOpen (openLightbox index st) = true
     ∧ element "lightbox" (openLightbox index st)
       = set_display "flex" <$> (set_aria_hidden "false" <$> element "lightbox" st)
     ∧ element "body" (openLightbox index st)
       = set_overflow "hidden" <$> element "body" st
     ∧ openTimers (openLightbox index st) = S (openTimers st)).
Proof.
  unfold openLightbox. case_match; [by left|right]. cbv zeta.
  unfold announceToScreenReader.
  change (isOpen (set_announcements ?l ?s)) with (isOpen s).
  change (element ?k (set_announcements ?l ?s)) with (element k s).
  change (openTimers (set_announcements ?l ?s)) with (openTimers s).
  change (isOpen (set_openTimers ?l ?s)) with (isOpen s).
  change (element ?k (set_openTimers ?l ?s)) with (element k s).
  change (openTimers (set_openTimers ?l ?s)) with l.
  rewrite !isOpen_with_element, !element_with_element, !openTimers_with_element.
  repeat (case_decide; try done).
Qed.

Lemma closeLightbox_shell st :
  closeLightbox st = st
  ∨ (isOpen (closeLightbox st) = false
     ∧ element "lightbox" (closeLightbox st)
       = set_display "none" <$> (set_aria_hidden "true" <$> element "lightbox" st)).
Proof.
  unfold closeLightbox. case_match; [by left|right]. cbv zeta.
  unfold announceToScreenReader.
  rewrite isOpen_blur_hidden, element_blur_hidden.
  change (isOpen (set_announcements ?l ?s)) with (isOpen s).
  change (element ?k (set_announcements ?l ?s)) with (element k s).
  rewrite !isOpen_with_element, !element_with_element.
  repeat (case_decide; try done).
  destruct (focusedElementBeforeModal _);
    rewrite ?isOpen_with_element, ?element_with_element;
    repeat (case_decide; try done);
    change (element ?k (set_focusedElementBeforeModal ?l ?s)) with (element k s);
    change (isOpen (set_focusedElementBeforeModal ?l ?s)) with (isOpen s);
    rewrite ?element_focus, ?isOpen_focus;
    rewrite ?isOpen_with_element, ?element_with_element;
    repeat (case_decide; try done).
Qed.

Lemma shell_openLightbox index st :
  shown_as_open st → shown_as_open (openLightbox index st).
Proof.
  intros [H1 H2]. destruct (openLightbox_shell index st) as [->|(Ho & Hl & Hb & _)];
    [done|].
  split.
  - intros lb. rewrite Hl, Ho. destruct (element "lightbox" st); [|done]. cbn.
    by intros [= <-].
  - intros body. rewrite Hb. destruct (element "body" st); [|done]. cbn.
    by intros [= <-].
Qed.

Lemma shell_closeLightbox st : shown_as_open st → shown_as_open (closeLightbox st).
Proof.
  intros [H1 H2]. destruct (closeLightbox_shell st) as [->|(Ho & Hl)]; [done|].
  split.
  - intros lb. rewrite Hl, Ho. destruct (element "lightbox" st); [|done]. cbn.
    by intros [= <-].
  - intros body _. by rewrite Ho.
Qed.

Lemma shell_showNextImage st : shown_as_open st → shown_as_open (showNextImage st).
Proof.
  apply shell_same_at; try by apply same_at_showNextImage.
  apply galleryItems_showNextImage.
Qed.

Lemma shell_showPreviousImage st :
  shown_as_open st → shown_as_open (showPreviousImage st).
Proof.
  apply shell_same_at; try by apply same_at_showPreviousImage.
  apply galleryItems_showPreviousImage.
Qed.

Lemma shell_navigate i st :
  shown_as_open st →
  shown_as_open
    (updateCounter (updateNavigation (loadCurrentImage (set_currentIndex i st)))).
Proof.
  apply shell_same_at; try by apply same_at_navigate.
  apply galleryItems_navigation.
Qed.

Lemma shell_step ev st : shown_as_open st → shown_as_open (step ev st).
Proof.
  intros H. destruct ev; cbn [step]; try done.
  - by apply shell_openLightbox.
  - case_match; [by apply shell_closeLightbox|done].
  - case_match; [by apply shell_closeLightbox|done].
  - case_match; [by apply shell_showPreviousImage|done].
  - case_match; [by apply shell_showNextImage|done].
  - case_match; [|done]. unfold handleKeydown. repeat case_match; try done.
    + by apply shell_closeLightbox.
    + by apply shell_showPreviousImage.
    + by apply shell_showNextImage.
    + by apply shell_navigate.
    + by apply shell_navigate.
    + revert H. apply shell_same_at; try apply same_at_handleFocusTrap.
      apply same_modal_handleFocusTrap.
  - revert H. apply shell_kept; try by apply same_at_on_open_timer_element.
    apply same_modal_on_open_timer.
  - revert H. apply shell_same_at; try by apply same_at_on_preload_load.
    apply same_modal_on_preload_load.
  - revert H. apply shell_same_at; try by apply same_at_on_preload_error.
    apply same_modal_on_preload_error.
  - case_match; [|done]. revert H.
    apply shell_same_at; try by apply same_at_handleImageError.
    apply same_modal_handleImageError.
  - case_match; [by apply shell_closeLightbox|done].
  - case_match; [|done]. revert H.
    apply shell_same_at; try by apply same_at_updateNavigation.
    apply same_modal_updateNavigation.
  - revert H. apply shell_same_at; try apply same_at_focus. apply same_modal_focus.
  - unfold refresh. by case_match.
  - by apply shell_openLightbox.
  - by apply shell_closeLightbox.
Qed.

(** X22. The page shows the lightbox as the script has it, after every
    event: [aria-hidden] of the lightbox is ["false"] while it is open and
    ["true"] while it is closed (on a page that starts with it set), and
    while it is open the lightbox is displayed and the body cannot scroll. *)
Theorem lightbox_shown_as_open (st : State) (evs : list Event) :
  shown_as_open st → shown_as_open (run evs st).
Proof.
  revert st. induction evs as [|ev evs IH]; intros st H; [done|].
  cbn [run foldl]. apply IH. by apply shell_step.
Qed.

Lemma lightbox_shown_as_open_witness :
  shown_as_open
    (run [ItemActivate 0; OpenTimer; NextClick; Keydown "Escape" false; OpenLightbox 1;
          Refresh] example_state).
Proof.
  apply (lightbox_shown_as_open example_state). split.
  - intros lb Hlb. vm_compute in Hlb. injection Hlb as <-. split; [done|].
    intros Ho. discriminate Ho.
  - intros body _ Ho. discriminate Ho.
Defined.

Lemma counter_kept st st' :
  same_at "lightbox-counter" st st' → same_cursor st st' → isOpen st' = isOpen st →
  counter_is_current st → counter_is_current st'.
Proof.
  intros [He Ht] [Hi Hg] Ho H. unfold counter_is_current, length_of in *.
  by rewrite He, Ht, Hi, Hg, Ho.
Qed.

Lemma counter_updated st : counter_is_current (updateCounter st).
Proof.
  intros _ _ Hn c.
  destruct (same_cursor_updateCounter st) as [Hi Hg].
  unfold length_of in *. rewrite Hi, Hg in *. fold (length_of st) in *.
  unfold updateCounter. apply Z.ltb_lt in Hn. rewrite Hn.
  rewrite !element_with_element. rewrite !decide_True by done.
  destruct (element "lightbox-counter" st); [|done]. cbn. by intros [= <-].
Qed.

Lemma counter_announce msg st :
  counter_is_current st → counter_is_current (announceToScreenReader msg st).
Proof.
  apply counter_kept; [apply same_at_announce|apply same_cursor_announce|done].
Qed.

Lemma counter_showNextImage st :
  counter_is_current st → counter_is_current (showNextImage st).
Proof.
  intros H. unfold showNextImage. case_match; [done|]. cbv zeta.
  apply counter_announce, counter_updated.
Qed.

Lemma counter_showPreviousImage st :
  counter_is_current st → counter_is_current (showPreviousImage st).
Proof.
  intros H. unfold showPreviousImage. case_match; [done|]. cbv zeta.
  apply counter_announce, counter_updated.
Qed.

Lemma counter_closeLightbox st :
  counter_is_current st → counter_is_current (closeLightbox st).
Proof.
  intros H. destruct (closeLightbox_isOpen st) as [->|Hc]; [done|].
  intros Ho. congruence.
Qed.

Lemma counter_openLightbox index st :
  counter_is_current st → counter_is_current (openLightbox index st).
Proof.
  intros H. destruct (openLightbox_shell index st) as [->|(_ & _ & _ & Ht)]; [done|].
  intros _ H0. congruence.
Qed.

Lemma counter_on_open_timer st :
  counter_is_current st → counter_is_current (on_open_timer st).
Proof.
  intros H. unfold on_open_timer. destruct (openTimers st) as [|n]; [done|]. cbv zeta.
  case_match; [|apply counter_updated].
  eapply counter_kept; [apply same_at_focus|apply same_cursor_focus|apply isOpen_focus
                       |apply counter_updated].
Qed.

Lemma counter_current_step ev st :
  is_refresh ev = false → counter_is_current st → counter_is_current (step ev st).
Proof.
  intros Hev H. destruct ev; try done; cbn [step].
  - by apply counter_openLightbox.
  - case_match; [by apply counter_closeLightbox|done].
  - case_match; [by apply counter_closeLightbox|done].
  - case_match; [by apply counter_showPreviousImage|done].
  - case_match; [by apply counter_showNextImage|done].
  - case_match; [|done]. unfold handleKeydown. repeat case_match; try done.
    + by apply counter_closeLightbox.
    + by apply counter_showPreviousImage.
    + by apply counter_showNextImage.
    + apply counter_updated.
    + apply counter_updated.
    + revert H. apply counter_kept; [apply same_at_handleFocusTrap
                                    |apply same_cursor_handleFocusTrap
                                    |apply same_modal_handleFocusTrap].
  - by apply counter_on_open_timer.
  - revert H. apply counter_kept; [by apply same_at_on_preload_load
                                  |apply same_cursor_on_preload_load
                                  |apply same_modal_on_preload_load].
  - revert H. apply counter_kept; [by apply same_at_on_preload_error
                                  |apply same_cursor_on_preload_error
                                  |apply same_modal_on_preload_error].
  - case_match; [|done]. revert H.
    apply counter_kept; [by apply same_at_handleImageError
                        |apply same_cursor_handleImageError
                        |apply same_modal_handleImageError].
  - case_match; [by apply counter_closeLightbox|done].
  - case_match; [|done]. revert H.
    apply counter_kept; [by apply same_at_updateNavigation
                        |apply same_cursor_updateNavigation
                        |apply same_modal_updateNavigation].
  - revert H. apply counter_kept; [apply same_at_focus|apply same_cursor_focus
                                  |apply isOpen_focus].
  - by apply counter_openLightbox.
  - by apply counter_closeLightbox.
Qed.

(** X23. The counter is never stale: in an open lightbox over a gallery of
    several images, once the timer of the opening has run, the counter shows
    the position of the current image, "i of N", after every key, click,
    image load, call of [closeLightbox] and call of [openLightbox] with an
    integer index, as long as the gallery is not refreshed. *)
Theorem counter_shows_current_position (st : State) (evs : list Event) :
  counter_is_current st →
  Forall (λ ev, is_refresh ev = false) evs →
  counter_is_current (run evs st).
Proof.
  intros Hst Hevs. revert st Hst.
  induction Hevs as [|ev evs Hev _ IH]; intros st Hst; [done|].
  cbn [run foldl]. apply IH. by apply counter_current_step.
Qed.

Lemma counter_shows_current_position_witness :
  let st := run [ItemActivate 0; OpenTimer; Keydown "ArrowLeft" false; PreloadLoad 0]
              example_state in
  counter_is_current st ∧
  textContent <$> element "lightbox-counter" st = Some "2 of 2".
Proof.
  split; [|reflexivity].
  apply (counter_shows_current_position example_state
           [ItemActivate 0; OpenTimer; Keydown "ArrowLeft" false; PreloadLoad 0]).
  - intros Ho. discriminate Ho.
  - repeat constructor.
Defined.

End LightboxFacts.

(** ** Properties of main.js *)
Module MainFacts.
Import JS Main.

(** *** debounce *)

Section Debounce.
Context {A : Type}.
Implicit Types (d : Debounced A) (evs : list (Call A)).

(** At most one timer is pending, and it is the one [timeout] names. *)
Definition one_timer d : Prop :=
  timers d = [] ∨ ∃ id args, timers d = [(id, args)] ∧ timeout d = Some id.

Lemma clearTimeout_one_timer d : one_timer d → clearTimeout (timeout d) (timers d) = [].
Proof.
  intros [Ht|(id & args & Ht & Hid)]; rewrite Ht.
  - by destruct (timeout d).
  - rewrite Hid. unfold clearTimeout. rewrite filter_cons.
    rewrite decide_False; [done|]. cbn. by intros H; apply H.
Qed.

Lemma executedFunction_timers args d :
  one_timer d →
  timers (executedFunction args d) = [(next_id d, args)]
  ∧ timeout (executedFunction args d) = Some (next_id d)
  ∧ calls (executedFunction args d) = calls d.
Proof.
  intros H. cbn. by rewrite clearTimeout_one_timer.
Qed.

Lemma later_none id d : timers d = [] → later id d = d.
Proof. intros H. unfold later. by rewrite H. Qed.

Lemma later_other id id' args d :
  timers d = [(id', args)] → id ≠ id' → later id d = d.
Proof.
  intros H Hne. unfold later. rewrite H. cbn.
  rewrite decide_False; [done|]. cbn. congruence.
Qed.

Lemma later_same id args d :
  timers d = [(id, args)] →
  timers (later id d) = [] ∧ calls (later id d) = calls d ++ [args]
  ∧ timeout (later id d) = timeout d.
Proof.
  intros H. unfold later. rewrite H. cbn.
  rewrite decide_True by done. cbn.
  rewrite decide_False by (by intros Hn; apply Hn).
  by destruct (timeout d).
Qed.

Lemma one_timer_step ev d : one_timer d → one_timer (debounce_step ev d).
Proof.
  intros H. destruct ev as [args|id]; cbn.
  - destruct (executedFunction_timers args d H) as (Ht & Hid & _).
    right. eauto.
  - destruct H as [Ht|(id' & args & Ht & Hid)].
    + rewrite later_none by done. by left.
    + destruct (decide (id = id')) as [->|Hne].
      * left. by apply later_same in Ht as (-> & _).
      * rewrite (later_other _ _ _ _ Ht Hne). right. eauto.
Qed.

Lemma debounce_run_snoc evs ev d :
  debounce_run (evs ++ [ev]) d = debounce_step ev (debounce_run evs d).
Proof. unfold debounce_run. by rewrite foldl_app. Qed.

Lemma one_timer_run evs d : one_timer d → one_timer (debounce_run evs d).
Proof.
  induction evs as [|ev evs IH] using rev_ind; [done|].
  intros H. rewrite debounce_run_snoc. by apply one_timer_step, IH.
Qed.

Lemma invocations_snoc evs ev :
  invocations (evs ++ [ev]) =
  invocations evs ++ match ev with Invoke args => [args] | Expire _ => [] end.
Proof. unfold invocations. rewrite omap_app. by destruct ev. Qed.

(** What has run and what is pending are calls that were made: the pending
    timer carries the arguments of the last call. *)
Definition pending_last d (invs : list A) : Prop :=
  (timers d = [] ∧ calls d `sublist_of` invs)
  ∨ ∃ id args invs', timers d = [(id, args)] ∧ timeout d = Some id
                     ∧ invs = invs' ++ [args] ∧ calls d `sublist_of` invs'.

Lemma pending_last_sublist d invs : pending_last d invs → calls d `sublist_of` invs.
Proof.
  intros [[_ H]|(id & args & invs' & _ & _ & -> & H)]; [done|].
  by apply sublist_inserts_r.
Qed.

Lemma pending_last_one_timer d invs : pending_last d invs → one_timer d.
Proof.
  intros [[H _]|(id & args & invs' & H1 & H2 & _)]; [by left|right; eauto].
Qed.

Lemma pending_last_run evs first_id :
  pending_last (debounce_run evs (debounce first_id)) (invocations evs).
Proof.
  induction evs as [|ev evs IH] using rev_ind.
  - left. done.
  - rewrite debounce_run_snoc, invocations_snoc.
    set (d := debounce_run evs (debounce first_id)) in *.
    destruct ev as [args|id]; cbn [debounce_step].
    + destruct (executedFunction_timers args d (pending_last_one_timer _ _ IH))
        as (Ht & Hid & Hc).
      right. exists (next_id d), args, (invocations evs).
      rewrite Hc. split_and!; try done. by eapply pending_last_sublist.
    + rewrite app_nil_r.
      destruct IH as [[Ht Hs]|(id' & args & invs' & Ht & Hid & Hi & Hs)].
      * rewrite later_none by done. by left.
      * destruct (decide (id = id')) as [->|Hne].
        -- left. apply later_same in Ht as (-> & -> & _). split; [done|].
           rewrite Hi. by apply sublist_app.
        -- rewrite (later_other _ _ _ _ Ht Hne). right.
           exists id', args, invs'. done.
Qed.

(** X24. A debounced function runs [func] only with arguments it was called
    with, in the order of the calls and at most once for each call; it
    never makes a call up and never repeats one. *)
Theorem debounce_runs_calls_made_in_order (first_id : nat) (evs : list (Call A)) :
  calls (debounce_run evs (debounce first_id)) `sublist_of` invocations evs.
Proof. eapply pending_last_sublist, pending_last_run. Qed.

Lemma burst_pending (l : list A) args d :
  one_timer d →
  let d' := debounce_run (Invoke <$> l ++ [args]) d in
  ∃ id, timers d' = [(id, args)] ∧ timeout d' = Some id ∧ calls d' = calls d.
Proof.
  intros H. cbv zeta. rewrite fmap_app. cbn [fmap list_fmap].
  rewrite debounce_run_snoc. cbn [debounce_step].
  assert (one_timer (debounce_run (Invoke <$> l) d)
          ∧ calls (debounce_run (Invoke <$> l) d) = calls d) as [H1 H2].
  { clear args. induction l as [|a l IH] using rev_ind; [done|].
    rewrite fmap_app. cbn [fmap list_fmap]. rewrite debounce_run_snoc.
    destruct IH as [IH1 IH2]. split; [by apply one_timer_step|].
    cbn [debounce_step].
    by destruct (executedFunction_timers a _ IH1) as (_ & _ & ->). }
  destruct (executedFunction_timers args _ H1) as (Ht & Hid & Hc).
  eexists. split_and!; [done..|]. by rewrite Hc.
Qed.

Lemma expired_nothing (ids : list nat) d :
  timers d = [] → debounce_run (Expire <$> ids) d = d.
Proof.
  intros H. induction ids as [|id ids IH] using rev_ind; [done|].
  rewrite fmap_app. cbn [fmap list_fmap]. rewrite debounce_run_snoc, IH.
  by apply later_none.
Qed.

(** X25. After a burst of calls of a debounced function nothing has run
    yet and one timer is pending; when it expires [func] runs once, with
    the arguments of the last call of the burst, and no timer that expires
    afterwards runs it again. *)
Theorem debounce_burst_runs_last_call_once
    (first_id : nat) (evs : list (Call A)) (burst : list A) (args : A)
    (ids : list nat) :
  let before := debounce_run evs (debounce first_id) in
  let d := debounce_run (Invoke <$> burst ++ [args]) before in
  calls d = calls before
  ∧ ∃ id, timers d = [(id, args)]
          ∧ calls (debounce_run (Expire id :: (Expire <$> ids)) d)
            = calls before ++ [args].
Proof.
  cbv zeta.
  destruct (burst_pending burst args (debounce_run evs (debounce first_id)))
    as (id & Ht & Hid & Hc).
  { apply one_timer_run. by left. }
  split; [done|]. exists id. split; [done|].
  cbn [debounce_run foldl debounce_step]. fold (debounce_run (A := A)).
  apply later_same in Ht as (Ht' & Hc' & _).
  change (foldl _ ?d (Expire <$> ids)) with (debounce_run (Expire <$> ids) d).
  rewrite expired_nothing by done. by rewrite Hc', Hc.
Qed.

End Debounce.

(** *** throttle *)

Section Throttle.
Context {A : Type}.
Implicit Types (t : Throttled A) (evs : list (Call A)).

Lemma throttle_run_snoc evs ev t :
  throttle_run (evs ++ [ev]) t = throttle_step ev (throttle_run evs t).
Proof. unfold throttle_run. by rewrite foldl_app. Qed.

Lemma expirations_snoc evs ev :
  expirations (evs ++ [ev]) =
  (expirations evs + match ev with Invoke _ => 0 | Expire _ => 1 end)%nat.
Proof.
  unfold expirations. rewrite omap_app, length_app. by destruct ev.
Qed.

(** A timer is pending exactly while [inThrottle] holds, and each call of
    [func] set one timer. *)
Definition window_open t (expired : nat) : Prop :=
  limitTimers t = (if inThrottle t then 1 else 0)%nat
  ∧ (length (throttled_calls t) ≤ expired + limitTimers t)%nat.

Lemma window_open_run evs :
  window_open (throttle_run evs throttle) (expirations evs).
Proof.
  induction evs as [|ev evs IH] using rev_ind; [split; cbn; lia|].
  rewrite throttle_run_snoc, expirations_snoc.
  destruct IH as [IH1 IH2]. destruct ev as [args|id]; cbn [throttle_step].
  - unfold throttled, window_open.
    destruct (inThrottle (throttle_run evs throttle)) eqn:Hin; cbn.
    + rewrite Hin. split; [done|lia].
    + rewrite length_app. cbn. split; lia.
  - unfold on_limit, window_open.
    destruct (limitTimers (throttle_run evs throttle)) as [|n] eqn:Hn.
    + rewrite Hn. split; [done|lia].
    + cbn. destruct (inThrottle (throttle_run evs throttle)); split; lia.
Qed.

Lemma throttled_dropped (l : list A) t :
  inThrottle t = true → throttle_run (Invoke <$> l) t = t.
Proof.
  intros H. induction l as [|a l IH] using rev_ind; [done|].
  rewrite fmap_app. cbn [fmap list_fmap]. rewrite throttle_run_snoc, IH.
  cbn. unfold throttled. by rewrite H.
Qed.

Lemma expired_calls (ids : list nat) t :
  throttled_calls (throttle_run (Expire <$> ids) t) = throttled_calls t.
Proof.
  induction ids as [|id ids IH] using rev_ind; [done|].
  rewrite fmap_app. cbn [fmap list_fmap]. rewrite throttle_run_snoc. cbn.
  unfold on_limit. by destruct (limitTimers _).
Qed.

Lemma window_closed evs id :
  inThrottle (throttle_run (evs ++ [Expire id]) throttle) = false.
Proof.
  rewrite throttle_run_snoc. cbn. destruct (window_open_run evs) as [H _].
  unfold on_limit. destruct (limitTimers (throttle_run evs throttle)); [|done].
  by destruct (inThrottle (throttle_run evs throttle)).
Qed.

(** X26. Once the timer of its window has expired, a throttled function
    runs the next call at once and drops the calls that follow, which do
    not run later either; so [func] runs at most once more than timers have
    expired, however often the function is called. *)
Theorem throttle_runs_first_call_of_window
    (evs : list (Call A)) (id : nat) (args : A) (burst : list A) (ids : list nat) :
  let t := throttle_run (evs ++ [Expire id]) throttle in
  throttled_calls
    (throttle_run (Invoke args :: (Invoke <$> burst) ++ (Expire <$> ids)) t)
  = throttled_calls t ++ [args]
  ∧ (length (throttled_calls (throttle_run evs throttle)) ≤ S (expirations evs))%nat.
Proof.
  cbv zeta. split.
  - pose proof (window_closed evs id) as Hc.
    set (t := throttle_run (evs ++ [Expire id]) throttle) in *.
    change (throttle_run (Invoke args :: ?l) t)
      with (throttle_run l (throttled args t)).
    unfold throttle_run at 1. rewrite foldl_app.
    change (foldl _ ?t0 (Invoke <$> burst)) with (throttle_run (Invoke <$> burst) t0).
    change (foldl _ ?t0 (Expire <$> ids)) with (throttle_run (Expire <$> ids) t0).
    rewrite expired_calls, throttled_dropped.
    + unfold throttled. by rewrite Hc.
    + unfold throttled. by rewrite Hc.
  - destruct (window_open_run evs) as [H1 H2].
    destruct (inThrottle (throttle_run evs throttle)); lia.
Qed.

End Throttle.

(** *** Sticky header *)

Lemma greater_spec y n : greater y n = true ↔ (inject_Z n < y)%Q.
Proof.
  unfold greater. rewrite negb_true_iff, <- not_true_iff_false, Qle_bool_iff.
  split; [apply Qnot_le_lt|apply Qlt_not_le].
Qed.

(** At most one frame is requested at a time, and without one the header
    is marked for the position of the page. *)
Definition header_current (h : Header) : Prop :=
  frames h = (if ticking h then 1 else 0)%nat
  ∧ (ticking h = false →
     ∀ cl, header h = Some cl → ("scrolled" ∈ cl ↔ (50 < scrollY h)%Q)).

Lemma updateHeader_current h :
  ∀ cl, header (updateHeader h) = Some cl → ("scrolled" ∈ cl ↔ (50 < scrollY h)%Q).
Proof.
  intros cl. cbn. destruct (header h) as [cl0|]; [|done]. cbn. intros [= <-].
  change 50%Q with (inject_Z 50). rewrite <- greater_spec.
  destruct (greater _ _); set_solver.
Qed.

Lemma header_current_step ev h : header_current h → header_current (header_step ev h).
Proof.
  intros [H1 H2]. destruct ev as [y|]; cbn [header_step]; cbv zeta.
  - cbn [header]. destruct (header h) eqn:Hh.
    + unfold requestTick. cbn [ticking]. destruct (ticking h) eqn:Ht; cbn [negb].
      * by split.
      * split; cbn; [by rewrite H1|done].
    + by split.
  - destruct (frames h) as [|n] eqn:Hf; [split; [by rewrite Hf|done]|].
    destruct (ticking h); [|done]. injection H1 as ->.
    split; [done|]. intros _. apply updateHeader_current.
Qed.

Lemma header_step_some ev h : is_Some (header h) → is_Some (header (header_step ev h)).
Proof.
  intros [cl Hcl]. destruct ev as [y|]; cbn [header_step]; cbv zeta.
  - cbn [header]. rewrite Hcl. unfold requestTick. cbn [ticking].
    destruct (ticking h); cbn; rewrite ?Hcl; by eexists.
  - destruct (frames h); [by eexists|]. cbn. rewrite Hcl. by eexists.
Qed.

Lemma header_run_snoc evs ev h :
  header_run (evs ++ [ev]) h = header_step ev (header_run evs h).
Proof. unfold header_run. by rewrite foldl_app. Qed.

(** X27. The sticky header is never stale: however the page is scrolled,
    at most one animation frame is requested at a time, and whenever none
    is pending the header has the class [scrolled] exactly when the page is
    scrolled past 50. *)
Theorem header_follows_scroll_position
    (y : Q) (cl0 : gset string) (evs : list HeaderEvent) :
  let h := header_run evs (setupStickyHeader (page_header y (Some cl0))) in
  (frames h ≤ 1)%nat
  ∧ (frames h = 0%nat →
     ∃ cl, header h = Some cl ∧ ("scrolled" ∈ cl ↔ (50 < scrollY h)%Q)).
Proof.
  cbv zeta.
  set (h0 := setupStickyHeader (page_header y (Some cl0))).
  assert (header_current (header_run evs h0) ∧ is_Some (header (header_run evs h0)))
    as [[H1 H2] [cl Hcl]].
  { induction evs as [|ev evs [IH1 IH2]] using rev_ind.
    - split; [|by eexists]. split; [done|]. intros _. apply updateHeader_current.
    - rewrite header_run_snoc.
      split; [by apply header_current_step|by apply header_step_some]. }
  split; [rewrite H1; destruct (ticking _); lia|].
  intros Hf. exists cl. split; [done|]. apply H2; [|done].
  rewrite Hf in H1. by destruct (ticking _).
Qed.

(** *** Mobile menu *)

Lemma menu_marks_step m0 ev m :
  menu_shown_as_open m ∨ menu_untouched m0 m →
  menu_shown_as_open (menu_step ev m) ∨ menu_untouched m0 (menu_step ev m).
Proof.
  intros H. destruct ev as [target|key shiftKey| | |t|items]; cbn [menu_step].
  - destruct (present m); [|done]. cbn. destruct target; try done.
    + left. unfold toggleMobileMenu. by destruct (isMenuOpen m).
    + by left.
    + destruct (isMenuOpen m); [by left|done].
  - destruct (present m); [|done]. cbn [negb].
    set (m' := if trapped m && in_menu (activeElement m)
               then menu_handleFocusTrap key shiftKey m else m).
    assert (m' = m ∨ ∃ t, m' = menu_focus t m) as Hm'.
    { subst m'. destruct (trapped m && in_menu (activeElement m)); [|by left].
      unfold menu_handleFocusTrap.
      repeat (case_match; try by left); right; by eexists. }
    destruct (String.eqb key "Escape" && isMenuOpen m'); [by left|].
    by destruct Hm' as [->|[t ->]].
  - unfold on_focus_timer. destruct (focusTimers m); [done|].
    cbn. by destruct (firstFocusableElement m).
  - destruct (isMenuOpen m); [by left|done].
  - done.
  - done.
Qed.

Lemma menu_run_snoc evs ev m :
  menu_run (evs ++ [ev]) m = menu_step ev (menu_run evs m).
Proof. unfold menu_run. by rewrite foldl_app. Qed.

(** X28. The mobile menu says what it is: from the first time the script
    opens or closes it, [aria-expanded] of the button, [aria-hidden] of the
    menu and the scroll lock of the body agree with [isMenuOpen] after every
    click, key, timer and visibility change; before that the page is as it
    was loaded and the menu counts as closed. *)
Theorem menu_marks_follow_state
    (found : bool) (items : list Place) (expanded hidden : option string)
    (body_overflow : string) (focused : Place) (evs : list MenuEvent) :
  let m0 := page_menu found items expanded hidden body_overflow focused in
  menu_shown_as_open (menu_run evs m0) ∨ menu_untouched m0 (menu_run evs m0).
Proof.
  cbv zeta. induction evs as [|ev evs IH] using rev_ind; [by right|].
  rewrite menu_run_snoc. by apply menu_marks_step.
Qed.

(** *** Toasts *)

(** A toast in the container still has a timer that will take it out. *)
Definition will_go (t : Toast) : Prop :=
  attached t = true → closeTimer t = true ∨ (0 < removeTimers t)%nat.

Lemma will_go_alter f k (l : list Toast) :
  (∀ t, will_go t → will_go (f t)) → Forall will_go l → Forall will_go (alter f k l).
Proof.
  intros Hf Hl. apply Forall_lookup. intros i t Hi.
  destruct (decide (i = k)) as [->|Hne].
  - rewrite list_lookup_alter_eq in Hi.
    destruct (l !! k) as [t0|] eqn:E; cbn in Hi; [|done]. injection Hi as <-.
    apply Hf. by eapply Forall_lookup_1.
  - rewrite list_lookup_alter_ne in Hi by done. by eapply Forall_lookup_1.
Qed.

Lemma will_go_step ev ts :
  Forall will_go (toasts ts) → Forall will_go (toasts (toast_step ev ts)).
Proof.
  intros H. destruct ev as [msg ty|k|k|k|k]; cbn.
  - unfold showToast. destruct (container ts); [|done]. cbn.
    apply Forall_app. split; [done|]. constructor; [|done]. intros _. by left.
  - apply will_go_alter; [|done]. intros t Ht. unfold on_show_timer.
    by destruct (showTimer t).
  - apply will_go_alter; [|done]. intros t Ht _. right. cbn. lia.
  - apply will_go_alter; [|done]. intros t Ht. unfold on_close_timer.
    destruct (closeTimer t); [|done]. intros _. right. cbn. lia.
  - apply will_go_alter; [|done]. intros t Ht. unfold on_remove_timer.
    destruct (removeTimers t); [done|]. intros Ha. done.
Qed.

Lemma toast_run_snoc evs ev ts :
  toast_run (evs ++ [ev]) ts = toast_step ev (toast_run evs ts).
Proof. unfold toast_run. by rewrite foldl_app. Qed.

Lemma will_go_run found evs :
  Forall will_go (toasts (toast_run evs (page_toasts found))).
Proof.
  induction evs as [|ev evs IH] using rev_ind; [constructor|].
  rewrite toast_run_snoc. by apply will_go_step.
Qed.

(** X29. No toast is left behind: a toast whose closing timer has run and
    whose removal timers have all run is out of the container, whether it
    was closed by its button, by the timer or by both. *)
Theorem toast_gone_when_timers_done
    (found : bool) (evs : list ToastEvent) (k : nat) (t : Toast) :
  toasts (toast_run evs (page_toasts found)) !! k = Some t →
  closeTimer t = false → removeTimers t = 0%nat →
  attached t = false.
Proof.
  intros Hk Hc Hr.
  pose proof (will_go_run found evs) as H.
  eapply Forall_lookup_1 in H; [|done].
  apply not_true_is_false. intros Ha. destruct (H Ha) as [?|?]; [congruence|lia].
Qed.

Lemma toast_gone_when_timers_done_witness :
  attached <$>
    toasts (toast_run [ShowToast "Saved" None; CloseClick 0; ShowTimer 0;
                       CloseTimer 0; RemoveTimer 0; RemoveTimer 0]
              (page_toasts true)) !! 0%nat
  = Some false.
Proof.
  destruct (toasts _ !! 0%nat) as [t|] eqn:E; [|discriminate E].
  cbn. f_equal.
  apply (toast_gone_when_timers_done true _ 0 t E).
  - by injection E as <-.
  - by injection E as <-.
Defined.

(** *** Navigation *)

Lemma setupNavigation_lookup currentPath navLinks links i link :
  setupNavigation currentPath navLinks = (links, true) →
  links !! i = Some link →
  ∃ link0 linkPath, navLinks !! i = Some link0 ∧ pathname link0 = Some linkPath
                    ∧ link = mark_link currentPath linkPath link0.
Proof.
  revert links i. induction navLinks as [|link0 rest IH]; intros links i; cbn.
  - intros [= <-]. done.
  - destruct (pathname link0) as [linkPath|] eqn:Hp; [|done].
    destruct (setupNavigation currentPath rest) as [rest' completed].
    intros [= <- ->]. destruct i as [|i]; cbn.
    + intros [= <-]. eauto.
    + intros Hi. by eapply IH.
Qed.

Lemma is_current_page_home currentPath linkPath :
  currentPath = "/" ∨ linkPath = "/" →
  is_current_page currentPath linkPath = true ↔ linkPath = currentPath.
Proof.
  intros H. unfold is_current_page.
  rewrite !orb_true_iff, !andb_true_iff, !negb_true_iff, !bool_decide_eq_true,
    !bool_decide_eq_false.
  split; [|by left; left]. intros [[?|[-> ->]]|[[? ?] _]]; [done|done|].
  by destruct H.
Qed.

Lemma mark_link_active currentPath linkPath link :
  let link' := mark_link currentPath linkPath link in
  pathname link' = pathname link
  ∧ ("active" ∈ link_classes link' ↔ is_current_page currentPath linkPath = true)
  ∧ (aria_current link' = Some "page" ↔ is_current_page currentPath linkPath = true).
Proof.
  cbv zeta. unfold mark_link. destruct (is_current_page _ _); cbn.
  - split_and!; [done| |done]. split; [done|]. intros _. set_solver.
  - split_and!; [done| |done]. split; [|done]. set_solver.
Qed.

(** X30. Where the home page is involved the navigation marks exact matches
    only: on the home page, and for the link to the home page on any page,
    a link ends up with the class [active] and [aria-current="page"] exactly
    when its path is the current path, whatever marks it had before. *)
Theorem home_link_marked_on_home_page_only
    (currentPath : string) (navLinks links : list Link) (i : nat) (link : Link) :
  setupNavigation currentPath navLinks = (links, true) →
  links !! i = Some link →
  currentPath = "/" ∨ pathname link = Some "/" →
  ("active" ∈ link_classes link ↔ pathname link = Some currentPath)
  ∧ (aria_current link = Some "page" ↔ pathname link = Some currentPath).
Proof.
  intros Hs Hi Hhome.
  destruct (setupNavigation_lookup _ _ _ _ _ Hs Hi) as (link0 & linkPath & _ & Hp & ->).
  destruct (mark_link_active currentPath linkPath link0) as (Hp' & Ha & Hc).
  rewrite Hp', Hp in *. rewrite Ha, Hc.
  rewrite is_current_page_home.
  - split; (split; [by intros ->|by intros [= ->]]).
  - destruct Hhome as [?|[= ->]]; auto.
Qed.

Lemma home_link_marked_on_home_page_only_witness :
  (fun link => bool_decide ("active" ∈ link_classes link)) <$>
    (setupNavigation "/pages/gallery.html" example_links).1 !! 0%nat
  = Some false.
Proof.
  destruct ((setupNavigation "/pages/gallery.html" example_links).1 !! 0%nat)
    as [link|] eqn:Hl; [|discriminate Hl].
  cbn. f_equal. apply bool_decide_eq_false. intros Ha.
  destruct (home_link_marked_on_home_page_only "/pages/gallery.html" example_links
              (setupNavigation "/pages/gallery.html" example_links).1 0 link
              eq_refl Hl) as [H _].
  - right. by injection Hl as <-.
  - apply H in Ha. injection Hl as <-. discriminate Ha.
Defined.

End MainFacts.
